(** * Dynamic graph generation: the round pipeline of [main.cxx]

    A shallow embedding of [src/main.cxx]: the three numeric helpers
    ([KLDivergence], [normalize], [degreeDistributionToProbability]), the
    batch dispatch ([handleUpdateNature]), the output writer, the round
    loop of [handleOptions], the reading of the option map and [main],
    followed by the properties the specification states about them and by
    further properties of the code.

    The graph container, the Matrix-Market reader, the graph transforms, the
    batch generators and the batch applier live in headers next to
    [main.cxx]; they enter the development as the fields of one record of
    collaborators and are never unfolded. *)

From Stdlib Require Import ZArith List String Ascii Floats Lia QArith Qcanon Field.
From Stdlib Require Import DecimalString DecimalZ DecimalPos.
From Stdlib Require Import Qabs Lqa Qpower.
From stdpp Require Import gmap sorting.

Set Warnings "-inexact-float".
Local Open Scope Z_scope.

(** ** Machine integers *)

Definition INT_MAX : Z := 2 ^ 31 - 1.
Definition INT64_MIN : Z := - 2 ^ 63.
Definition INT64_MAX : Z := 2 ^ 63 - 1.

(** Arithmetic on [size_t] is modulo [2^64]. *)
Definition wrap_size_t (z : Z) : Z := z mod 2 ^ 64.

(** ** The C++ type [double]

    The numeric helpers only add, multiply, divide and compare doubles and
    convert integers to and from them.  They are embedded once, over these
    operations, and run on two carriers: IEEE binary64 (the kernel's
    primitive floats), which is what the program computes with, and the
    rationals, which is what the program computes when no operation rounds. *)

Class Double (D : Type) := {
  d_zero : D;                       (* the literal 0.0 *)
  d_one : D;                        (* the literal 1.0 *)
  d_add : D -> D -> D;
  d_mul : D -> D -> D;
  d_div : D -> D -> D;
  d_eqb : D -> D -> bool;           (* operator== ; operator!= is its negation *)
  d_of_size_t : Z -> D;             (* conversion size_t -> double *)
  d_to_int64 : D -> option Z        (* conversion double -> int64_t, [None]
                                       where the language leaves it undefined *)
}.

Declare Scope double_scope.
Delimit Scope double_scope with dbl.
Infix "+" := d_add : double_scope.
Infix "*" := d_mul : double_scope.
Infix "/" := d_div : double_scope.
Infix "==" := d_eqb (at level 70, no associativity) : double_scope.

(** *** IEEE binary64 *)

Module IEEE.

(** Round-to-nearest-even conversion of an integer. *)
Definition of_Z (z : Z) : float :=
  SF2Prim (binary_normalize prec emax z 0 false).

(** Truncation toward zero of a finite value ([m * 2^e], sign [s]). *)
Definition trunc_finite (s : bool) (m : positive) (e : Z) : Z :=
  let magnitude := Z.shiftl (Z.pos m) e in
  if s then - magnitude else magnitude.

(** The largest integer not above a finite value. *)
Definition floor_finite (s : bool) (m : positive) (e : Z) : Z :=
  Z.shiftl (if s then Z.neg m else Z.pos m) e.

Definition in_int64 (z : Z) : bool := (INT64_MIN <=? z) && (z <=? INT64_MAX).

(** [static_cast<int64_t>(x)]: the fractional part is discarded; the
    conversion is undefined when the truncated value is not representable
    (NaN and the infinities included). *)
Definition to_int64 (x : float) : option Z :=
  match Prim2SF x with
  | S754_zero _ => Some 0
  | S754_finite s m e =>
      let z := trunc_finite s m e in
      if in_int64 z then Some z else None
  | S754_infinity _ | S754_nan => None
  end.

Definition floor (x : float) : option Z :=
  match Prim2SF x with
  | S754_zero _ => Some 0
  | S754_finite s m e => Some (floor_finite s m e)
  | S754_infinity _ | S754_nan => None
  end.

#[global] Instance double : Double float := {|
  d_zero := 0%float;
  d_one := 1%float;
  d_add := PrimFloat.add;
  d_mul := PrimFloat.mul;
  d_div := PrimFloat.div;
  d_eqb := PrimFloat.eqb;
  d_of_size_t := of_Z;
  d_to_int64 := to_int64
|}.

End IEEE.

(** *** Exact arithmetic *)

Module Exact.

Definition to_int64 (x : Qc) : option Z :=
  let z := Z.quot (Qnum (this x)) (Z.pos (Qden (this x))) in
  if IEEE.in_int64 z then Some z else None.

#[global] Instance double : Double Qc := {|
  d_zero := Q2Qc 0;
  d_one := Q2Qc 1;
  d_add := Qcplus;
  d_mul := Qcmult;
  d_div := Qcdiv;
  d_eqb := Qc_eq_bool;
  d_of_size_t := fun z => Q2Qc (inject_Z z);
  d_to_int64 := to_int64
|}.

End Exact.

(** The laws of exact arithmetic, which the rationals satisfy.  IEEE
    doubles do not: their quotients and sums are rounded, and NaN differs
    from itself.  What is proved under these laws is a statement about
    exact arithmetic only. *)
Class ExactDouble (D : Type) `{Double D} : Prop := {
  exact_eqb_eq : forall x y : D, d_eqb x y = true <-> x = y;
  exact_div_zero : forall s : D, d_div d_zero s = d_zero;
  exact_div_add : forall x y s : D, d_div (d_add x y) s = d_add (d_div x s) (d_div y s);
  exact_div_same : forall s : D, s <> d_zero -> d_div s s = d_one;
  exact_of_zero : d_of_size_t 0 = d_zero;
  exact_of_add : forall a b : Z, 0 <= a -> 0 <= b ->
    d_of_size_t (a + b) = d_add (d_of_size_t a) (d_of_size_t b);
  exact_of_inj : forall a : Z, d_of_size_t a = d_zero -> a = 0
}.

(** ** Outcomes of a call *)

Inductive exn : Type :=
| runtime_error (what : string)
| invalid_argument (what : string).

(** A call returns, throws, runs into behaviour the language leaves
    undefined, or is still running when the fuel of the model is spent. *)
Inductive outcome (A : Type) : Type :=
| Returned (a : A)
| Thrown (e : exn)
| Undefined
| Exhausted.
Arguments Returned {A} a.
Arguments Thrown {A} e.
Arguments Undefined {A}.
Arguments Exhausted {A}.

(** ** Numeric helpers (main.cxx, lines 173-213) *)

Section Numeric.
Context {D : Type} `{Double D}.

(** [<cmath>]'s natural logarithm. *)
Variable log : D -> D.

(** The [for] loop of [KLDivergence]: [n] iterations remain, [i] is the
    loop index. *)
Fixpoint KLDivergence_loop (P Q : list D) (n i : nat) (divergence : D) : outcome D :=
  match n with
  | O => Returned divergence
  | S n' =>
      let pVal := if (i <? length P)%nat then nth i P d_zero else d_zero in
      let qVal := if (i <? length Q)%nat then nth i Q d_zero else d_zero in
      if negb (pVal == d_zero)%dbl then
        if (qVal == d_zero)%dbl then
          Thrown (invalid_argument "Q[i] must be non-zero where P[i] is non-zero.")
        else
          KLDivergence_loop P Q n' (S i)
            (divergence + pVal * log (pVal * d_one / qVal))%dbl
      else KLDivergence_loop P Q n' (S i) divergence
  end.

Definition KLDivergence (P Q : list D) : outcome D :=
  let maxSize := Nat.max (length P) (length Q) in
  KLDivergence_loop P Q maxSize 0 d_zero.

(** The first loop of [normalize], also the accumulation of a vector's
    entries from [0.0], left to right. *)
Definition d_sum (values : list D) : D :=
  fold_left d_add values d_zero.

Definition normalize (values : list D) : outcome (list D) :=
  let sum := d_sum values in
  let normalized := map (fun value => (value / sum)%dbl) values in
  Returned normalized.

End Numeric.

(** ** [std::map<size_t, size_t>]

    A finite map whose iteration visits the keys in ascending order. *)

Definition key_le (a b : Z * Z) : Prop := a.1 <= b.1.

#[global] Instance key_le_dec (a b : Z * Z) : Decision (key_le a b).
Proof. unfold key_le. apply _. Defined.

#[global] Instance key_le_total : Total key_le.
Proof. intros a b. unfold key_le. lia. Qed.

#[global] Instance key_le_trans : Transitive key_le.
Proof. intros a b c. unfold key_le. lia. Qed.

(** The pairs a range-[for] over the map yields. *)
Definition map_pairs (distribution : gmap Z Z) : list (Z * Z) :=
  merge_sort key_le (map_to_list distribution).

(** [distribution[key]++], a missing key starting from 0. *)
Definition map_increment (key : Z) (distribution : gmap Z Z) : gmap Z Z :=
  <[key := wrap_size_t (default 0 (distribution !! key) + 1)]> distribution.

Section Distributions.
Context {D : Type} `{Double D}.

(** The first loop of [degreeDistributionToProbability]. *)
Definition totalVertices (distribution : gmap Z Z) : Z :=
  fold_left (fun total pair => wrap_size_t (total + pair.2))
            (map_pairs distribution) 0.

Definition degreeDistributionToProbability (distribution : gmap Z Z)
  : outcome (list D) :=
  let totalVertices := totalVertices distribution in
  let probabilities :=
    map (fun pair => (d_of_size_t pair.2 / d_of_size_t totalVertices)%dbl)
        (map_pairs distribution) in
  Returned probabilities.

End Distributions.


(** ** What a run does, as a trace *)

(** Lines written to the standard output.  Elapsed times are the raw clock
    readings; [printf]'s formatting is not part of the model. *)
Inductive console (D : Type) : Type :=
| HelpMessage
| ReadGraphTime (elapsed : Z)
| TransformTime (name : string) (elapsed : Z)
| DegreeTable (rows : list (Z * Z))
| PerformBatchTime (k : Z) (elapsed : Z)
| WriteBatchTime (k : Z) (elapsed : Z)
| DivergenceValue (divergence : D).
Arguments HelpMessage {D}.
Arguments ReadGraphTime {D} elapsed.
Arguments TransformTime {D} name elapsed.
Arguments DegreeTable {D} rows.
Arguments PerformBatchTime {D} k elapsed.
Arguments WriteBatchTime {D} k elapsed.
Arguments DivergenceValue {D} divergence.

(** One event per step of a round, in the order the statements of the loop
    body run, and one per line of output. *)
Inductive event (D : Type) : Type :=
| BatchSizeComputed (edges batchSize : Z)      (* line 308; [edges]: edge count then *)
| BatchGenerated (updateNature : string) (batchSize : Z) (weights : list D)
| BatchApplied (edges : Z)                     (* line 255; [edges]: edge count after *)
| DistributionsAnalyzed (weights actual real : list D)   (* lines 317-320 *)
| OutputWritten (path contents : string)       (* lines 328-329 *)
| FidelityScored (P Q : list D) (result : outcome D)     (* line 337 *)
| Console (line : console D)                   (* std::cout, printf *)
| Diagnostic (text : string).                  (* std::cerr *)
Arguments BatchSizeComputed {D} edges batchSize.
Arguments BatchGenerated {D} updateNature batchSize weights.
Arguments BatchApplied {D} edges.
Arguments DistributionsAnalyzed {D} weights actual real.
Arguments OutputWritten {D} path contents.
Arguments FidelityScored {D} P Q result.
Arguments Console {D} line.
Arguments Diagnostic {D} text.

(** The steps of a round, under the names the specification gives them. *)
Inductive stage : Type :=
| ComputeBatchSize | GenerateBatch | ApplyBatch
| AnalyzeDistributions | ScoreFidelity | WriteOutput.

Definition stage_of {D : Type} (e : event D) : option stage :=
  match e with
  | BatchSizeComputed _ _ => Some ComputeBatchSize
  | BatchGenerated _ _ _ => Some GenerateBatch
  | BatchApplied _ => Some ApplyBatch
  | DistributionsAnalyzed _ _ _ => Some AnalyzeDistributions
  | OutputWritten _ _ => Some WriteOutput
  | FidelityScored _ _ _ => Some ScoreFidelity
  | Console _ | Diagnostic _ => None
  end.

Definition stages {D : Type} (t : list (event D)) : list stage :=
  omap stage_of t.

(** The output files of a trace, oldest first: path and contents. *)
Definition written {D : Type} (e : event D) : option (string * string) :=
  match e with
  | OutputWritten path contents => Some (path, contents)
  | _ => None
  end.

Definition output_files {D : Type} (t : list (event D)) : list (string * string) :=
  omap written t.

(** The effective batch size of each round of a trace, oldest first, with
    the edge count it was computed against. *)
Definition batch_size_of {D : Type} (e : event D) : option (Z * Z) :=
  match e with
  | BatchSizeComputed edges batchSize => Some (edges, batchSize)
  | _ => None
  end.

Definition batch_sizes {D : Type} (t : list (event D)) : list (Z * Z) :=
  omap batch_size_of t.

(** A computation: the events it emitted and how it ended. *)
Definition M (D A : Type) : Type := list (event D) * outcome A.

#[global] Instance M_ret {D : Type} : MRet (M D) :=
  fun A a => ([], Returned a).

#[global] Instance M_bind {D : Type} : MBind (M D) :=
  fun A B f m =>
    match m with
    | (t, Returned a) => let '(t', r) := f a in (t ++ t', r)
    | (t, Thrown e) => (t, Thrown e)
    | (t, Undefined) => (t, Undefined)
    | (t, Exhausted) => (t, Exhausted)
    end.

Definition emit {D : Type} (e : event D) : M D unit := ([e], Returned tt).
Definition throw {D A : Type} (e : exn) : M D A := ([], Thrown e).
Definition undefined {D A : Type} : M D A := ([], Undefined).
Definition call {D A : Type} (r : outcome A) : M D A := ([], r).

(** [std::to_string] on an integer. *)
Definition to_string (z : Z) : string := NilZero.string_of_int (Z.to_int z).

Definition newline : string := String (ascii_of_nat 10) EmptyString.

(** ** Collaborators, environment, options *)

(** An edge of a batch: source, target, weight. *)
Definition edge : Type := Z * Z * Z.

(** The routines [main.cxx] calls and the headers it includes define: the
    graph container ([DiGraph<int, int, int>]), the Matrix-Market reader,
    the transforms, the batch generators, the batch applier and the random
    generator.  They are parameters of the development, and every theorem
    about the pipeline holds whatever they compute.  Each is a function of
    its arguments: a generator reads the graph, draws from the one random
    stream and hands back the insertions, the deletions and (the custom
    one) the selection weights; the applier and the transforms hand back
    the new graph.  The build without OpenMP is the one embedded. *)
Record Collaborators (D : Type) : Type := {
  Graph : Type;
  Rng : Type;
  empty_graph : Graph;                         (* DiGraph<int, int, int> graph; *)
  graph_order : Graph -> Z;                          (* graph.order() *)
  graph_size : Graph -> Z;                           (* graph.size() *)
  graph_vertexKeys : Graph -> list Z;                (* graph.forEachVertexKey *)
  graph_edges : Graph -> Z -> list (Z * Z);          (* graph.forEachEdge(u, ...) *)
  graph_indegree : Graph -> Z -> Z;            (* graph.indegree(u) *)
  graph_degree : Graph -> Z -> Z;              (* graph.degree(u) *)
  readMtxW : (string -> option string) -> Graph -> string -> Graph;
  transpose : Graph -> Graph;
  symmetrize : Graph -> Graph;
  mt19937_64 : Z -> Rng;                       (* mt19937_64 rng(seed); *)
  customUpdate : string -> Rng -> Graph -> Z -> D -> D -> bool ->
                 list D * list edge * list edge * Rng;
  uniformUpdate : Rng -> Graph -> Z -> D -> D -> bool ->
                  list edge * list edge * Rng;
  preferentialUpdate : Rng -> Graph -> Z -> D -> D -> bool ->
                       list edge * list edge * Rng;
  applyBatchUpdateU : Graph -> list edge -> list edge -> Graph
}.
Arguments Graph {D} c.
Arguments Rng {D} c.
Arguments empty_graph {D} c.
Arguments graph_order {D} c _.
Arguments graph_size {D} c _.
Arguments graph_vertexKeys {D} c _.
Arguments graph_edges {D} c _ _.
Arguments graph_indegree {D} c _ _.
Arguments graph_degree {D} c _ _.
Arguments readMtxW {D} c _ _ _.
Arguments transpose {D} c _.
Arguments symmetrize {D} c _.
Arguments mt19937_64 {D} c _.
Arguments customUpdate {D} c _ _ _ _ _ _ _.
Arguments uniformUpdate {D} c _ _ _ _ _ _.
Arguments preferentialUpdate {D} c _ _ _ _ _ _.
Arguments applyBatchUpdateU {D} c _ _ _.

(** What a run reads from outside the process. *)
Record Environment : Type := {
  random_device : Z;                   (* rd() *)
  clock : nat -> Z;                    (* the n-th reading of duration(startTime) *)
  input_file : string -> option string;    (* the contents, if it opens *)
  output_creatable : string -> bool    (* whether std::ofstream::open succeeds *)
}.

(** The locals [handleOptions] fills from the option map (lines 266-295),
    each holding the parsed option or, when the option is absent, its
    default.  Options the loop never reads are left out. *)
Record Options (D : Type) : Type := {
  help : bool;
  transforms : list string;
  inputGraph : string;
  inputFormat : string;
  outputDir : string;
  outputPrefix : string;
  batchSize : Z;
  batchSizeRatio : D;
  edgeInsertions : D;
  edgeDeletions : D;
  allowDuplicateEdges : bool;
  probabilityDistribution : string;
  updateNature : string;
  multiBatch : Z;
  seed : option Z
}.
Arguments help {D} o.
Arguments transforms {D} o.
Arguments inputGraph {D} o.
Arguments inputFormat {D} o.
Arguments outputDir {D} o.
Arguments outputPrefix {D} o.
Arguments batchSize {D} o.
Arguments batchSizeRatio {D} o.
Arguments edgeInsertions {D} o.
Arguments edgeDeletions {D} o.
Arguments allowDuplicateEdges {D} o.
Arguments probabilityDistribution {D} o.
Arguments updateNature {D} o.
Arguments multiBatch {D} o.
Arguments seed {D} o.

(** The locals that live across rounds (lines 276, 293, 296, 304, 306) and
    the number of clock readings taken so far. *)
Record RunState {D : Type} (C : Collaborators D) : Type := {
  st_graph : Graph C;
  st_rng : Rng C;
  st_batchSize : Z;
  st_counter : Z;
  st_multiBatch : Z;
  st_ticks : nat
}.
Arguments Build_RunState {D C} _ _ _ _ _ _.
Arguments st_graph {D C} r.
Arguments st_rng {D C} r.
Arguments st_batchSize {D C} r.
Arguments st_counter {D C} r.
Arguments st_multiBatch {D C} r.
Arguments st_ticks {D C} r.

(** ** The pipeline (main.cxx, lines 19-156 and 216-343) *)

Section Pipeline.
Local Open Scope string_scope.
Context {D : Type} `{Double D}.
Variable log : D -> D.
Variable C : Collaborators D.
Variable env : Environment.

Definition checkInputFile (inputGraph : string) : M D unit :=
  match input_file env inputGraph with
  | Some _ => mret tt
  | None => throw (runtime_error ("Input graph file not found: " ++ inputGraph))
  end.

Definition handleInputFormat (inputFormat : string) (graph : Graph C)
    (inputGraph : string) : M D (Graph C) :=
  if String.eqb inputFormat "matrix-market" then
    mret (readMtxW C (input_file env) graph inputGraph)
  else if String.eqb inputFormat "edgelist" then mret graph
  else if String.eqb inputFormat "snap-temporal" then mret graph
  else throw (runtime_error ("Unknown input format: " ++ inputFormat)).

Definition handleInputTransform (inputTransform : string) (graph : Graph C)
    : M D (Graph C) :=
  if String.eqb inputTransform "" then mret graph
  else if String.eqb inputTransform "transpose" then mret (transpose C graph)
  else if String.eqb inputTransform "symmetrize" then mret (symmetrize C graph)
  else if String.eqb inputTransform "unsymmetrize" then mret graph
  else if String.eqb inputTransform "loop-deadends" then mret graph
  else if String.eqb inputTransform "loop-vertices" then mret graph
  else if String.eqb inputTransform "clear-weights" then mret graph
  else if String.eqb inputTransform "set-weights" then mret graph
  else throw (runtime_error ("Unknown input transform: " ++ inputTransform)).

(** The name of the file [createOutputFile] opens. *)
Definition outputFileName (outputDir outputPrefix : string) (counter : Z) : string :=
  outputDir ++ outputPrefix ++ "_" ++ to_string counter.

(** Returns the name of the open stream. *)
Definition createOutputFile (outputDir outputPrefix : string) (counter : Z)
    : M D string :=
  let outputFileName := outputFileName outputDir outputPrefix counter in
  if output_creatable env outputFileName then mret outputFileName
  else throw (runtime_error ("Failed to create file: " ++ outputFileName)).

(** What [writeEdgeList] streams into the file, [weighted] being [true]. *)
Definition writeEdgeList (graph : Graph C) : string :=
  (to_string (graph_order C graph) ++ " " ++ to_string (graph_size C graph) ++ newline)
  ++ String.concat ""
       (flat_map
          (fun u =>
             map (fun vw : Z * Z =>
                    to_string u ++ " " ++ to_string vw.1 ++ " " ++ to_string vw.2
                    ++ newline)
                 (graph_edges C graph u))
          (graph_vertexKeys C graph)).

Definition writeOutput (outputFile : string) (graph : Graph C) : M D unit :=
  emit (OutputWritten outputFile (writeEdgeList graph)).

Definition calculateInDegreeDistribution (graph : Graph C)
    (distribution : gmap Z Z) : gmap Z Z :=
  fold_left
    (fun distribution u =>
       let inDegree := wrap_size_t (graph_indegree C graph u) in
       map_increment inDegree distribution)
    (graph_vertexKeys C graph) distribution.

Definition calculateDegreeDistribution (graph : Graph C) : M D unit :=
  let degreeDistribution :=
    fold_left
      (fun distribution u =>
         let degree := wrap_size_t (graph_degree C graph u) in
         map_increment degree distribution)
      (graph_vertexKeys C graph) ∅ in
  emit (Console (DegreeTable (map_pairs degreeDistribution))).

(** Returns the graph, the generator state and [weights], the three
    arguments passed by reference. *)
Definition handleUpdateNature (probabilityDistribution updateNature : string)
    (graph : Graph C) (rng : Rng C) (batchSize : Z)
    (edgeDeletions edgeInsertions : D) (weights : list D)
    (allowDuplicateEdges : bool) : M D (Graph C * Rng C * list D) :=
  '(weights, insertions, deletions, rng) ←
    (if String.eqb updateNature "" then
       mret (customUpdate C probabilityDistribution rng graph batchSize
               edgeInsertions edgeDeletions allowDuplicateEdges)
     else if String.eqb updateNature "uniform" then
       let '(insertions, deletions, rng) :=
         uniformUpdate C rng graph batchSize edgeInsertions edgeDeletions
           allowDuplicateEdges in
       mret (weights, insertions, deletions, rng)
     else if String.eqb updateNature "preferential" then
       let '(insertions, deletions, rng) :=
         preferentialUpdate C rng graph batchSize edgeInsertions edgeDeletions
           allowDuplicateEdges in
       mret (weights, insertions, deletions, rng)
     else if String.eqb updateNature "planted" then mret (weights, [], [], rng)
     else if String.eqb updateNature "match" then mret (weights, [], [], rng)
     else throw (runtime_error ("Unknown update nature: " ++ updateNature)));
  emit (BatchGenerated updateNature batchSize weights);;
  let graph := applyBatchUpdateU C graph deletions insertions in
  emit (BatchApplied (graph_size C graph));;
  mret (graph, rng, weights).

(** The [try] block of lines 336-341. *)
Definition scoreFidelity (normalised_weights_real normalised_weights_actual : list D)
    : M D unit :=
  let result := KLDivergence log normalised_weights_real normalised_weights_actual in
  emit (FidelityScored normalised_weights_real normalised_weights_actual result);;
  match result with
  | Returned divergence => emit (Console (DivergenceValue divergence))
  | Thrown (invalid_argument what) => emit (Diagnostic ("Error: " ++ what))
  | Thrown e => throw e
  | Undefined => undefined
  | Exhausted => call Exhausted
  end.

(** The body of the [while] loop (lines 308-341).  [batchSize] is an
    [int64_t] handed to a [size_t] parameter; [counter + 1] leaves [int]
    when [counter] is [INT_MAX]. *)
Definition round (o : Options D) (st : RunState C) : M D (RunState C) :=
  let graph := st_graph st in
  (* 308 *)
  batchSize ←
    (if Z.eqb (st_batchSize st) 0 then
       match d_to_int64 (d_of_size_t (graph_size C graph) * batchSizeRatio o)%dbl with
       | Some batchSize => mret batchSize
       | None => undefined
       end
     else mret (st_batchSize st));
  emit (BatchSizeComputed (graph_size C graph) batchSize);;
  (* 309-310 *)
  let weights := [] in
  '(graph, rng, weights) ←
    handleUpdateNature (probabilityDistribution o) (updateNature o) graph
      (st_rng st) (wrap_size_t batchSize) (edgeDeletions o) (edgeInsertions o)
      weights (allowDuplicateEdges o);
  (* 317-320 *)
  normalised_weights_actual ← call (normalize weights);
  let inDegreeDistribution := calculateInDegreeDistribution graph ∅ in
  normalised_weights_real ← call (degreeDistributionToProbability inDegreeDistribution);
  emit (DistributionsAnalyzed weights normalised_weights_actual normalised_weights_real);;
  (* 326-327 *)
  calculateDegreeDistribution graph;;
  (if Z.eqb (st_counter st) INT_MAX then undefined else mret tt);;
  emit (Console (PerformBatchTime (st_counter st + 1) (clock env (st_ticks st))));;
  (* 328-330 *)
  let counter := st_counter st + 1 in
  outputFile ← createOutputFile (outputDir o) (outputPrefix o) counter;
  writeOutput outputFile graph;;
  emit (Console (WriteBatchTime counter (clock env (S (st_ticks st)))));;
  (* 336-341 *)
  scoreFidelity normalised_weights_real normalised_weights_actual;;
  mret (Build_RunState graph rng batchSize counter (st_multiBatch st)
          (S (S (st_ticks st)))).

(** The decrement in the loop condition [multiBatch--]. *)
Definition enter_round (st : RunState C) : RunState C :=
  Build_RunState (st_graph st) (st_rng st) (st_batchSize st) (st_counter st)
    (st_multiBatch st - 1) (st_ticks st).

(** [while (multiBatch--) { ... }]: the loop is left when [multiBatch] is
    zero; decrementing the least [int64_t] is undefined. *)
Fixpoint rounds (fuel : nat) (o : Options D) (st : RunState C) : M D unit :=
  match fuel with
  | O => call Exhausted
  | S fuel' =>
      if Z.eqb (st_multiBatch st) 0 then mret tt
      else if Z.eqb (st_multiBatch st) INT64_MIN then undefined
      else
        st ← round o (enter_round st);
        rounds fuel' o st
  end.

(** The [for] loop over the transforms (lines 300-303); [ticks] counts the
    clock readings. *)
Fixpoint applyTransforms (inputTransform : list string) (graph : Graph C)
    (ticks : nat) : M D (Graph C * nat) :=
  match inputTransform with
  | [] => mret (graph, ticks)
  | name :: rest =>
      graph ← handleInputTransform name graph;
      emit (Console (TransformTime name (clock env ticks)));;
      applyTransforms rest graph (S ticks)
  end.

(** The state in which the loop is entered (lines 304-306). *)
Definition initialState (o : Options D) (graph : Graph C) (ticks : nat)
    : RunState C :=
  let seed := match seed o with Some s => s | None => random_device env end in
  Build_RunState graph (mt19937_64 C seed) (batchSize o) 0 (multiBatch o) ticks.

(** Lines 264-343; [fuel] bounds the number of rounds the model runs. *)
Definition handleOptions (fuel : nat) (o : Options D) : M D unit :=
  if help o then emit (Console HelpMessage)
  else
    let graph := empty_graph C in
    checkInputFile (inputGraph o);;
    graph ← handleInputFormat (inputFormat o) graph (inputGraph o);
    emit (Console (ReadGraphTime (clock env 0)));;
    '(graph, ticks) ← applyTransforms (transforms o) graph 1;
    rounds fuel o (initialState o graph ticks).

End Pipeline.
Arguments enter_round {D C} st.

(** ** A small set of collaborators to run the pipeline on

    A graph on the vertices 0..3 kept as its list of edges; the random
    stream is a counter.  The generators read [edgeInsertions] as a
    fraction of the edges of the graph and insert that many edges,
    whatever the batch size; the custom one reports the weights 1 and 3.
    They stand in for the generators of the headers, which [main.cxx]
    only calls: what is proved of the pipeline is proved for all
    collaborators, and these serve to run it. *)

Module Demo.

Definition graph : Type := list edge.

Definition initial : graph :=
  [(0, 1, 1); (1, 2, 1); (2, 3, 1); (3, 0, 1); (0, 2, 1)].

Definition out_edges (g : graph) (u : Z) : list (Z * Z) :=
  omap (fun e : edge => if e.1.1 =? u then Some (e.1.2, e.2) else None) g.

Definition in_degree (g : graph) (v : Z) : Z :=
  Z.of_nat (length (filter (fun e : edge => e.1.2 = v) g)).

Definition flip_edge (e : edge) : edge := (e.1.2, e.1.1, e.2).

(** The number of edges a generator inserts. *)
Definition insertion_count {D : Type} `{Double D} (g : graph) (edgeInsertions : D)
    : Z :=
  default 0 (d_to_int64 (d_of_size_t (Z.of_nat (length g)) * edgeInsertions)%dbl).

Definition fresh_edges (rng : Z) (count : Z) : list edge :=
  map (fun k => (k mod 4, (k + 1 + rng) mod 4, rng)) (seqZ 0 count).

Definition remove (deletions : list edge) (g : graph) : graph :=
  filter (fun e => e ∉ deletions) g.

Definition collaborators (D : Type) `{Double D} : Collaborators D := {|
  Graph := graph;
  Rng := Z;
  empty_graph := [];
  graph_order := fun _ => 4;
  graph_size := fun g => Z.of_nat (length g);
  graph_vertexKeys := fun _ => [0; 1; 2; 3];
  graph_edges := out_edges;
  graph_indegree := in_degree;
  graph_degree := fun g u => Z.of_nat (length (out_edges g u));
  readMtxW := fun _ _ _ => initial;
  transpose := map flip_edge;
  symmetrize := fun g => g ++ map flip_edge g;
  mt19937_64 := fun seed => seed;
  customUpdate := fun _ rng g _ edgeInsertions _ _ =>
    ([d_one; (d_one + d_one + d_one)%dbl],
     fresh_edges rng (insertion_count g edgeInsertions), [], rng + 1);
  uniformUpdate := fun rng g _ edgeInsertions _ _ =>
    (fresh_edges rng (insertion_count g edgeInsertions), [], rng + 1);
  preferentialUpdate := fun rng g _ edgeInsertions _ _ =>
    (fresh_edges rng (insertion_count g edgeInsertions), [], rng + 1);
  applyBatchUpdateU := fun g deletions insertions => remove deletions g ++ insertions
|}.

(** Every input file opens and every output file can be created. *)
Definition environment : Environment := {|
  random_device := 42;
  clock := fun n => 10 * Z.of_nat n;
  input_file := fun _ => Some ""%string;
  output_creatable := fun _ => true
|}.

(** The same files, another clock and another random device. *)
Definition environment' : Environment := {|
  random_device := 7;
  clock := fun n => 3 + 25 * Z.of_nat n;
  input_file := fun _ => Some ""%string;
  output_creatable := fun _ => true
|}.

Definition options (nature : string) (rounds : Z) (batch : Z) (ratio : float)
    : Options float := {|
  help := false;
  transforms := [];
  inputGraph := "in.mtx"%string;
  inputFormat := "matrix-market"%string;
  outputDir := "out/"%string;
  outputPrefix := "g"%string;
  batchSize := batch;
  batchSizeRatio := ratio;
  edgeInsertions := 1%float;
  edgeDeletions := 0%float;
  allowDuplicateEdges := true;
  probabilityDistribution := ""%string;
  updateNature := nature;
  multiBatch := rounds;
  seed := Some 1
|}.

(** The same options without a seed. *)
Definition unseeded (nature : string) (rounds : Z) (batch : Z) (ratio : float)
    : Options float := {|
  help := false;
  transforms := [];
  inputGraph := "in.mtx"%string;
  inputFormat := "matrix-market"%string;
  outputDir := "out/"%string;
  outputPrefix := "g"%string;
  batchSize := batch;
  batchSizeRatio := ratio;
  edgeInsertions := 1%float;
  edgeDeletions := 0%float;
  allowDuplicateEdges := true;
  probabilityDistribution := ""%string;
  updateNature := nature;
  multiBatch := rounds;
  seed := None
|}.

(** A stand-in for [<cmath>]'s logarithm where a run needs one. *)
Definition log (x : float) : float := (x - 1)%float.

Definition run (nature : string) (rounds : Z) (batch : Z) (ratio : float)
    : M float unit :=
  handleOptions log (collaborators float) environment 10
    (options nature rounds batch ratio).

(** The state in which a run on these collaborators enters the loop. *)
Definition entry (rounds batch : Z) : RunState (collaborators float) :=
  @Build_RunState float (collaborators float) initial 1 batch 0 rounds 1%nat.

End Demo.

(** ** The specification's reading of the divergence (section 4.5) *)

Section DivergenceSpec.
Context {D : Type} `{Double D}.
Variable log : D -> D.

(** The entry at index [i], a missing one taken as [0.0]. *)
Definition entry (V : list D) (i : nat) : D := nth i V d_zero.

(** [P[i] * ln(P[i] / Q[i])] *)
Definition kl_term (p q : D) : D := (p * log (p / q))%dbl.

(** The sum over the indices below [max(len P, len Q)], from index 0 on; an
    index where [P[i]] is zero adds nothing. *)
Definition kl_sum_from (P Q : list D) (indices : list nat) (start : D) : D :=
  fold_left
    (fun acc i =>
       if (entry P i == d_zero)%dbl then acc
       else (acc + kl_term (entry P i) (entry Q i))%dbl)
    indices start.

Definition kl_sum (P Q : list D) : D :=
  kl_sum_from P Q (seq 0 (Nat.max (length P) (length Q))) d_zero.

(** Some index has [P[i]] nonzero and [Q[i]] zero. *)
Definition kl_undefined_at (P Q : list D) (i : nat) : Prop :=
  (entry P i == d_zero)%dbl = false /\ (entry Q i == d_zero)%dbl = true.

Definition kl_undefined (P Q : list D) : Prop :=
  exists i, (i < Nat.max (length P) (length Q))%nat /\ kl_undefined_at P Q i.

End DivergenceSpec.

(** ** The specification's reading of the probability vector (section 4.4) *)

(** The sum of all bucket counts. *)
Definition total_count (distribution : gmap Z Z) : Z :=
  foldr (fun pair total => pair.2 + total) 0 (map_to_list distribution).

(** The distribution {0:2, 1:3, 2:5} of section 8. *)
Definition example_distribution : gmap Z Z := {[0 := 2; 1 := 3; 2 := 5]}.

(** ** Doubles as rationals

    What the tolerance of a sum of doubles is measured with: the rational
    a finite double stands for, and the errors one rounding can make. *)

(** The value of a double given by sign, mantissa and exponent; [0] for
    the zeros and, by convention, for the infinities and NaN. *)
Definition SF2Q (x : spec_float) : Q :=
  match x with
  | S754_finite s m e => (inject_Z (cond_Zopp s (Z.pos m)) * 2 ^ e)%Q
  | _ => 0%Q
  end.

Definition F2Q (x : float) : Q := SF2Q (Prim2SF x).

(** The doubles that are finite and not negative, the two zeros included. *)
Definition nonneg_finite (x : spec_float) : Prop :=
  match x with
  | S754_zero _ | S754_finite false _ _ => True
  | _ => False
  end.

(** A bound on the relative error of one rounding, [2^-52], and on the
    absolute error of a rounding that underflows, [2^-1074]. *)
Definition eps : Q := 1 # 4503599627370496.
Definition eta : Q := (2 ^ (-1074))%Q.

(** The exact sum of a list of rationals. *)
Definition Qsum (l : list Q) : Q := fold_right Qplus 0%Q l.

(** ** The specification's reading of rounds and runs (sections 4.7, 7) *)

Section RoundSpec.
Context {D : Type} `{Double D}.
Variable log : D -> D.
Variable C : Collaborators D.
Variable env : Environment.

(** The batch size a round works with (line 308). *)
Definition effective_batchSize (o : Options D) (st : RunState C) : option Z :=
  if st_batchSize st =? 0 then
    d_to_int64 (d_of_size_t (graph_size C (st_graph st)) * batchSizeRatio o)%dbl
  else Some (st_batchSize st).

(** The lines a successful scoring or a caught failure leaves behind. *)
Inductive scored : outcome D -> list (event D) -> Prop :=
| scored_value (divergence : D) :
    scored (Returned divergence) [Console (DivergenceValue divergence)]
| scored_error (what : string) :
    scored (Thrown (invalid_argument what))
           [Diagnostic ("Error: " ++ what)%string].

(** The five ways a round can end. *)
Inductive round_result (o : Options D) (st : RunState C)
  : M D (RunState C) -> Prop :=
| round_undefined_batchSize :
    effective_batchSize o st = None ->
    round_result o st ([], Undefined)
| round_unknown_nature (batchSize : Z) (what : string) :
    effective_batchSize o st = Some batchSize ->
    handleUpdateNature C (probabilityDistribution o) (updateNature o)
      (st_graph st) (st_rng st) (wrap_size_t batchSize) (edgeDeletions o)
      (edgeInsertions o) [] (allowDuplicateEdges o)
    = ([], Thrown (runtime_error what)) ->
    round_result o st
      ([BatchSizeComputed (graph_size C (st_graph st)) batchSize],
       Thrown (runtime_error what))
| round_counter_overflow (batchSize : Z) (graph : Graph C) (rng : Rng C)
    (weights actual real : list D) :
    effective_batchSize o st = Some batchSize ->
    handleUpdateNature C (probabilityDistribution o) (updateNature o)
      (st_graph st) (st_rng st) (wrap_size_t batchSize) (edgeDeletions o)
      (edgeInsertions o) [] (allowDuplicateEdges o)
    = ([BatchGenerated (updateNature o) (wrap_size_t batchSize) weights;
        BatchApplied (graph_size C graph)],
       Returned (graph, rng, weights)) ->
    normalize weights = Returned actual ->
    degreeDistributionToProbability (calculateInDegreeDistribution C graph ∅)
    = Returned real ->
    st_counter st = INT_MAX ->
    round_result o st
      ([BatchSizeComputed (graph_size C (st_graph st)) batchSize;
        BatchGenerated (updateNature o) (wrap_size_t batchSize) weights;
        BatchApplied (graph_size C graph);
        DistributionsAnalyzed weights actual real]
       ++ fst (calculateDegreeDistribution C graph),
       Undefined)
| round_file_failure (batchSize : Z) (graph : Graph C) (rng : Rng C)
    (weights actual real : list D) :
    effective_batchSize o st = Some batchSize ->
    handleUpdateNature C (probabilityDistribution o) (updateNature o)
      (st_graph st) (st_rng st) (wrap_size_t batchSize) (edgeDeletions o)
      (edgeInsertions o) [] (allowDuplicateEdges o)
    = ([BatchGenerated (updateNature o) (wrap_size_t batchSize) weights;
        BatchApplied (graph_size C graph)],
       Returned (graph, rng, weights)) ->
    normalize weights = Returned actual ->
    degreeDistributionToProbability (calculateInDegreeDistribution C graph ∅)
    = Returned real ->
    st_counter st <> INT_MAX ->
    output_creatable env
      (outputFileName (outputDir o) (outputPrefix o) (st_counter st + 1)) = false ->
    round_result o st
      ([BatchSizeComputed (graph_size C (st_graph st)) batchSize;
        BatchGenerated (updateNature o) (wrap_size_t batchSize) weights;
        BatchApplied (graph_size C graph);
        DistributionsAnalyzed weights actual real]
       ++ fst (calculateDegreeDistribution C graph)
       ++ [Console (PerformBatchTime (st_counter st + 1) (clock env (st_ticks st)))],
       Thrown (runtime_error
                 ("Failed to create file: "
                  ++ outputFileName (outputDir o) (outputPrefix o)
                       (st_counter st + 1))%string))
| round_completed (batchSize : Z) (graph : Graph C) (rng : Rng C)
    (weights actual real : list D) (report : list (event D)) :
    effective_batchSize o st = Some batchSize ->
    handleUpdateNature C (probabilityDistribution o) (updateNature o)
      (st_graph st) (st_rng st) (wrap_size_t batchSize) (edgeDeletions o)
      (edgeInsertions o) [] (allowDuplicateEdges o)
    = ([BatchGenerated (updateNature o) (wrap_size_t batchSize) weights;
        BatchApplied (graph_size C graph)],
       Returned (graph, rng, weights)) ->
    normalize weights = Returned actual ->
    degreeDistributionToProbability (calculateInDegreeDistribution C graph ∅)
    = Returned real ->
    st_counter st <> INT_MAX ->
    output_creatable env
      (outputFileName (outputDir o) (outputPrefix o) (st_counter st + 1)) = true ->
    scored (KLDivergence log real actual) report ->
    round_result o st
      ([BatchSizeComputed (graph_size C (st_graph st)) batchSize;
        BatchGenerated (updateNature o) (wrap_size_t batchSize) weights;
        BatchApplied (graph_size C graph);
        DistributionsAnalyzed weights actual real]
       ++ fst (calculateDegreeDistribution C graph)
       ++ [Console (PerformBatchTime (st_counter st + 1) (clock env (st_ticks st)));
           OutputWritten
             (outputFileName (outputDir o) (outputPrefix o) (st_counter st + 1))
             (writeEdgeList C graph);
           Console (WriteBatchTime (st_counter st + 1)
                      (clock env (S (st_ticks st))));
           FidelityScored real actual (KLDivergence log real actual)]
       ++ report,
       Returned (Build_RunState graph rng batchSize (st_counter st + 1)
                   (st_multiBatch st) (S (S (st_ticks st))))).

End RoundSpec.

(** Traces made of console lines only. *)
Definition quiet {D : Type} (t : list (event D)) : Prop :=
  Forall (fun e => exists line, e = Console line) t.

(** The stages of a round that runs to its end, in the order of the code. *)
Definition round_stages : list stage :=
  [ComputeBatchSize; GenerateBatch; ApplyBatch; AnalyzeDistributions;
   WriteOutput; ScoreFidelity].

(** The order the specification gives (section 4.7). *)
Definition specified_stages : list stage :=
  [ComputeBatchSize; GenerateBatch; ApplyBatch; AnalyzeDistributions;
   ScoreFidelity; WriteOutput].

Section LoopSpec.
Context {D : Type} `{Double D}.
Variable log : D -> D.
Variable C : Collaborators D.
Variable env : Environment.

(** A loop that runs to its end: the rounds it went through. *)
Inductive completed (o : Options D) : RunState C -> list (event D) -> Prop :=
| completed_done (st : RunState C) :
    st_multiBatch st = 0 -> completed o st []
| completed_round (st st' : RunState C) (t t' : list (event D)) :
    st_multiBatch st <> 0 ->
    st_multiBatch st <> INT64_MIN ->
    round log C env o (enter_round st) = (t, Returned st') ->
    completed o st' t' ->
    completed o st (t ++ t').

End LoopSpec.


(** The batch sizes a run may compute, given the size the loop is entered
    with: a nonzero size is kept; a zero one is replaced by the conversion
    of edge count times ratio. *)
Fixpoint sticky {D : Type} `{Double D} (ratio : D) (current : Z)
    (records : list (Z * Z)) : Prop :=
  match records with
  | [] => True
  | (edges, batchSize) :: rest =>
      (if current =? 0
       then d_to_int64 (d_of_size_t edges * ratio)%dbl = Some batchSize
       else batchSize = current)
      /\ sticky ratio batchSize rest
  end.

(** A trace with the clock readings blanked. *)
Definition blank_line {D : Type} (line : console D) : console D :=
  match line with
  | ReadGraphTime _ => ReadGraphTime 0
  | TransformTime name _ => TransformTime name 0
  | PerformBatchTime k _ => PerformBatchTime k 0
  | WriteBatchTime k _ => WriteBatchTime k 0
  | line => line
  end.

Definition blank {D : Type} (e : event D) : event D :=
  match e with
  | Console line => Console (blank_line line)
  | e => e
  end.

(** Two computations that differ in the clock readings they print only. *)
Definition agree {D A : Type} (m m' : M D A) : Prop :=
  blank <$> m.1 = blank <$> m'.1 /\ m.2 = m'.2.


(** The names the dispatch of [handleUpdateNature] knows besides the empty
    one. *)
Definition named_natures : list string :=
  ["uniform"; "preferential"; "planted"; "match"]%string.


(** ** The option map (main.cxx, lines 266-295 and 355-359) *)

(** What [handleOptions] reads of the record [readOptions] hands it: the
    map [options.params] and the list [options.transforms]. *)
Record OptionMap : Type := {
  params : gmap string string;
  given_transforms : list string
}.

(** How a call on the option map ends: a conversion of [std::stoll] or
    [std::stod] threw on the text of an option, or the call went on to the
    pipeline and ended as that did. *)
Inductive ending (A : Type) : Type :=
| ConversionFailed (name text : string)
| Ended (r : outcome A).
Arguments ConversionFailed {A} name text.
Arguments Ended {A} r.

(** The value an option converts to, or the name and the text of the
    option on which [std::stoll] or [std::stod] threw. *)
Definition conversion (A : Type) : Type := string * string + A.

#[global] Instance conversion_bind : MBind conversion :=
  fun A B f m =>
    match m with
    | inl failure => inl failure
    | inr a => f a
    end.

Section OptionMaps.
Local Open Scope string_scope.
Context {D : Type} `{Double D}.

(** [std::stoll] and [std::stod]: the value converted, or [None] where
    the conversion throws. *)
Variable stoll : string -> option Z.
Variable stod : string -> option D.

(** [params.count(name) ? params.at(name) : ""] *)
Definition param_string (m : OptionMap) (name : string) : string :=
  default "" (params m !! name).

(** [params.count(name)] as a condition. *)
Definition param_given (m : OptionMap) (name : string) : bool :=
  bool_decide (is_Some (params m !! name)).

(** [params.count(name) ? stoll(params.at(name)) : fallback] *)
Definition param_stoll (m : OptionMap) (name : string) (fallback : Z)
    : conversion Z :=
  match params m !! name with
  | Some text =>
      match stoll text with
      | Some value => inr value
      | None => inl (name, text)
      end
  | None => inr fallback
  end.

(** [params.count(name) ? stod(params.at(name)) : 0.0] *)
Definition param_stod (m : OptionMap) (name : string) : conversion D :=
  match params m !! name with
  | Some text =>
      match stod text with
      | Some value => inr value
      | None => inl (name, text)
      end
  | None => inr d_zero
  end.

(** [params.count("seed") ? stoll(params.at("seed")) : rd()], the reading
    of the random device being left to [initialState]. *)
Definition param_seed (m : OptionMap) : conversion (option Z) :=
  match params m !! "seed" with
  | Some text =>
      match stoll text with
      | Some value => inr (Some value)
      | None => inl ("seed", text)
      end
  | None => inr None
  end.

(** The declarations of lines 270-295, in their order; the first
    conversion that throws ends them. *)
Definition readLocals (m : OptionMap) : conversion (Options D) :=
  let inputTransform := given_transforms m in
  let inputGraph := param_string m "input-graph" in
  let inputFormat := param_string m "input-format" in
  let outputDir := param_string m "output-dir" in
  let outputPrefix := param_string m "output-prefix" in
  let outputFormat := default "edgelist" (params m !! "output-format") in
  batchSize ← param_stoll m "batch-size" 0;
  batchSizeRatio ← param_stod m "batch-size-ratio";
  edgeInsertions ← param_stod m "edge-insertions";
  edgeDeletions ← param_stod m "edge-deletions";
  let allowDuplicateEdges := param_given m "allow-duplicate-edges" in
  vertexInsertions ← param_stod m "vertex-insertions";
  vertexDeletions ← param_stod m "vertex-deletions";
  vertexGrowthRate ← param_stod m "vertex-growth-rate";
  let allowDuplicateVertices := param_given m "allow-duplicate-vertices" in
  let probabilityDistribution := param_string m "probability-distribution" in
  let updateNature := param_string m "update-nature" in
  minDegree ← param_stoll m "min-degree" 0;
  maxDegree ← param_stoll m "max-degree" 0;
  maxDiameter ← param_stoll m "max-diameter" 0;
  let preserveDegreeDistribution := param_given m "preserve-degree-distribution" in
  let preserveCommunities := param_given m "preserve-communities" in
  preserveKCore ← param_stoll m "preserve-k-core" 0;
  multiBatch ← param_stoll m "multi-batch" 1;
  seed ← param_seed m;
  inr {| help := false;
         transforms := inputTransform;
         inputGraph := inputGraph;
         inputFormat := inputFormat;
         outputDir := outputDir;
         outputPrefix := outputPrefix;
         batchSize := batchSize;
         batchSizeRatio := batchSizeRatio;
         edgeInsertions := edgeInsertions;
         edgeDeletions := edgeDeletions;
         allowDuplicateEdges := allowDuplicateEdges;
         probabilityDistribution := probabilityDistribution;
         updateNature := updateNature;
         multiBatch := multiBatch;
         seed := seed |}.

Variable log : D -> D.
Variable C : Collaborators D.
Variable env : Environment.

(** [handleOptions] on the option map (lines 264-343): the request for
    help is looked at first, the locals are filled next, and the pipeline
    runs on them. *)
Definition handleOptionMap (fuel : nat) (m : OptionMap)
    : list (event D) * ending unit :=
  if param_given m "help" then ([Console HelpMessage], Ended (Returned tt))
  else
    match readLocals m with
    | inl (name, text) => ([], ConversionFailed name text)
    | inr o =>
        let '(t, r) := handleOptions log C env fuel o in
        (t, Ended r)
    end.

(** [main] (lines 355-359): [handleOptions(o); return 0;]. *)
Definition main (readOptions : list string -> OptionMap) (fuel : nat)
    (argv : list string) : list (event D) * ending Z :=
  let o := readOptions argv in
  match handleOptionMap fuel o with
  | (t, Ended (Returned _)) => (t, Ended (Returned 0))
  | (t, Ended (Thrown e)) => (t, Ended (Thrown e))
  | (t, Ended Undefined) => (t, Ended Undefined)
  | (t, Ended Exhausted) => (t, Ended Exhausted)
  | (t, ConversionFailed name text) => (t, ConversionFailed name text)
  end.

End OptionMaps.

(** ** Readings of the code the further properties are stated with *)

(** The number of vertices of [us] that [f] sends to the bucket [k]. *)
Definition occurrences (f : Z -> Z) (us : list Z) (k : Z) : Z :=
  Z.of_nat (length (filter (fun u => wrap_size_t (f u) = k) us)).

(** The formats the dispatch of [handleInputFormat] knows. *)
Definition known_formats : list string :=
  ["matrix-market"; "edgelist"; "snap-temporal"]%string.

(** The transforms the dispatch of [handleInputTransform] knows: the two it
    applies and the six it accepts and leaves the graph as it is for. *)
Definition applied_transforms : list string := ["transpose"; "symmetrize"]%string.

Definition ignored_transforms : list string :=
  [""; "unsymmetrize"; "loop-deadends"; "loop-vertices"; "clear-weights";
   "set-weights"]%string.

(** The graph after the transforms of a list, the ignored ones left out. *)
Definition transformed {D : Type} (C : Collaborators D) (names : list string)
    (graph : Graph C) : Graph C :=
  fold_left
    (fun graph name =>
       if String.eqb name "transpose" then transpose C graph
       else if String.eqb name "symmetrize" then symmetrize C graph
       else graph)
    names graph.

(** The timing lines of the transforms of a list, the first one printed at
    the clock reading [ticks]. *)
Fixpoint transform_lines {D : Type} (env : Environment) (names : list string)
    (ticks : nat) : list (event D) :=
  match names with
  | [] => []
  | name :: rest =>
      Console (TransformTime name (clock env ticks))
      :: transform_lines env rest (S ticks)
  end.

(** The graph the loop is entered with (lines 296-303): the one
    [handleInputFormat] leaves, read from the file under the format
    matrix-market and empty under the two others, with the transforms
    applied in the order given. *)
Definition entry_graph {D : Type} (C : Collaborators D) (env : Environment)
    (o : Options D) : Graph C :=
  transformed C (transforms o)
    (if String.eqb (inputFormat o) "matrix-market"
     then readMtxW C (input_file env) (empty_graph C) (inputGraph o)
     else empty_graph C).

(** The edges [writeEdgeList] visits, in the order it visits them. *)
Definition written_edges {D : Type} (C : Collaborators D) (graph : Graph C)
    : list edge :=
  flat_map (fun u => map (fun vw : Z * Z => (u, vw.1, vw.2)) (graph_edges C graph u))
           (graph_vertexKeys C graph).

(** The line of an edge. *)
Definition edge_line (e : edge) : string :=
  (to_string e.1.1 ++ " " ++ to_string e.1.2 ++ " " ++ to_string e.2 ++ newline)%string.

(** A string in which the character [c] does not occur. *)
Fixpoint free_of (c : ascii) (s : string) : Prop :=
  match s with
  | EmptyString => True
  | String a rest => a <> c /\ free_of c rest
  end.

(** The options with another batch size ratio. *)
Definition with_batchSizeRatio {D : Type} (o : Options D) (ratio : D) : Options D := {|
  help := help o;
  transforms := transforms o;
  inputGraph := inputGraph o;
  inputFormat := inputFormat o;
  outputDir := outputDir o;
  outputPrefix := outputPrefix o;
  batchSize := batchSize o;
  batchSizeRatio := ratio;
  edgeInsertions := edgeInsertions o;
  edgeDeletions := edgeDeletions o;
  allowDuplicateEdges := allowDuplicateEdges o;
  probabilityDistribution := probabilityDistribution o;
  updateNature := updateNature o;
  multiBatch := multiBatch o;
  seed := seed o
|}.

(** The options with another probability distribution. *)
Definition with_probabilityDistribution {D : Type} (o : Options D)
    (distribution : string) : Options D := {|
  help := help o;
  transforms := transforms o;
  inputGraph := inputGraph o;
  inputFormat := inputFormat o;
  outputDir := outputDir o;
  outputPrefix := outputPrefix o;
  batchSize := batchSize o;
  batchSizeRatio := batchSizeRatio o;
  edgeInsertions := edgeInsertions o;
  edgeDeletions := edgeDeletions o;
  allowDuplicateEdges := allowDuplicateEdges o;
  probabilityDistribution := distribution;
  updateNature := updateNature o;
  multiBatch := multiBatch o;
  seed := seed o
|}.

(** The edge count reported after a batch was applied. *)
Definition applied_size {D : Type} (e : event D) : option Z :=
  match e with
  | BatchApplied edges => Some edges
  | _ => None
  end.

(** Graphs of which each is the one before it with one batch applied. *)
Inductive chain {D : Type} (C : Collaborators D) : Graph C -> list (Graph C) -> Prop :=
| chain_end (graph : Graph C) : chain C graph []
| chain_batch (graph : Graph C) (deletions insertions : list edge)
    (rest : list (Graph C)) :
    chain C (applyBatchUpdateU C graph deletions insertions) rest ->
    chain C graph (applyBatchUpdateU C graph deletions insertions :: rest).

(** The options whose text is converted, in the order of the source, with
    the conversion ([true]: [std::stoll], [false]: [std::stod]). *)
Definition converted_options : list (string * bool) :=
  [("batch-size", true); ("batch-size-ratio", false); ("edge-insertions", false);
   ("edge-deletions", false); ("vertex-insertions", false);
   ("vertex-deletions", false); ("vertex-growth-rate", false);
   ("min-degree", true); ("max-degree", true); ("max-diameter", true);
   ("preserve-k-core", true); ("multi-batch", true); ("seed", true)]%string.

(** The options that are converted and never read afterwards. *)
Definition unread_conversions : list string :=
  ["vertex-insertions"; "vertex-deletions"; "vertex-growth-rate"; "min-degree";
   "max-degree"; "max-diameter"; "preserve-k-core"]%string.

(** The keys whose presence or text has an effect on a run. *)
Definition read_keys : list string :=
  ["help"; "input-graph"; "input-format"; "output-dir"; "output-prefix";
   "batch-size"; "batch-size-ratio"; "edge-insertions"; "edge-deletions";
   "allow-duplicate-edges"; "vertex-insertions"; "vertex-deletions";
   "vertex-growth-rate"; "probability-distribution"; "update-nature";
   "min-degree"; "max-degree"; "max-diameter"; "preserve-k-core"; "multi-batch";
   "seed"]%string.

(** The option map with one more or one changed entry. *)
Definition set_param (m : OptionMap) (key value : string) : OptionMap := {|
  params := <[key := value]> (params m);
  given_transforms := given_transforms m
|}.

Section ConversionSpec.
Context {D : Type}.
Variable stoll : string -> option Z.
Variable stod : string -> option D.

(** Whether the text converts. *)
Definition converts (kind : bool) (text : string) : bool :=
  if kind then bool_decide (is_Some (stoll text))
  else bool_decide (is_Some (stod text)).

(** The option, if it is given and its text does not convert. *)
Definition failure (m : OptionMap) (converted : string * bool)
    : option (string * string) :=
  match params m !! converted.1 with
  | Some text => if converts converted.2 text then None else Some (converted.1, text)
  | None => None
  end.

(** The first option, in the order of the source, whose text does not
    convert. *)
Definition first_failure (m : OptionMap) : option (string * string) :=
  head (omap (failure m) converted_options).

End ConversionSpec.

(** ** Further inputs to run the pipeline on *)

Module Cases.

(** The environment of [Demo] with no input file that opens. *)
Definition no_files : Environment := {|
  random_device := 42;
  clock := fun n => 10 * Z.of_nat n;
  input_file := fun _ => None;
  output_creatable := fun _ => true
|}.

(** The environment of [Demo] with other contents in the input files. *)
Definition other_contents : Environment := {|
  random_device := 42;
  clock := fun n => 10 * Z.of_nat n;
  input_file := fun _ => Some "4 4 5"%string;
  output_creatable := fun _ => true
|}.

(** Two rounds of three uniform updates each, on a graph read in the given
    format and put through the given transforms. *)
Definition options (format : string) (names : list string) : Options float := {|
  help := false;
  transforms := names;
  inputGraph := "in.mtx"%string;
  inputFormat := format;
  outputDir := "out/"%string;
  outputPrefix := "g"%string;
  batchSize := 3;
  batchSizeRatio := 0.1%float;
  edgeInsertions := 1%float;
  edgeDeletions := 0%float;
  allowDuplicateEdges := true;
  probabilityDistribution := ""%string;
  updateNature := "uniform"%string;
  multiBatch := 2;
  seed := Some 1
|}.

(** The edges of [Demo.initial] in another order that keeps, for every
    vertex, the order of its edges. *)
Definition reordered : Demo.graph :=
  [(1, 2, 1); (0, 1, 1); (2, 3, 1); (0, 2, 1); (3, 0, 1)].

(** Conversions of plain decimal integers, standing in for [std::stoll]
    and [std::stod], which accept more (a fraction, an exponent, text
    after the number). *)
Definition stoll (text : string) : option Z :=
  Z.of_int <$> NilZero.int_of_string text.

Definition stod (text : string) : option float := IEEE.of_Z <$> stoll text.

(** An option map that names the input and nothing else. *)
Definition input_only : OptionMap := {|
  params := {["input-graph"%string := "in.mtx"%string;
              "input-format"%string := "matrix-market"%string]};
  given_transforms := []
|}.

End Cases.

(** * Properties *)

(** ** IEEE doubles: multiplying by [1.0] changes nothing *)

Lemma digits2_pos_shift52 (m : positive) :
  Z.pos (digits2_pos (4503599627370496 * m)) = Z.pos (digits2_pos m) + 52.
Proof.
  cbv beta iota delta [Pos.mul]. cbn [digits2_pos].
  repeat rewrite Pos2Z.inj_succ. lia.
Qed.

Lemma shr_1_iter52 (m : positive) :
  SpecFloat.iter_pos shr_1 52
    {| shr_m := Z.pos (4503599627370496 * m); shr_r := false; shr_s := false |}
  = {| shr_m := Z.pos m; shr_r := false; shr_s := false |}.
Proof. reflexivity. Qed.

Lemma SF64mul_one_r (s : spec_float) :
  valid_binary s = true -> SF64mul s (Prim2SF 1%float) = s.
Proof.
  intros Hvalid.
  change (Prim2SF 1%float) with (S754_finite false 4503599627370496 (-52)).
  destruct s as [b | b | | b m e]; unfold SF64mul, SFmul;
    rewrite ?xorb_false_r; try reflexivity.
  unfold valid_binary, bounded, canonical_mantissa in Hvalid.
  apply andb_true_iff in Hvalid as [Hcanon Hemax].
  apply Z.eqb_eq in Hcanon.
  rewrite Pos.mul_comm.
  unfold binary_round_aux, shr_fexp, Zdigits2.
  rewrite digits2_pos_shift52.
  replace (Z.pos (digits2_pos m) + 52 + (e + -52))
    with (Z.pos (digits2_pos m) + e) by lia.
  rewrite Hcanon.
  replace (e - (e + -52)) with 52 by lia.
  unfold shr_record_of_loc, shr.
  rewrite shr_1_iter52.
  cbn [shr_m loc_of_shr_record round_nearest_even Zdigits2].
  replace (e + -52 + 52) with e by lia.
  rewrite Hcanon, Z.sub_diag.
  cbn [shr_m].
  now rewrite Hemax.
Qed.

Lemma float_mul_one_r (x : float) : (x * 1)%float = x.
Proof.
  apply Prim2SF_inj. rewrite mul_spec.
  apply SF64mul_one_r, Prim2SF_valid.
Qed.

(** ** [KLDivergence] *)

Section KLDivergenceFacts.
Context {D : Type} `{Double D}.
Variable log : D -> D.
Hypothesis mul_one_r : forall x : D, (x * d_one)%dbl = x.

Lemma entry_guarded (V : list D) (i : nat) :
  (if (i <? length V)%nat then nth i V d_zero else d_zero) = entry V i.
Proof.
  unfold entry. destruct (Nat.ltb_spec i (length V)) as [Hlt | Hge]; [reflexivity|].
  now rewrite nth_overflow.
Qed.

(** The loop throws as soon as an index of the remaining range is
    undefined, and otherwise returns the sum over that range. *)
Lemma KLDivergence_loop_throws (P Q : list D) (n i : nat) (divergence : D) :
  (exists j, (i <= j < i + n)%nat /\ kl_undefined_at P Q j) ->
  KLDivergence_loop log P Q n i divergence
  = Thrown (invalid_argument "Q[i] must be non-zero where P[i] is non-zero.").
Proof.
  revert i divergence.
  induction n as [| n IH]; intros i divergence [j [Hrange Hbad]]; [lia|].
  cbn [KLDivergence_loop]. rewrite !entry_guarded.
  destruct (entry P i == d_zero)%dbl eqn:Hp; cbn [negb].
  - apply IH. exists j. split; [|exact Hbad].
    assert (j <> i) by (intros ->; destruct Hbad; congruence). lia.
  - destruct (entry Q i == d_zero)%dbl eqn:Hq; [reflexivity|].
    apply IH. exists j. split; [|exact Hbad].
    assert (j <> i) by (intros ->; destruct Hbad; congruence). lia.
Qed.

Lemma KLDivergence_loop_returns (P Q : list D) (n i : nat) (divergence : D) :
  (forall j, (i <= j < i + n)%nat -> ~ kl_undefined_at P Q j) ->
  KLDivergence_loop log P Q n i divergence
  = Returned (kl_sum_from log P Q (seq i n) divergence).
Proof.
  revert i divergence.
  induction n as [| n IH]; intros i divergence Hgood; [reflexivity|].
  cbn [KLDivergence_loop seq kl_sum_from fold_left]. rewrite !entry_guarded.
  assert (Hrest : forall j, (S i <= j < S i + n)%nat -> ~ kl_undefined_at P Q j)
    by (intros j Hj; apply Hgood; lia).
  destruct (entry P i == d_zero)%dbl eqn:Hp; cbn [negb].
  - now apply IH.
  - destruct (entry Q i == d_zero)%dbl eqn:Hq.
    + exfalso. apply (Hgood i); [lia|]. now split.
    + rewrite mul_one_r. now apply IH.
Qed.

Lemma kl_undefined_dec (P Q : list D) : kl_undefined P Q \/ ~ kl_undefined P Q.
Proof.
  unfold kl_undefined.
  induction (Nat.max (length P) (length Q)) as [| n IH].
  - right. intros [i [Hi _]]. lia.
  - destruct IH as [[i [Hi Hbad]] | Hnone].
    + left. exists i. split; [lia | exact Hbad].
    + destruct (entry P n == d_zero)%dbl eqn:Hp.
      * right. intros [i [Hi Hbad]].
        destruct (decide (i = n)) as [-> | Hne].
        -- destruct Hbad. congruence.
        -- apply Hnone. exists i. split; [lia | exact Hbad].
      * destruct (entry Q n == d_zero)%dbl eqn:Hq.
        -- left. exists n. split; [lia | now split].
        -- right. intros [i [Hi Hbad]].
           destruct (decide (i = n)) as [-> | Hne].
           ++ destruct Hbad. congruence.
           ++ apply Hnone. exists i. split; [lia | exact Hbad].
Qed.

Lemma KLDivergence_correct (P Q : list D) :
  (kl_undefined P Q <-> exists e, KLDivergence log P Q = Thrown e)
  /\ (kl_undefined P Q ->
      KLDivergence log P Q
      = Thrown (invalid_argument "Q[i] must be non-zero where P[i] is non-zero."))
  /\ (~ kl_undefined P Q -> KLDivergence log P Q = Returned (kl_sum log P Q)).
Proof.
  assert (Hthrows : kl_undefined P Q ->
      KLDivergence log P Q
      = Thrown (invalid_argument "Q[i] must be non-zero where P[i] is non-zero.")).
  { intros [i [Hi Hbad]]. apply KLDivergence_loop_throws.
    exists i. split; [lia | exact Hbad]. }
  assert (Hreturns : ~ kl_undefined P Q ->
      KLDivergence log P Q = Returned (kl_sum log P Q)).
  { intros Hnone. apply KLDivergence_loop_returns.
    intros j Hj Hbad. apply Hnone. exists j. split; [lia | exact Hbad]. }
  repeat split; try assumption.
  - intros Hbad. eexists. now apply Hthrows.
  - intros [e He]. destruct (kl_undefined_dec P Q) as [Hbad | Hnone]; [exact Hbad|].
    rewrite (Hreturns Hnone) in He. discriminate.
Qed.

End KLDivergenceFacts.

(** ** Exact arithmetic on the rationals *)

Lemma Qc_eq_bool_refl (x : Qc) : Qc_eq_bool x x = true.
Proof. unfold Qc_eq_bool. destruct (Qcanon.Qc_eq_dec x x) as [_ | Hne]; [reflexivity | now destruct Hne]. Qed.

#[global] Instance exact_Qc : ExactDouble Qc.
Proof.
  split; cbn [d_eqb d_div d_add d_zero d_one d_of_size_t Exact.double].
  - intros x y. split; [apply Qc_eq_bool_correct | intros ->; apply Qc_eq_bool_refl].
  - intros s. unfold Qcdiv. ring.
  - intros x y s. unfold Qcdiv. ring.
  - intros s Hs. unfold Qcdiv. now apply Qcmult_inv_r.
  - reflexivity.
  - intros a b _ _. unfold Qcplus. apply Q2Qc_eq_iff.
    rewrite inject_Z_plus. cbn [this Q2Qc]. now rewrite !Qred_correct.
  - intros a Ha. apply Q2Qc_eq_iff in Ha. 
    apply inject_Z_injective. exact Ha.
Qed.

Section NormalizeFacts.
Context {D : Type} `{Double D}.

Lemma normalize_returns (values : list D) :
  normalize values = Returned (map (fun value => (value / d_sum values)%dbl) values).
Proof. reflexivity. Qed.

End NormalizeFacts.

Lemma float_eqb_zero (z : float) :
  (z =? 0)%float = true -> exists s, Prim2SF z = S754_zero s.
Proof.
  rewrite FloatAxioms.eqb_spec.
  change (Prim2SF 0%float) with (S754_zero false).
  destruct (Prim2SF z) as [s | s | | s m e]; cbn; try discriminate.
  - intros _. now exists s.
  - destruct s; discriminate.
  - destruct s; discriminate.
Qed.

Lemma float_is_nan (x : float) : Prim2SF x = S754_nan -> is_nan x = true.
Proof.
  intros Hx. unfold is_nan. rewrite FloatAxioms.eqb_spec, Hx. reflexivity.
Qed.

Lemma float_is_infinity (x : float) (s : bool) :
  Prim2SF x = S754_infinity s -> is_infinity x = true.
Proof.
  intros Hx. unfold is_infinity. rewrite FloatAxioms.eqb_spec, abs_spec, Hx. reflexivity.
Qed.

Lemma float_div_zero (x z : float) :
  (z =? 0)%float = true -> is_nan (x / z) = true \/ is_infinity (x / z) = true.
Proof.
  intros Hz. apply float_eqb_zero in Hz as [s Hs].
  assert (Hdiv := div_spec x z). rewrite Hs in Hdiv.
  destruct (Prim2SF x) as [sx | sx | | sx mx ex]; cbn in Hdiv.
  - left. now apply float_is_nan.
  - right. now apply float_is_infinity in Hdiv.
  - left. now apply float_is_nan.
  - right. now apply float_is_infinity in Hdiv.
Qed.

Section MapFacts.

Lemma map_pairs_Permutation (distribution : gmap Z Z) :
  map_pairs distribution ≡ₚ map_to_list distribution.
Proof. apply merge_sort_Permutation. Qed.

Lemma map_pairs_length (distribution : gmap Z Z) :
  length (map_pairs distribution) = size distribution.
Proof. now rewrite map_pairs_Permutation, length_map_to_list. Qed.

Lemma map_pairs_lookup (distribution : gmap Z Z) (key count : Z) :
  (key, count) ∈ map_pairs distribution <-> distribution !! key = Some count.
Proof. now rewrite map_pairs_Permutation, elem_of_map_to_list. Qed.

Lemma strictly_ascending (pairs : list (Z * Z)) :
  StronglySorted key_le pairs -> NoDup pairs.*1 -> StronglySorted Z.lt pairs.*1.
Proof.
  induction 1 as [| pair pairs Hsorted IH Hhead]; intros Hnodup; cbn.
  - constructor.
  - apply NoDup_cons in Hnodup as [Hfresh Hnodup].
    constructor; [now apply IH|].
    apply Forall_fmap, Forall_forall. intros other Hin. cbn.
    rewrite Forall_forall in Hhead. specialize (Hhead other Hin).
    unfold key_le in Hhead.
    assert (pair.1 <> other.1).
    { intros Heq. apply Hfresh. rewrite Heq. now apply list_elem_of_fmap_2. }
    lia.
Qed.

Lemma map_pairs_ascending (distribution : gmap Z Z) :
  StronglySorted Z.lt (map_pairs distribution).*1.
Proof.
  apply strictly_ascending.
  - apply StronglySorted_merge_sort; apply _.
  - rewrite map_pairs_Permutation. apply NoDup_fst_map_to_list.
Qed.

Lemma count_sum_Permutation (l l' : list (Z * Z)) :
  l ≡ₚ l' ->
  foldr (fun pair total => pair.2 + total) 0 l
  = foldr (fun pair total => pair.2 + total) 0 l'.
Proof. induction 1; cbn; lia. Qed.

Lemma count_sum_nonneg (l : list (Z * Z)) :
  Forall (fun pair => 0 < pair.2) l ->
  0 <= foldr (fun pair total => pair.2 + total) 0 l.
Proof. induction 1; cbn; lia. Qed.

(** Without wrap-around the first loop computes the total. *)
Lemma total_loop_exact (l : list (Z * Z)) (total : Z) :
  Forall (fun pair => 0 < pair.2) l ->
  0 <= total ->
  total + foldr (fun pair total => pair.2 + total) 0 l < 2 ^ 64 ->
  fold_left (fun total pair => wrap_size_t (total + pair.2)) l total
  = total + foldr (fun pair total => pair.2 + total) 0 l.
Proof.
  intros Hpos. revert total.
  induction Hpos as [| pair l Hpair Hpos IH]; intros total Htotal Hbound; cbn.
  - lia.
  - cbn in Hbound. assert (Hrest := count_sum_nonneg l Hpos).
    unfold wrap_size_t at 2. rewrite Z.mod_small by lia.
    rewrite IH by lia. lia.
Qed.

Lemma positive_counts (distribution : gmap Z Z) :
  (forall key count, distribution !! key = Some count -> 0 < count) ->
  Forall (fun pair => 0 < pair.2) (map_pairs distribution).
Proof.
  intros Hpos. apply Forall_forall. intros [key count] Hin.
  apply map_pairs_lookup in Hin. cbn. eauto.
Qed.

Lemma totalVertices_exact (distribution : gmap Z Z) :
  (forall key count, distribution !! key = Some count -> 0 < count) ->
  total_count distribution < 2 ^ 64 ->
  totalVertices distribution = total_count distribution.
Proof.
  intros Hpos Hbound. unfold totalVertices, total_count in *.
  rewrite <- (count_sum_Permutation _ _ (map_pairs_Permutation distribution)) in *.
  rewrite total_loop_exact; [lia | now apply positive_counts | lia | lia].
Qed.

Lemma total_count_positive (distribution : gmap Z Z) :
  (forall key count, distribution !! key = Some count -> 0 < count) ->
  distribution <> ∅ -> 0 < total_count distribution.
Proof.
  intros Hpos Hne. unfold total_count.
  assert (Hall : Forall (fun pair => 0 < pair.2) (map_to_list distribution)).
  { apply Forall_forall. intros [key count] Hin.
    apply elem_of_map_to_list in Hin. cbn. eauto. }
  destruct (map_to_list distribution) as [| pair l] eqn:Hlist.
  - now apply map_to_list_empty_iff in Hlist.
  - apply Forall_cons in Hall as [Hpair Hrest].
    cbn. assert (H0 := count_sum_nonneg l Hrest). lia.
Qed.

End MapFacts.

Section ProbabilityFacts.
Context {D : Type} `{Double D} `{!ExactDouble D}.

Lemma fold_count_quotients (s : D) (l : list (Z * Z)) (acc : Z) :
  Forall (fun pair => 0 < pair.2) l -> 0 <= acc ->
  fold_left d_add (map (fun pair => (d_of_size_t pair.2 / s)%dbl) l)
    (d_of_size_t acc / s)%dbl
  = (d_of_size_t (acc + foldr (fun pair total => pair.2 + total) 0 l)%Z / s)%dbl.
Proof.
  intros Hpos. revert acc.
  induction Hpos as [| pair l Hpair Hpos IH]; intros acc Hacc; cbn.
  - now rewrite Z.add_0_r.
  - rewrite <- exact_div_add, <- exact_of_add by lia.
    rewrite IH by lia. f_equal. f_equal. lia.
Qed.

Lemma d_sum_probabilities (distribution : gmap Z Z) :
  (forall key count, distribution !! key = Some count -> 0 < count) ->
  distribution <> ∅ ->
  total_count distribution < 2 ^ 64 ->
  d_sum (map (fun pair => (d_of_size_t pair.2
                           / d_of_size_t (totalVertices distribution))%dbl)
             (map_pairs distribution)) = d_one.
Proof.
  intros Hpos Hne Hbound.
  rewrite totalVertices_exact by assumption.
  unfold d_sum.
  rewrite <- (exact_div_zero (d_of_size_t (total_count distribution))) at 1.
  rewrite <- exact_of_zero at 1.
  rewrite fold_count_quotients; [| now apply positive_counts | lia].
  rewrite Z.add_0_l.
  rewrite (count_sum_Permutation _ _ (map_pairs_Permutation distribution)).
  fold (total_count distribution).
  apply exact_div_same. intros Hzero. apply exact_of_inj in Hzero.
  assert (H0 := total_count_positive distribution Hpos Hne). lia.
Qed.

End ProbabilityFacts.

(** ** IEEE doubles: the error of a rounding *)

(** *** The digits of a mantissa and the shift of [shr] *)

Lemma fexp_eq (z : Z) : fexp prec emax z = Z.max (z - 53) (-1074).
Proof. reflexivity. Qed.

Lemma Zdigits2_log2 (m : positive) : Zdigits2 (Z.pos m) = Z.log2 (Z.pos m) + 1.
Proof.
  assert (Hsize : forall p, digits2_pos p = Pos.size p).
  { induction p as [p IH | p IH |]; cbn; now rewrite ?IH. }
  cbn [Zdigits2]. rewrite Hsize. destruct m as [p | p |]; cbn; lia.
Qed.

Lemma Zdigits2_spec (m : Z) :
  0 < m -> 0 < Zdigits2 m /\ 2 ^ (Zdigits2 m - 1) <= m < 2 ^ Zdigits2 m.
Proof.
  intros Hm. destruct m as [| m | m]; try lia.
  rewrite Zdigits2_log2.
  pose proof (Z.log2_spec (Z.pos m) Hm) as Hspec.
  pose proof (Z.log2_nonneg (Z.pos m)) as Hnonneg.
  replace (Z.log2 (Z.pos m) + 1 - 1) with (Z.log2 (Z.pos m)) by lia.
  unfold Z.succ in Hspec. lia.
Qed.

Lemma Zdigits2_le (m n : Z) : 0 <= n -> 0 < m < 2 ^ n -> Zdigits2 m <= n.
Proof.
  intros Hn Hm. destruct (Zdigits2_spec m) as (Hpos & Hlow & _); [lia|].
  destruct (Z_le_gt_dec (Zdigits2 m) n) as [Hle | Hgt]; [exact Hle|].
  assert (2 ^ n <= 2 ^ (Zdigits2 m - 1)) by (apply Z.pow_le_mono_r; lia). lia.
Qed.

Lemma Zdigits2_gt (m n : Z) : 0 <= n -> 2 ^ n <= m -> n < Zdigits2 m.
Proof.
  intros Hn Hm.
  assert (0 < 2 ^ n) by (apply Z.pow_pos_nonneg; lia).
  destruct (Zdigits2_spec m) as (Hpos & _ & Hhigh); [lia|].
  destruct (Z_lt_le_dec n (Zdigits2 m)) as [Hlt | Hge]; [exact Hlt|].
  assert (2 ^ Zdigits2 m <= 2 ^ n) by (apply Z.pow_le_mono_r; lia). lia.
Qed.

Lemma shr_1_m (mrs : shr_record) :
  0 <= shr_m mrs -> shr_m (shr_1 mrs) = shr_m mrs / 2.
Proof.
  destruct mrs as [m r s]. cbn [shr_m]. intros Hm.
  destruct m as [| [p | p |] | p]; cbn [shr_1 shr_m]; try lia;
    first [ reflexivity
          | apply Z.div_unique with (r := 1); lia
          | apply Z.div_unique with (r := 0); lia ].
Qed.

Lemma iter_pos_shr_m (p : positive) (mrs : shr_record) :
  0 <= shr_m mrs ->
  shr_m (SpecFloat.iter_pos shr_1 p mrs) = shr_m mrs / 2 ^ Z.pos p.
Proof.
  revert mrs. induction p as [p IH | p IH |]; intros mrs Hm; cbn [SpecFloat.iter_pos].
  - assert (0 <= shr_m (shr_1 mrs)).
    { rewrite shr_1_m by assumption. apply Z.div_pos; lia. }
    assert (0 < 2 ^ Z.pos p) by (apply Z.pow_pos_nonneg; lia).
    rewrite IH, IH, shr_1_m by (rewrite ?IH by assumption; try apply Z.div_pos; lia).
    rewrite !Z.div_div by lia.
    assert (Hpow : 2 ^ Z.pos p~1 = 2 * (2 ^ Z.pos p * 2 ^ Z.pos p)).
    { rewrite <- Z.pow_add_r, <- Z.pow_succ_r by lia. f_equal. lia. }
    now rewrite Hpow.
  - assert (0 < 2 ^ Z.pos p) by (apply Z.pow_pos_nonneg; lia).
    rewrite IH, IH by (rewrite ?IH by assumption; try apply Z.div_pos; lia).
    rewrite !Z.div_div by lia.
    assert (Hpow : 2 ^ Z.pos p~0 = 2 ^ Z.pos p * 2 ^ Z.pos p).
    { rewrite <- Z.pow_add_r by lia. f_equal. lia. }
    now rewrite Hpow.
  - now rewrite shr_1_m.
Qed.

Lemma loc_of_shr_record_of_loc (m : Z) (l : location) :
  loc_of_shr_record (shr_record_of_loc m l) = l.
Proof. now destruct l as [| []]. Qed.

Lemma shr_m_of_loc (m : Z) (l : location) : shr_m (shr_record_of_loc m l) = m.
Proof. now destruct l as [| []]. Qed.

(** The first step of rounding: the mantissa is shifted to the exponent
    of the format. *)
Lemma shr_fexp_spec (m e : Z) (l : location) :
  0 <= m -> e <= fexp prec emax (Zdigits2 m + e) ->
  exists mrs,
    shr_fexp prec emax m e l = (mrs, fexp prec emax (Zdigits2 m + e))
    /\ shr_m mrs = m / 2 ^ (fexp prec emax (Zdigits2 m + e) - e)
    /\ (fexp prec emax (Zdigits2 m + e) = e -> loc_of_shr_record mrs = l).
Proof.
  intros Hm Hle. unfold shr_fexp, shr.
  destruct (fexp prec emax (Zdigits2 m + e) - e) as [| k | k] eqn:Hk; try lia.
  - exists (shr_record_of_loc m l). repeat split.
    + f_equal. lia.
    + rewrite shr_m_of_loc. cbn. now rewrite Z.div_1_r.
    + intros _. apply loc_of_shr_record_of_loc.
  - eexists. repeat split.
    + f_equal. lia.
    + rewrite iter_pos_shr_m; rewrite shr_m_of_loc; [reflexivity | assumption].
    + lia.
Qed.

Lemma round_nearest_even_range (m : Z) (l : location) :
  m <= round_nearest_even m l <= m + 1.
Proof.
  destruct l as [| []]; cbn [round_nearest_even]; try lia.
  destruct (Z.even m); lia.
Qed.

(** What [binary_round_aux] returns for a mantissa [mx] that is not
    negative at an exponent [ex] not above the one the format gives it,
    [e1].  With [m1] the mantissa shifted to [e1], the mantissa [m2] it
    rounds to is [m1] or [m1 + 1]; [m1] has 53 digits unless [e1] is the
    least exponent; nothing changes when nothing is shifted out of an
    exact mantissa; and the result is a zero, a valid finite double of
    the value [m2 * 2^e1], or an infinity for a value of [2^1024] or
    more. *)
Lemma binary_round_aux_spec (sx : bool) (mx ex : Z) (lx : location) :
  0 <= mx -> ex <= fexp prec emax (Zdigits2 mx + ex) ->
  exists m2,
    mx / 2 ^ (fexp prec emax (Zdigits2 mx + ex) - ex) <= m2
    /\ m2 <= mx / 2 ^ (fexp prec emax (Zdigits2 mx + ex) - ex) + 1
    /\ (fexp prec emax (Zdigits2 mx + ex) = -1074
        \/ 2 ^ 52 <= mx / 2 ^ (fexp prec emax (Zdigits2 mx + ex) - ex))
    /\ (fexp prec emax (Zdigits2 mx + ex) = ex -> lx = loc_Exact -> m2 = mx)
    /\ ((m2 = 0 /\ binary_round_aux prec emax sx mx ex lx = S754_zero sx)
        \/ (exists m e,
              binary_round_aux prec emax sx mx ex lx = S754_finite sx m e
              /\ bounded prec emax m e = true
              /\ fexp prec emax (Zdigits2 mx + ex) <= e
              /\ Z.pos m * 2 ^ (e - fexp prec emax (Zdigits2 mx + ex)) = m2)
        \/ (binary_round_aux prec emax sx mx ex lx = S754_infinity sx
            /\ 0 <= fexp prec emax (Zdigits2 mx + ex)
            /\ 2 ^ 1024 <= m2 * 2 ^ fexp prec emax (Zdigits2 mx + ex))).
Proof.
  intros Hmx HP.
  destruct (shr_fexp_spec mx ex lx Hmx HP) as (mrs' & Hshr & Hm1 & Hloc).
  unfold binary_round_aux. rewrite Hshr.
  set (e1 := fexp prec emax (Zdigits2 mx + ex)) in *.
  set (m1 := mx / 2 ^ (e1 - ex)) in *.
  set (m2 := round_nearest_even (shr_m mrs') (loc_of_shr_record mrs')).
  pose proof (round_nearest_even_range (shr_m mrs') (loc_of_shr_record mrs')) as Hrange.
  fold m2 in Hrange. rewrite Hm1 in Hrange.
  assert (Hpow : 0 < 2 ^ (e1 - ex)) by (apply Z.pow_pos_nonneg; lia).
  assert (Hm1nonneg : 0 <= m1) by (apply Z.div_pos; lia).
  assert (Hmin : -1074 <= e1) by (unfold e1; rewrite fexp_eq; lia).
  (* the digits of the shifted mantissa *)
  assert (Hhigh : m1 < 2 ^ 53).
  { destruct (Z.eq_dec mx 0) as [-> | Hne].
    - unfold m1. rewrite Z.div_0_l by lia. lia.
    - destruct (Zdigits2_spec mx) as (Hd & _ & Hupper); [lia|].
      apply Z.div_lt_upper_bound; [lia|].
      rewrite <- Z.pow_add_r by lia.
      assert (2 ^ Zdigits2 mx <= 2 ^ (e1 - ex + 53)).
      { apply Z.pow_le_mono_r; [lia|]. unfold e1. rewrite fexp_eq. lia. }
      lia. }
  assert (Hnormal : e1 = -1074 \/ 2 ^ 52 <= m1).
  { destruct (Z.eq_dec e1 (-1074)) as [Heq | Hne]; [now left | right].
    assert (He1 : e1 = Zdigits2 mx + ex - 53) by (unfold e1 in *; rewrite fexp_eq in *; lia).
    assert (Hpos : 0 < mx).
    { destruct (Z.eq_dec mx 0) as [-> | Hne']; [| lia].
      cbn [Zdigits2] in He1. lia. }
    destruct (Zdigits2_spec mx Hpos) as (Hd & Hlower & _).
    apply Z.div_le_lower_bound; [lia|].
    rewrite <- Z.pow_add_r by lia.
    replace (e1 - ex + 52) with (Zdigits2 mx - 1) by lia. exact Hlower. }
  exists m2. split; [lia|]. split; [lia|]. split; [exact Hnormal|]. split.
  { intros Heq ->. unfold m2. rewrite (Hloc Heq). cbn [round_nearest_even].
    rewrite Hm1. unfold m1. rewrite Heq, Z.sub_diag. apply Z.div_1_r. }
  (* the second shift *)
  destruct (Z.eq_dec m2 0) as [Hzero | Hnonzero].
  { left. split; [exact Hzero|]. rewrite Hzero. unfold shr_fexp.
    cbn [Zdigits2]. rewrite Z.add_0_l, fexp_eq.
    unfold shr. destruct (Z.max (e1 - 53) (-1074) - e1) eqn:Hk; try lia.
    all: now rewrite shr_m_of_loc. }
  right.
  assert (Hm2pos : 0 < m2) by lia.
  destruct (Zdigits2_spec m2 Hm2pos) as (Hd2 & Hlow2 & Hhigh2).
  destruct (Z.eq_dec m2 (2 ^ 53)) as [Htop | Hbelow].
  - (* the mantissa was rounded up to 2^53 *)
    assert (He1 : 2 ^ 52 <= m1) by lia.
    assert (Hd : Zdigits2 m2 = 54) by (rewrite Htop; reflexivity).
    unfold shr_fexp. rewrite Hd, fexp_eq.
    replace (Z.max (54 + e1 - 53) (-1074) - e1) with 1 by lia.
    unfold shr. cbn [SpecFloat.iter_pos]. rewrite shr_1_m by (rewrite shr_m_of_loc; lia).
    rewrite shr_m_of_loc, Htop.
    change (2 ^ 53 / 2) with (Z.pos 4503599627370496).
    destruct (Z.leb_spec (e1 + 1) (emax - prec)) as [Hfits | Hover].
    + left. exists 4503599627370496%positive, (e1 + 1). split; [reflexivity|].
      split; [| split; [lia|]].
      * unfold bounded, canonical_mantissa.
        apply andb_true_iff. split; [| now apply Z.leb_le].
        apply Z.eqb_eq. rewrite fexp_eq. cbn [digits2_pos]. lia.
      * replace (e1 + 1 - e1) with 1 by lia. reflexivity.
    + right. split; [reflexivity|].
      unfold emax, prec in Hover. split; [lia|].
      assert (2 ^ 971 <= 2 ^ e1) by (apply Z.pow_le_mono_r; lia).
      change (2 ^ 1024) with (2 ^ 53 * 2 ^ 971). nia.
  - (* the mantissa has at most 53 digits *)
    assert (Hlt : m2 < 2 ^ 53) by lia.
    assert (Hd53 : Zdigits2 m2 <= 53) by (apply Zdigits2_le; lia).
    assert (Hcanon : fexp prec emax (Zdigits2 m2 + e1) = e1).
    { rewrite fexp_eq. destruct Hnormal as [Hsub | Hnorm]; [lia|].
      assert (52 < Zdigits2 m2) by (apply Zdigits2_gt; lia). lia. }
    unfold shr_fexp. rewrite Hcanon, Z.sub_diag. unfold shr.
    rewrite shr_m_of_loc.
    destruct m2 as [| p | p] eqn:Hp; try lia.
    destruct (Z.leb_spec e1 (emax - prec)) as [Hfits | Hover].
    + left. exists p, e1. split; [reflexivity|]. split; [| split; [lia|]].
      * unfold bounded, canonical_mantissa.
        apply andb_true_iff. split; [| now apply Z.leb_le].
        apply Z.eqb_eq. exact Hcanon.
      * rewrite Z.sub_diag. lia.
    + right. split; [reflexivity|].
      unfold emax, prec in Hover. split; [lia|].
      destruct Hnormal as [Hsub | Hnorm]; [lia|].
      assert (2 ^ 972 <= 2 ^ e1) by (apply Z.pow_le_mono_r; lia).
      change (2 ^ 1024) with (2 ^ 52 * 2 ^ 972). nia.
Qed.

(** *** The value of a rounded mantissa *)

Lemma pow2_pos (e : Z) : (0 < 2 ^ e)%Q.
Proof. now apply Qpower_0_lt. Qed.

Lemma pow2_add (a b : Z) : (2 ^ (a + b) == 2 ^ a * 2 ^ b)%Q.
Proof. now apply Qpower_plus. Qed.

Lemma pow2_inject (k : Z) : 0 <= k -> (inject_Z (2 ^ k) == 2 ^ k)%Q.
Proof. intros Hk. now rewrite Zpower_Qpower. Qed.

Lemma scale_le (a b k e : Z) :
  0 <= k -> a * 2 ^ k <= b -> (inject_Z a * 2 ^ (e + k) <= inject_Z b * 2 ^ e)%Q.
Proof.
  intros Hk Hle. rewrite pow2_add, <- (pow2_inject k Hk).
  rewrite (Qmult_comm (2 ^ e)), Qmult_assoc, <- inject_Z_mult.
  apply Qmult_le_compat_r; [| apply Qlt_le_weak, pow2_pos].
  now rewrite <- Zle_Qle.
Qed.

Lemma scale_ge (a b k e : Z) :
  0 <= k -> b <= a * 2 ^ k -> (inject_Z b * 2 ^ e <= inject_Z a * 2 ^ (e + k))%Q.
Proof.
  intros Hk Hle. rewrite pow2_add, <- (pow2_inject k Hk).
  rewrite (Qmult_comm (2 ^ e)), Qmult_assoc, <- inject_Z_mult.
  apply Qmult_le_compat_r; [| apply Qlt_le_weak, pow2_pos].
  now rewrite <- Zle_Qle.
Qed.

Lemma scale_eq (a b k e : Z) :
  0 <= k -> a * 2 ^ k = b -> (inject_Z a * 2 ^ (e + k) == inject_Z b * 2 ^ e)%Q.
Proof.
  intros Hk Heq. apply Qle_antisym; [apply scale_le | apply scale_ge]; lia.
Qed.

(** What the rounding of [binary_round_aux_spec] does to the value: [x]
    lies between the mantissas [mx] and [mx + 1] at the exponent [ex],
    [r] is the value returned at the exponent [e1]. *)
Lemma round_value (mx ex e1 m2 : Z) (x : Q) :
  0 <= mx -> ex <= e1 ->
  mx / 2 ^ (e1 - ex) <= m2 -> m2 <= mx / 2 ^ (e1 - ex) + 1 ->
  (inject_Z mx * 2 ^ ex <= x)%Q -> (x < inject_Z (mx + 1) * 2 ^ ex)%Q ->
  (x - 2 ^ e1 <= inject_Z m2 * 2 ^ e1 <= x + 2 ^ e1)%Q
  /\ (x < (inject_Z (mx / 2 ^ (e1 - ex)) + 1) * 2 ^ e1)%Q
  /\ (2 ^ 52 <= mx / 2 ^ (e1 - ex) ->
      ((1 - eps) * x <= inject_Z m2 * 2 ^ e1
       /\ (1 - eps) * (inject_Z m2 * 2 ^ e1) <= x)%Q).
Proof.
  intros Hmx Hle Hlow Hhigh Hx Hx'.
  set (k := e1 - ex) in *. set (m1 := mx / 2 ^ k) in *.
  assert (Hk : 0 <= k) by lia.
  assert (Hpow : 0 < 2 ^ k) by (apply Z.pow_pos_nonneg; lia).
  assert (Hdiv1 : m1 * 2 ^ k <= mx).
  { rewrite Z.mul_comm. apply Z.mul_div_le. lia. }
  assert (Hdiv2 : mx + 1 <= (m1 + 1) * 2 ^ k).
  { pose proof (Z.mul_succ_div_gt mx (2 ^ k) Hpow). fold m1 in H. lia. }
  replace e1 with (ex + k) by lia.
  pose proof (scale_le m1 mx k ex Hk Hdiv1) as H1.
  pose proof (scale_ge (m1 + 1) (mx + 1) k ex Hk Hdiv2) as H2.
  assert (H3 : (inject_Z m1 * 2 ^ (ex + k) <= inject_Z m2 * 2 ^ (ex + k))%Q).
  { apply Qmult_le_compat_r; [| apply Qlt_le_weak, pow2_pos]. now rewrite <- Zle_Qle. }
  assert (H4 : (inject_Z m2 * 2 ^ (ex + k) <= inject_Z (m1 + 1) * 2 ^ (ex + k))%Q).
  { apply Qmult_le_compat_r; [| apply Qlt_le_weak, pow2_pos]. now rewrite <- Zle_Qle. }
  rewrite (inject_Z_plus m1 1) in H2, H4.
  change (inject_Z 1) with 1%Q in *.
  pose proof (pow2_pos (ex + k)) as Hp.
  set (p := (2 ^ (ex + k))%Q) in *.
  set (z := (inject_Z mx * 2 ^ ex)%Q) in *.
  set (z' := (inject_Z (mx + 1) * 2 ^ ex)%Q) in *.
  set (a := inject_Z m1) in *. set (b := inject_Z m2) in *.
  split; [split; lra|]. split; [lra|].
  intros Hnormal.
  assert (H6 : (inject_Z (2 ^ 52) * p <= a * p)%Q).
  { apply Qmult_le_compat_r; [| lra]. unfold a. now rewrite <- Zle_Qle. }
  change (inject_Z (2 ^ 52)) with (4503599627370496 # 1) in H6.
  unfold eps. split; lra.
Qed.

Lemma iter_xO (m d : positive) : Z.pos (Pos.iter xO m d) = Z.pos m * 2 ^ Z.pos d.
Proof.
  induction d as [| d IH] using Pos.peano_ind.
  - cbn. lia.
  - rewrite Pos.iter_succ, Pos2Z.inj_xO, IH, Pos2Z.inj_succ, Z.pow_succ_r by lia. ring.
Qed.

Lemma shl_align_spec (mx : positive) (ex ex' : Z) :
  exists mz ez,
    shl_align mx ex ex' = (mz, ez)
    /\ ez = Z.min ex ex' /\ Z.pos mz = Z.pos mx * 2 ^ (ex - ez).
Proof.
  unfold shl_align. destruct (ex' - ex) as [| d | d] eqn:Hd.
  - exists mx, ex. repeat split; [lia|]. rewrite Z.sub_diag. lia.
  - exists mx, ex. repeat split; [lia|]. rewrite Z.sub_diag. lia.
  - exists (Pos.iter xO mx d), ex'. repeat split; [lia|].
    rewrite iter_xO. f_equal. f_equal. lia.
Qed.

Lemma Zdigits2_mul_pow2 (m : positive) (k : Z) :
  0 <= k -> Zdigits2 (Z.pos m * 2 ^ k) = Zdigits2 (Z.pos m) + k.
Proof.
  intros Hk.
  assert (Hpos : 0 < Z.pos m * 2 ^ k).
  { apply Z.mul_pos_pos; [lia | apply Z.pow_pos_nonneg; lia]. }
  destruct (Z.pos m * 2 ^ k) as [| p | p] eqn:Hp; try lia.
  rewrite !Zdigits2_log2, <- Hp, Z.log2_mul_pow2 by lia. lia.
Qed.

Lemma big_powers : (2 * 2 ^ 1023 == 2 ^ 1024)%Q /\ (0 < 2 ^ 1023)%Q.
Proof. split; [now rewrite <- (pow2_add 1 1023) | apply pow2_pos]. Qed.

(** [binary_round] on a positive mantissa at an exponent of the format:
    the value is kept up to the relative error [eps], or is above
    [2^1023] and becomes an infinity. *)
Lemma binary_round_spec (M : positive) (E : Z) :
  -1074 <= E ->
  (exists m e,
     binary_round prec emax false M E = S754_finite false m e
     /\ bounded prec emax m e = true
     /\ ((1 - eps) * (inject_Z (Z.pos M) * 2 ^ E) <= inject_Z (Z.pos m) * 2 ^ e)%Q
     /\ ((1 - eps) * (inject_Z (Z.pos m) * 2 ^ e) <= inject_Z (Z.pos M) * 2 ^ E)%Q)
  \/ (binary_round prec emax false M E = S754_infinity false
      /\ (2 ^ 1023 < inject_Z (Z.pos M) * 2 ^ E)%Q).
Proof.
  intros HE. unfold binary_round.
  destruct (shl_align_spec M E (fexp prec emax (Z.pos (digits2_pos M) + E)))
    as (mz & ez & -> & Hez & Hmz).
  change (Z.pos (digits2_pos M)) with (Zdigits2 (Z.pos M)) in *.
  set (e1 := fexp prec emax (Zdigits2 (Z.pos M) + E)) in *.
  assert (Hdigits : Zdigits2 (Z.pos mz) + ez = Zdigits2 (Z.pos M) + E).
  { rewrite Hmz, Zdigits2_mul_pow2 by lia. lia. }
  assert (He1 : fexp prec emax (Zdigits2 (Z.pos mz) + ez) = e1) by now rewrite Hdigits.
  destruct (binary_round_aux_spec false (Z.pos mz) ez loc_Exact)
    as (m2 & Hlow & Hhigh & Hnormal & Hexact & Hresult); [lia | rewrite He1; lia|].
  rewrite He1 in *.
  assert (Hx : (inject_Z (Z.pos M) * 2 ^ E == inject_Z (Z.pos mz) * 2 ^ ez)%Q).
  { replace E with (ez + (E - ez)) at 1 by lia. apply scale_eq; lia. }
  set (x := (inject_Z (Z.pos M) * 2 ^ E)%Q) in *.
  assert (Hxpos : (0 < x)%Q).
  { unfold x. apply Qmult_lt_0_compat; [| apply pow2_pos].
    now rewrite <- (Zlt_Qlt 0). }
  destruct (round_value (Z.pos mz) ez e1 m2 x) as (_ & _ & Hrel); try lia.
  { rewrite Hx. apply Qle_refl. }
  { rewrite Hx. apply Qmult_lt_compat_r; [apply pow2_pos|]. rewrite <- Zlt_Qlt. lia. }
  assert (Hr : ((1 - eps) * x <= inject_Z m2 * 2 ^ e1
                /\ (1 - eps) * (inject_Z m2 * 2 ^ e1) <= x)%Q /\ 0 < m2).
  { destruct (Z.eq_dec e1 ez) as [Heq | Hne].
    - rewrite (Hexact Heq eq_refl), Heq, <- Hx. unfold eps. split; [split; lra | lia].
    - destruct Hnormal as [Hsub | Hnorm]; [lia|].
      split; [now apply Hrel | lia]. }
  destruct Hr as [[Hr1 Hr2] Hm2].
  destruct Hresult as [[Hzero _] | [(m & e & -> & Hbounded & Hle & Hm) | (-> & Hpos & Hbig)]].
  - lia.
  - left. exists m, e. split; [reflexivity|]. split; [exact Hbounded|].
    assert (Hv : (inject_Z (Z.pos m) * 2 ^ e == inject_Z m2 * 2 ^ e1)%Q).
    { replace e with (e1 + (e - e1)) at 1 by lia. apply scale_eq; lia. }
    rewrite Hv. split; assumption.
  - right. split; [reflexivity|].
    assert (Hv : (2 ^ 1024 <= inject_Z m2 * 2 ^ e1)%Q).
    { rewrite <- (pow2_inject e1 Hpos), <- inject_Z_mult, <- (pow2_inject 1024) by lia.
      now rewrite <- Zle_Qle. }
    destruct big_powers as [Hdouble Hp].
    rewrite <- Hdouble in Hv. unfold eps in *.
    set (r := (inject_Z m2 * 2 ^ e1)%Q) in *. set (P := (2 ^ 1023)%Q) in *.
    clearbody r P x. nra.
Qed.

(** *** Addition, division and conversion *)

Lemma SF2Q_finite (m : positive) (e : Z) :
  SF2Q (S754_finite false m e) = (inject_Z (Z.pos m) * 2 ^ e)%Q.
Proof. reflexivity. Qed.

Lemma SF2Q_nonneg (x : spec_float) : nonneg_finite x -> (0 <= SF2Q x)%Q.
Proof.
  destruct x as [s | s | | [] m e]; cbn [nonneg_finite]; try easy; intros _;
    cbn [SF2Q cond_Zopp]; try apply Qle_refl.
  apply Qmult_le_0_compat; [| apply Qlt_le_weak, pow2_pos].
  now rewrite <- (Zle_Qle 0).
Qed.

Lemma valid_exponent (s : bool) (m : positive) (e : Z) :
  valid_binary (S754_finite s m e) = true -> -1074 <= e.
Proof.
  cbn [valid_binary]. unfold bounded, canonical_mantissa.
  intros [Hcanon _]%andb_true_iff. apply Z.eqb_eq in Hcanon.
  rewrite fexp_eq in Hcanon. lia.
Qed.

(** Addition of two doubles that are finite and not negative. *)
Lemma SF64add_spec (x y : spec_float) :
  valid_binary x = true -> valid_binary y = true ->
  nonneg_finite x -> nonneg_finite y ->
  (SF64add x y = S754_infinity false /\ (2 ^ 1023 < SF2Q x + SF2Q y)%Q)
  \/ (nonneg_finite (SF64add x y)
      /\ ((1 - eps) * (SF2Q x + SF2Q y) <= SF2Q (SF64add x y))%Q
      /\ ((1 - eps) * SF2Q (SF64add x y) <= SF2Q x + SF2Q y)%Q).
Proof.
  intros Hvx Hvy Hx Hy.
  destruct x as [sx | sx | | [] mx ex]; try easy;
    destruct y as [sy | sy | | [] my ey]; try easy.
  - right. unfold SF64add, SFadd. destruct sx, sy; cbn; unfold eps; repeat split; lra.
  - right. unfold SF64add, SFadd.
    pose proof (SF2Q_nonneg (S754_finite false my ey) I) as Hnonneg.
    cbn [nonneg_finite]. cbn [SF2Q] in *. unfold eps. repeat split; lra.
  - right. unfold SF64add, SFadd.
    pose proof (SF2Q_nonneg (S754_finite false mx ex) I) as Hnonneg.
    cbn [nonneg_finite]. cbn [SF2Q] in *. unfold eps. repeat split; lra.
  - apply valid_exponent in Hvx, Hvy.
    unfold SF64add, SFadd. cbn [cond_Zopp].
    destruct (shl_align_spec mx ex (Z.min ex ey)) as (mx' & ex' & -> & Hex' & Hmx').
    destruct (shl_align_spec my ey (Z.min ex ey)) as (my' & ey' & -> & Hey' & Hmy').
    cbn [fst]. change (Z.pos mx' + Z.pos my') with (Z.pos (mx' + my')).
    cbn [binary_normalize].
    set (ez := Z.min ex ey) in *.
    assert (Hsum : (SF2Q (S754_finite false mx ex) + SF2Q (S754_finite false my ey)
                    == inject_Z (Z.pos (mx' + my')) * 2 ^ ez)%Q).
    { assert (Hx1 : (inject_Z (Z.pos mx) * 2 ^ ex == inject_Z (Z.pos mx') * 2 ^ ez)%Q).
      { replace ex with (ez + (ex - ez)) at 1 by lia. apply scale_eq; [lia|].
        rewrite Hmx'. f_equal. f_equal. lia. }
      assert (Hy1 : (inject_Z (Z.pos my) * 2 ^ ey == inject_Z (Z.pos my') * 2 ^ ez)%Q).
      { replace ey with (ez + (ey - ez)) at 1 by lia. apply scale_eq; [lia|].
        rewrite Hmy'. f_equal. f_equal. lia. }
      rewrite !SF2Q_finite, Hx1, Hy1, Pos2Z.inj_add, inject_Z_plus. ring. }
    destruct (binary_round_spec (mx' + my') ez ltac:(lia))
      as [(m & e & -> & _ & H1 & H2) | [-> Hbig]].
    + right. rewrite Hsum, SF2Q_finite. now repeat split.
    + left. now rewrite Hsum.
Qed.

Lemma small_powers :
  (inject_Z (2 ^ 52) * 2 ^ (-1074) == 2 ^ (-1022))%Q /\ (0 < eta)%Q.
Proof.
  split; [| apply pow2_pos].
  rewrite pow2_inject by lia. now rewrite <- pow2_add.
Qed.

(** The quotient of the mantissas that [SFdiv] rounds has the digits the
    format asks for. *)
Lemma div_core_digits (mx my : positive) (ex ey : Z) :
  let e' := Z.min (fexp prec emax (Zdigits2 (Z.pos mx) + ex - (Zdigits2 (Z.pos my) + ey)))
                  (ex - ey) in
  e' <= fexp prec emax (Zdigits2 (Z.pos mx * 2 ^ (ex - ey - e') / Z.pos my) + e').
Proof.
  intros e'.
  destruct (Zdigits2_spec (Z.pos mx)) as (Hd1 & Hlow1 & _); [lia|].
  destruct (Zdigits2_spec (Z.pos my)) as (Hd2 & _ & Hhigh2); [lia|].
  set (d1 := Zdigits2 (Z.pos mx)) in *. set (d2 := Zdigits2 (Z.pos my)) in *.
  set (s := ex - ey - e').
  assert (Hs : 0 <= s) by (unfold s, e'; lia).
  destruct (Z_le_gt_dec e' (-1074)) as [Hsub | Hnorm].
  { rewrite fexp_eq. lia. }
  assert (He' : e' <= d1 + ex - (d2 + ey) - 53).
  { unfold e' in *. rewrite fexp_eq in *. lia. }
  assert (Hq : 2 ^ (d1 + s - d2 - 1) <= Z.pos mx * 2 ^ s / Z.pos my).
  { apply Z.div_le_lower_bound; [lia|].
    assert (Hp1 : 0 < 2 ^ (d1 + s - d2 - 1)) by (apply Z.pow_pos_nonneg; unfold s; lia).
    assert (Hp2 : 2 ^ (d1 + s - d2 - 1) * 2 ^ d2 = 2 ^ (d1 - 1) * 2 ^ s).
    { rewrite <- !Z.pow_add_r by (unfold s; lia). f_equal. lia. }
    assert (Hp3 : 0 < 2 ^ s) by (apply Z.pow_pos_nonneg; lia).
    nia. }
  apply Zdigits2_gt in Hq; [| unfold s; lia].
  rewrite fexp_eq. unfold s in *. lia.
Qed.

(** Division of a positive finite double by another. *)
Lemma SF64div_spec (mx my : positive) (ex ey : Z) :
  let x := (SF2Q (S754_finite false mx ex) / SF2Q (S754_finite false my ey))%Q in
  let q := SF64div (S754_finite false mx ex) (S754_finite false my ey) in
  (q = S754_infinity false /\ (2 ^ 1023 < x)%Q)
  \/ (nonneg_finite q
      /\ ((1 - eps) * x - eta <= SF2Q q)%Q
      /\ ((1 - eps) * SF2Q q <= x + eta)%Q
      /\ ((2 ^ (-1022) <= x)%Q ->
          ((1 - eps) * x <= SF2Q q)%Q /\ ((1 - eps) * SF2Q q <= x)%Q)).
Proof.
  intros x q. unfold q, SF64div, SFdiv, SFdiv_core_binary.
  set (e' := Z.min (fexp prec emax (Zdigits2 (Z.pos mx) + ex - (Zdigits2 (Z.pos my) + ey)))
                   (ex - ey)).
  assert (Hs : 0 <= ex - ey - e') by (unfold e'; lia).
  set (m' := match ex - ey - e' with
             | 0 => Z.pos mx
             | Z.pos _ => Z.shiftl (Z.pos mx) (ex - ey - e')
             | Z.neg _ => 0
             end).
  assert (Hm' : m' = Z.pos mx * 2 ^ (ex - ey - e')).
  { unfold m'. destruct (ex - ey - e') as [| s | s] eqn:Heq; try lia.
    apply Z.shiftl_mul_pow2. lia. }
  change (IntDef.Z.div_eucl m' (Z.pos my)) with (Z.div_eucl m' (Z.pos my)).
  pose proof (Z.div_eucl_eq m' (Z.pos my) ltac:(lia)) as Hdiv.
  pose proof (Z.mod_pos_bound m' (Z.pos my) ltac:(lia)) as Hrem.
  assert (Hquot : fst (Z.div_eucl m' (Z.pos my)) = m' / Z.pos my) by reflexivity.
  unfold Z.modulo in Hrem.
  destruct (Z.div_eucl m' (Z.pos my)) as [qz rz]. cbn [fst] in Hquot.
  cbn [xorb].
  assert (Hm'pos : 0 < m').
  { rewrite Hm'. apply Z.mul_pos_pos; [lia | apply Z.pow_pos_nonneg; lia]. }
  assert (Hqz : 0 <= qz) by (rewrite Hquot; apply Z.div_pos; lia).
  pose proof (div_core_digits mx my ex ey) as HP. cbv zeta in HP. fold e' in HP.
  rewrite <- Hm', <- Hquot in HP.
  destruct (binary_round_aux_spec false qz e' (new_location (Z.pos my) rz) Hqz HP)
    as (m2 & Hlow & Hhigh & Hnormal & _ & Hresult).
  set (e1 := fexp prec emax (Zdigits2 qz + e')) in *.
  (* the quotient lies between the mantissas qz and qz + 1 *)
  assert (Hx : (x == inject_Z m' / inject_Z (Z.pos my) * 2 ^ e')%Q).
  { unfold x. rewrite !SF2Q_finite, Hm', inject_Z_mult, pow2_inject by lia.
    replace ex with (ey + ((ex - ey - e') + e')) at 1 by lia.
    rewrite !pow2_add. field. split.
    - apply Qnot_eq_sym, Qlt_not_eq. now rewrite <- (Zlt_Qlt 0).
    - apply Qnot_eq_sym, Qlt_not_eq, pow2_pos. }
  assert (Hmy : (0 < inject_Z (Z.pos my))%Q) by now rewrite <- (Zlt_Qlt 0).
  assert (Hx1 : (inject_Z qz * 2 ^ e' <= x)%Q).
  { rewrite Hx. apply Qmult_le_compat_r; [| apply Qlt_le_weak, pow2_pos].
    apply Qle_shift_div_l; [exact Hmy|].
    rewrite <- inject_Z_mult, <- Zle_Qle. lia. }
  assert (Hx2 : (x < inject_Z (qz + 1) * 2 ^ e')%Q).
  { rewrite Hx. apply Qmult_lt_compat_r; [apply pow2_pos|].
    apply Qlt_shift_div_r; [exact Hmy|].
    rewrite <- inject_Z_mult, <- Zlt_Qlt. lia. }
  assert (Hxpos : (0 <= x)%Q).
  { apply Qle_trans with (2 := Hx1).
    apply Qmult_le_0_compat; [| apply Qlt_le_weak, pow2_pos].
    now rewrite <- (Zle_Qle 0). }
  destruct (round_value qz e' e1 m2 x Hqz HP Hlow Hhigh Hx1 Hx2)
    as ([Habs1 Habs2] & Hbelow & Hrel).
  destruct small_powers as [Hsmall Heta].
  pose proof (pow2_pos e1) as Hp1.
  (* the value of the result, whatever the case *)
  assert (Hvalue :
    ((1 - eps) * x - eta <= inject_Z m2 * 2 ^ e1
     /\ (1 - eps) * (inject_Z m2 * 2 ^ e1) <= x + eta
     /\ (2 ^ (-1022) <= x ->
         (1 - eps) * x <= inject_Z m2 * 2 ^ e1
         /\ (1 - eps) * (inject_Z m2 * 2 ^ e1) <= x))%Q).
  { assert (Hr : (0 <= inject_Z m2 * 2 ^ e1)%Q).
    { apply Qmult_le_0_compat; [| lra]. rewrite <- (Zle_Qle 0).
      assert (0 <= qz / 2 ^ (e1 - e')); [| lia].
      apply Z.div_pos; [lia | apply Z.pow_pos_nonneg; lia]. }
    destruct (Z_le_gt_dec (2 ^ 52) (qz / 2 ^ (e1 - e'))) as [Hnorm | Hsub].
    - destruct (Hrel Hnorm) as [H1 H2]. unfold eps in *.
      split; [lra | split; [lra | intros _; split; lra]].
    - destruct Hnormal as [He1 | Hnorm]; [| lia].
      rewrite He1 in *. unfold eta in *.
      assert (Hlt : (x < 2 ^ (-1022))%Q).
      { rewrite <- Hsmall. apply Qlt_le_trans with (1 := Hbelow).
        apply Qmult_le_compat_r; [| lra].
        change 1%Q with (inject_Z 1). rewrite <- inject_Z_plus, <- Zle_Qle. lia. }
      unfold eps in *. set (P := (2 ^ (-1022))%Q) in *.
      set (h := (2 ^ (-1074))%Q) in *. clearbody P h.
      split; [lra | split; [lra | intros Hge; lra]]. }
  destruct Hresult as [[Hzero ->] | [(m & e & -> & _ & Hle & Hm) | (-> & Hpos & Hbig)]].
  - right. rewrite Hzero in Hvalue. cbn [SF2Q nonneg_finite].
    split; [exact I|]. rewrite Qmult_0_l in Hvalue. exact Hvalue.
  - right. split; [exact I|]. rewrite SF2Q_finite.
    assert (Hv : (inject_Z (Z.pos m) * 2 ^ e == inject_Z m2 * 2 ^ e1)%Q).
    { replace e with (e1 + (e - e1)) at 1 by lia. apply scale_eq; lia. }
    rewrite Hv. exact Hvalue.
  - left. split; [reflexivity|].
    assert (Hv : (2 ^ 1024 <= inject_Z m2 * 2 ^ e1)%Q).
    { rewrite <- (pow2_inject e1 Hpos), <- inject_Z_mult, <- (pow2_inject 1024) by lia.
      now rewrite <- Zle_Qle. }
    destruct Hnormal as [He1 | Hnorm]; [lia|].
    destruct (Hrel Hnorm) as [_ H2].
    destruct big_powers as [Hdouble Hp].
    rewrite <- Hdouble in Hv. unfold eps in *.
    set (r := (inject_Z m2 * 2 ^ e1)%Q) in *. set (P := (2 ^ 1023)%Q) in *.
    clearbody r P x. lra.
Qed.

Lemma nonneg_finite_float (x : float) :
  (0 <=? x)%float = true -> (x <? infinity)%float = true ->
  nonneg_finite (Prim2SF x).
Proof.
  rewrite leb_spec, ltb_spec.
  change (Prim2SF 0) with (S754_zero false).
  change (Prim2SF infinity) with (S754_infinity false).
  destruct (Prim2SF x) as [s | [] | | [] m e]; cbn; try easy.
Qed.

Lemma float_add_spec (x y : float) :
  nonneg_finite (Prim2SF x) -> nonneg_finite (Prim2SF y) ->
  (Prim2SF (x + y) = S754_infinity false /\ (2 ^ 1023 < F2Q x + F2Q y)%Q)
  \/ (nonneg_finite (Prim2SF (x + y))
      /\ ((1 - eps) * (F2Q x + F2Q y) <= F2Q (x + y))%Q
      /\ ((1 - eps) * F2Q (x + y) <= F2Q x + F2Q y)%Q).
Proof.
  intros Hx Hy. unfold F2Q. rewrite add_spec.
  apply SF64add_spec; auto using Prim2SF_valid.
Qed.

Lemma float_div_spec (x y : float) :
  nonneg_finite (Prim2SF x) -> nonneg_finite (Prim2SF y) -> (0 < F2Q y)%Q ->
  (Prim2SF (x / y) = S754_infinity false /\ (2 ^ 1023 < F2Q x / F2Q y)%Q)
  \/ (nonneg_finite (Prim2SF (x / y))
      /\ ((1 - eps) * (F2Q x / F2Q y) - eta <= F2Q (x / y))%Q
      /\ ((1 - eps) * F2Q (x / y) <= F2Q x / F2Q y + eta)%Q
      /\ ((2 ^ (-1022) <= F2Q x / F2Q y)%Q ->
          ((1 - eps) * (F2Q x / F2Q y) <= F2Q (x / y))%Q
          /\ ((1 - eps) * F2Q (x / y) <= F2Q x / F2Q y)%Q)).
Proof.
  intros Hx Hy Hpos. unfold F2Q in *. rewrite div_spec.
  destruct small_powers as [_ Heta].
  destruct (Prim2SF y) as [sy | sy | | [] my ey]; try easy;
    try (exfalso; exact (Qlt_irrefl 0 Hpos)).
  destruct (Prim2SF x) as [sx | sx | | [] mx ex]; try easy.
  - right. unfold SF64div, SFdiv. cbn [nonneg_finite SF2Q].
    split; [exact I|]. unfold Qdiv. rewrite !Qmult_0_l, !Qmult_0_r.
    unfold eps. split; [lra | split; [lra|]]. intros Hle. exfalso.
    pose proof (pow2_pos (-1022)). lra.
  - apply SF64div_spec.
Qed.

(** Conversion of a positive integer below [2^1023]. *)
Lemma of_Z_spec (z : Z) :
  0 < z < 2 ^ 1023 ->
  nonneg_finite (Prim2SF (IEEE.of_Z z))
  /\ ((1 - eps) * inject_Z z <= F2Q (IEEE.of_Z z))%Q
  /\ ((1 - eps) * F2Q (IEEE.of_Z z) <= inject_Z z)%Q.
Proof.
  intros Hz. unfold IEEE.of_Z, F2Q.
  destruct z as [| p | p]; try lia. cbn [binary_normalize].
  destruct (binary_round_spec p 0 ltac:(lia))
    as [(m & e & Heq & Hbounded & H1 & H2) | [_ Hbig]].
  - rewrite Heq, Prim2SF_SF2Prim by exact Hbounded.
    rewrite SF2Q_finite. cbn [nonneg_finite].
    change (2 ^ 0)%Q with 1%Q in *. rewrite Qmult_1_r in *. now repeat split.
  - exfalso. change (2 ^ 0)%Q with 1%Q in Hbig. rewrite Qmult_1_r in Hbig.
    rewrite <- (pow2_inject 1023), <- Zlt_Qlt in Hbig by lia. lia.
Qed.

(** *** Sums of doubles that are not negative *)

(** One more rounding: the accumulated relative error grows by [eps]. *)
Lemma step_lower (A V S R c : Q) :
  (0 <= A -> 0 <= V -> 0 <= c -> c <= 1 ->
   (1 - c) * A <= S -> (1 - eps) * (S + V) <= R ->
   (1 - (c + eps)) * (A + V) <= R)%Q.
Proof.
  intros HA HV Hc Hc1 HS HR. unfold eps in *.
  assert (0 <= c * A)%Q by now apply Qmult_le_0_compat.
  assert (0 <= c * V)%Q by now apply Qmult_le_0_compat.
  lra.
Qed.

Lemma step_upper (A V S R c : Q) :
  (0 <= R -> 0 <= V -> 0 <= c -> c + eps <= 1 ->
   (1 - c) * S <= A -> (1 - eps) * R <= S + V ->
   (1 - (c + eps)) * R <= A + V)%Q.
Proof.
  intros HR HV Hc Hc1 HS HRV. unfold eps in *.
  assert (0 <= c * R)%Q by now apply Qmult_le_0_compat.
  assert (0 <= c * V)%Q by now apply Qmult_le_0_compat.
  assert ((1 - c) * ((1 - (1 # 4503599627370496)) * R) <= (1 - c) * (S + V))%Q.
  { rewrite !(Qmult_comm (1 - c)). apply Qmult_le_compat_r; [exact HRV | lra]. }
  lra.
Qed.

Lemma F2Q_nonneg (x : float) : nonneg_finite (Prim2SF x) -> (0 <= F2Q x)%Q.
Proof. apply SF2Q_nonneg. Qed.

Lemma Qsum_nonneg (l : list float) :
  Forall (fun v => nonneg_finite (Prim2SF v)) l -> (0 <= Qsum (map F2Q l))%Q.
Proof.
  unfold Qsum. induction 1 as [| v l Hv _ IH]; cbn [map fold_right]; [apply Qle_refl|].
  apply F2Q_nonneg in Hv. lra.
Qed.

Lemma inject_succ (n : nat) :
  inject_Z (Z.of_nat (S n)) = (inject_Z (Z.of_nat n) + 1)%Q.
Proof. now rewrite Nat2Z.inj_succ, <- Z.add_1_r, inject_Z_plus. Qed.

Lemma inject_nat_nonneg (n : nat) : (0 <= inject_Z (Z.of_nat n))%Q.
Proof. rewrite <- (Zle_Qle 0). lia. Qed.

(** An infinity stays one when doubles that are not negative are added. *)
Lemma fold_add_infinity (l : list float) (acc : float) :
  Prim2SF acc = S754_infinity false ->
  Forall (fun v => nonneg_finite (Prim2SF v)) l ->
  Prim2SF (fold_left PrimFloat.add l acc) = S754_infinity false.
Proof.
  intros Hacc Hl. revert acc Hacc.
  induction Hl as [| v l Hv _ IH]; intros acc Hacc; [exact Hacc|].
  cbn [fold_left]. apply IH. rewrite add_spec, Hacc.
  now destruct (Prim2SF v) as [s | s | | [] m e].
Qed.

(** The left-to-right sum of doubles that are not negative, against the
    exact sum [A + Qsum l]: [c] is the relative error the accumulator
    starts with, and each addition adds [eps] to it. *)
Lemma fold_add_bounds (l : list float) :
  forall (acc : float) (A c : Q),
    nonneg_finite (Prim2SF acc) ->
    Forall (fun v => nonneg_finite (Prim2SF v)) l ->
    (0 <= c)%Q -> (c + inject_Z (Z.of_nat (length l)) * eps <= 1 # 2)%Q ->
    ((1 - c) * A <= F2Q acc)%Q -> ((1 - c) * F2Q acc <= A)%Q ->
    nonneg_finite (Prim2SF (fold_left PrimFloat.add l acc))
    \/ (A + Qsum (map F2Q l) <= 2 ^ 1022)%Q ->
    nonneg_finite (Prim2SF (fold_left PrimFloat.add l acc))
    /\ ((1 - (c + inject_Z (Z.of_nat (length l)) * eps)) * (A + Qsum (map F2Q l))
        <= F2Q (fold_left PrimFloat.add l acc))%Q
    /\ ((1 - (c + inject_Z (Z.of_nat (length l)) * eps))
        * F2Q (fold_left PrimFloat.add l acc)
        <= A + Qsum (map F2Q l))%Q.
Proof.
  induction l as [| v l IH]; intros acc A c Hacc Hl Hc Hbound Hlow Hup Hmode.
  - cbn [fold_left length map Qsum fold_right Z.of_nat] in *.
    change (inject_Z (Z.of_nat 0)) with 0%Q in *. clear Hmode.
    split; [exact Hacc|]. split; lra.
  - apply Forall_cons in Hl as [Hv Hl].
    cbn [fold_left map Qsum fold_right] in *. fold (Qsum (map F2Q l)) in *.
    cbn [length] in *. rewrite inject_succ in *.
    pose proof (F2Q_nonneg acc Hacc) as Hacc0.
    pose proof (F2Q_nonneg v Hv) as Hv0.
    pose proof (Qsum_nonneg l Hl) as Hsum0.
    pose proof (inject_nat_nonneg (length l)) as Hn0.
    set (n := inject_Z (Z.of_nat (length l))) in *.
    assert (Hhalf : (F2Q acc <= 2 * A)%Q).
    { assert ((1 # 2) * F2Q acc <= (1 - c) * F2Q acc)%Q.
      { apply Qmult_le_compat_r; [unfold eps in *; lra | exact Hacc0]. }
      lra. }
    assert (HA : (0 <= A)%Q) by lra.
    destruct (float_add_spec acc v Hacc Hv) as [[Hinf Hbig] | (Hfin & H1 & H2)].
    + exfalso. destruct Hmode as [Hfinite | Hsmall].
      * rewrite (fold_add_infinity l (acc + v) Hinf Hl) in Hfinite. exact Hfinite.
      * destruct big_powers as [Hdouble _].
        assert (Hd : (2 * 2 ^ 1022 == 2 ^ 1023)%Q) by now rewrite <- (pow2_add 1 1022).
        set (P := (2 ^ 1023)%Q) in *. set (P' := (2 ^ 1022)%Q) in *.
        clearbody P P'. lra.
    + destruct (IH (acc + v)%float (A + F2Q v)%Q (c + eps)%Q) as (Hres & Hres1 & Hres2);
        try assumption.
      * unfold eps. lra.
      * unfold eps in *. lra.
      * apply (step_lower A (F2Q v) (F2Q acc)); try assumption. unfold eps in *. lra.
      * apply (step_upper A (F2Q v) (F2Q acc)); try assumption;
          [now apply F2Q_nonneg | unfold eps in *; lra].
      * destruct Hmode as [Hfinite | Hsmall]; [now left | right]. lra.
      * split; [exact Hres|]. unfold eps in *. split; lra.
Qed.

(** *** The entries of [normalize] *)

Lemma nonneg_finite_lt (x : float) :
  nonneg_finite (Prim2SF x) ->
  (0 <=? x)%float = true /\ (x <? infinity)%float = true.
Proof.
  rewrite leb_spec, ltb_spec.
  change (Prim2SF 0) with (S754_zero false).
  change (Prim2SF infinity) with (S754_infinity false).
  now destruct (Prim2SF x) as [s | [] | | [] m e].
Qed.

Lemma positive_float (x : float) :
  (0 <? x)%float = true -> (x <? infinity)%float = true ->
  nonneg_finite (Prim2SF x) /\ (0 < F2Q x)%Q.
Proof.
  unfold F2Q. rewrite !ltb_spec.
  change (Prim2SF 0) with (S754_zero false).
  change (Prim2SF infinity) with (S754_infinity false).
  destruct (Prim2SF x) as [s | [] | | [] m e]; cbn [SFltb SFcompare]; try easy.
  intros _ _. split; [exact I|]. rewrite SF2Q_finite.
  apply Qmult_lt_0_compat; [now rewrite <- (Zlt_Qlt 0) | apply pow2_pos].
Qed.

(** An infinity stays one when doubles that are not below zero, the
    infinity included, are added. *)
Lemma fold_add_stays_infinite (l : list float) (acc : float) :
  Prim2SF acc = S754_infinity false ->
  Forall (fun v => (0 <=? v)%float = true) l ->
  Prim2SF (fold_left PrimFloat.add l acc) = S754_infinity false.
Proof.
  intros Hacc Hl. revert acc Hacc.
  induction Hl as [| v l Hv _ IH]; intros acc Hacc; [exact Hacc|].
  cbn [fold_left]. apply IH. rewrite add_spec, Hacc.
  rewrite leb_spec in Hv. change (Prim2SF 0) with (S754_zero false) in Hv.
  now destruct (Prim2SF v) as [s | [] | | [] m e].
Qed.

(** A finite sum of doubles that are not below zero has finite terms. *)
Lemma fold_add_finite_terms (l : list float) :
  forall acc : float,
    nonneg_finite (Prim2SF acc) ->
    Forall (fun v => (0 <=? v)%float = true) l ->
    nonneg_finite (Prim2SF (fold_left PrimFloat.add l acc)) ->
    Forall (fun v => nonneg_finite (Prim2SF v)) l.
Proof.
  induction l as [| v l IH]; intros acc Hacc Hl Hfinite; [constructor|].
  apply Forall_cons in Hl as [Hv Hl]. cbn [fold_left] in Hfinite.
  assert (Hcases : nonneg_finite (Prim2SF v) \/ Prim2SF v = S754_infinity false).
  { rewrite leb_spec in Hv. change (Prim2SF 0) with (S754_zero false) in Hv.
    destruct (Prim2SF v) as [s | [] | | [] m e]; cbn in *; try easy; auto. }
  destruct Hcases as [Hfin | Hinf].
  - constructor; [exact Hfin|].
    destruct (float_add_spec acc v Hacc Hfin) as [[Hsum _] | [Hsum _]].
    + rewrite (fold_add_stays_infinite l _ Hsum Hl) in Hfinite. destruct Hfinite.
    + exact (IH _ Hsum Hl Hfinite).
  - exfalso.
    assert (Hsum : Prim2SF (acc + v) = S754_infinity false).
    { rewrite add_spec, Hinf. now destruct (Prim2SF acc) as [s | [] | | [] m e]. }
    rewrite (fold_add_stays_infinite l _ Hsum Hl) in Hfinite. destruct Hfinite.
Qed.

Lemma element_le_Qsum (l : list float) (v : float) :
  Forall (fun v => nonneg_finite (Prim2SF v)) l -> In v l ->
  (F2Q v <= Qsum (map F2Q l))%Q.
Proof.
  unfold Qsum. induction 1 as [| u l Hu Hl IH]; intros Hin; [destruct Hin|].
  cbn [map fold_right]. apply F2Q_nonneg in Hu.
  pose proof (Qsum_nonneg l Hl) as Hsum. unfold Qsum in Hsum.
  destruct Hin as [-> | Hin]; [lra | specialize (IH Hin); lra].
Qed.

(** The quotients of [normalize]: each within one rounding, or one
    underflow, of the exact quotient. *)
Lemma quotients_spec (l : list float) (sum : float) :
  Forall (fun v => nonneg_finite (Prim2SF v)) l ->
  nonneg_finite (Prim2SF sum) -> (0 < F2Q sum)%Q ->
  Forall (fun v => (F2Q v <= 2 * F2Q sum)%Q) l ->
  Forall (fun q => nonneg_finite (Prim2SF q)) (map (fun v => (v / sum)%float) l)
  /\ ((1 - eps) * (Qsum (map F2Q l) / F2Q sum) - inject_Z (Z.of_nat (length l)) * eta
      <= Qsum (map F2Q (map (fun v => (v / sum)%float) l)))%Q
  /\ ((1 - eps) * Qsum (map F2Q (map (fun v => (v / sum)%float) l))
      <= Qsum (map F2Q l) / F2Q sum + inject_Z (Z.of_nat (length l)) * eta)%Q.
Proof.
  intros Hl Hsum Hpos Hsmall. unfold Qsum.
  induction Hl as [| v l Hv Hl IH].
  - cbn. split; [constructor|]. unfold Qdiv. rewrite !Qmult_0_l, !Qmult_0_r.
    split; apply Qle_refl.
  - apply Forall_cons in Hsmall as [Hv2 Hsmall].
    destruct (IH Hsmall) as (Hfinite & Hlow & Hup).
    cbn [map fold_right length]. rewrite inject_succ.
    destruct (float_div_spec v sum Hv Hsum Hpos) as [[_ Hbig] | (Hq & H1 & H2 & _)].
    + exfalso. destruct big_powers as [Hdouble Hp].
      assert (Hle : (F2Q v / F2Q sum <= 2)%Q).
      { apply Qle_shift_div_r; [exact Hpos | exact Hv2]. }
      assert (H2le : (2 <= 2 ^ 1023)%Q).
      { change 2%Q with (2 ^ 1)%Q at 1. now apply Qpower_le_compat_l. }
      set (P := (2 ^ 1023)%Q) in *. clearbody P. lra.
    + split; [now constructor|].
      assert (Hadd : ((F2Q v + fold_right Qplus 0 (map F2Q l)) / F2Q sum
                      == F2Q v / F2Q sum + fold_right Qplus 0 (map F2Q l) / F2Q sum)%Q).
      { unfold Qdiv. ring. }
      rewrite Hadd. unfold eps, eta in *.
      set (h := (2 ^ (-1074))%Q) in *. clearbody h. split; lra.
Qed.

Lemma Qmult_le_compat_l_weak (x y z : Q) :
  (0 <= z -> x <= y -> z * x <= z * y)%Q.
Proof.
  intros Hz Hle. rewrite (Qmult_comm z x), (Qmult_comm z y).
  now apply Qmult_le_compat_r.
Qed.

(** From [d * S <= 1 + b] with [d] close to one to [S] close to one. *)
Lemma upper_from_product (S d b : Q) :
  (0 <= S -> 0 <= d -> d <= 1 # 2 -> 0 <= b ->
   (1 - d) * S <= 1 + b -> S <= 1 + 2 * d + 2 * b)%Q.
Proof.
  intros HS Hd Hd2 Hb Hprod.
  destruct (Qlt_le_dec (1 + 2 * d + 2 * b) S) as [Hgt | Hle]; [exfalso | exact Hle].
  assert (Hmul : (0 < (1 - d) * (S - (1 + 2 * d + 2 * b)))%Q).
  { apply Qmult_lt_0_compat; lra. }
  assert (0 <= d * (1 - 2 * d))%Q by (apply Qmult_le_0_compat; lra).
  assert (0 <= b * (1 - 2 * d))%Q by (apply Qmult_le_0_compat; lra).
  lra.
Qed.

(** The sum of the normalized entries against one: [a] is the error of
    a sum of [n] terms, [b] the underflow of [n] quotients. *)
Lemma close_to_one (S T w a b : Q) :
  (0 <= S -> 0 <= T -> 0 <= w -> 0 <= a -> 2 * a + eps <= 1 # 2 -> 0 <= b ->
   (1 - a) * T <= S -> (1 - a) * S <= T ->
   (1 - eps) * w - b <= T -> (1 - eps) * T <= w + b ->
   1 - a <= w -> (1 - a) * w <= 1 ->
   - (4 * a + 2 * eps + 2 * b) <= S - 1 <= 4 * a + 2 * eps + 2 * b)%Q.
Proof.
  intros HS HT Hw Ha Ha2 Hb L1 U1 L2 U2 L3 U3. unfold eps in *. split.
  - assert (P1 : ((1 - a) * ((1 - (1 # 4503599627370496)) * w - b) <= (1 - a) * T)%Q).
    { apply Qmult_le_compat_l_weak; lra. }
    assert (P2 : ((1 - a) * (1 - a) <= (1 - a) * w)%Q).
    { apply Qmult_le_compat_l_weak; lra. }
    assert (0 <= a * a)%Q by now apply Qmult_le_0_compat.
    assert (0 <= a * b)%Q by now apply Qmult_le_0_compat.
    lra.
  - assert (P1 : ((1 - a) * ((1 - (1 # 4503599627370496)) * T) <= (1 - a) * (w + b))%Q).
    { apply Qmult_le_compat_l_weak; lra. }
    assert (P2 : ((1 - (1 # 4503599627370496)) * (1 - a) * ((1 - a) * S)
                  <= (1 - (1 # 4503599627370496)) * (1 - a) * T)%Q).
    { apply Qmult_le_compat_l_weak; [| exact U1].
      apply Qmult_le_0_compat; lra. }
    assert (0 <= a * b)%Q by now apply Qmult_le_0_compat.
    assert (0 <= a * S)%Q by now apply Qmult_le_0_compat.
    assert (0 <= a * a * S)%Q.
    { apply Qmult_le_0_compat; [now apply Qmult_le_0_compat | exact HS]. }
    assert (Hprod : ((1 - (2 * a + (1 # 4503599627370496))) * S <= 1 + b)%Q) by lra.
    pose proof (upper_from_product S (2 * a + (1 # 4503599627370496)) b HS) as Hup.
    lra.
Qed.

Lemma zero_nonneg_finite : nonneg_finite (Prim2SF 0).
Proof. exact I. Qed.

Lemma small_counts (n : Z) :
  0 <= n < 2 ^ 50 ->
  (inject_Z n * eps <= (1 # 4) - eps)%Q /\ (inject_Z n * eta <= eps)%Q
  /\ (0 <= inject_Z n)%Q.
Proof.
  intros Hn.
  assert (Hle : (inject_Z n <= inject_Z (2 ^ 50) - 1)%Q).
  { assert (Hle : (inject_Z n <= inject_Z (2 ^ 50 - 1))%Q) by (rewrite <- Zle_Qle; lia).
    change (inject_Z (2 ^ 50 - 1)) with (1125899906842623 # 1) in Hle.
    change (inject_Z (2 ^ 50)) with (1125899906842624 # 1). lra. }
  assert (H0 : (0 <= inject_Z n)%Q) by (rewrite <- (Zle_Qle 0); lia).
  assert (Heta : (inject_Z (2 ^ 50) * eta <= eps)%Q).
  { apply Qle_bool_iff. vm_compute. reflexivity. }
  destruct small_powers as [_ Hpos].
  assert (Hmul : (inject_Z n * eta <= inject_Z (2 ^ 50) * eta)%Q).
  { change (inject_Z (2 ^ 50)) with (1125899906842624 # 1) in *.
    apply Qmult_le_compat_r; lra. }
  change (inject_Z (2 ^ 50)) with (1125899906842624 # 1) in *.
  unfold eps in *. repeat split; lra.
Qed.

(** The entries [normalize] returns for weights that are not negative sum
    to one up to the roundings of the two sums and of the quotients. *)
Lemma normalize_sum_close (values : list float) :
  Forall (fun v => (0 <=? v)%float = true) values ->
  (0 <? d_sum values)%float = true ->
  (d_sum values <? infinity)%float = true ->
  Z.of_nat (length values) < 2 ^ 50 ->
  let normalized := map (fun v => (v / d_sum values)%float) values in
  (0 <=? d_sum normalized)%float = true
  /\ (d_sum normalized <? infinity)%float = true
  /\ (Qabs (F2Q (d_sum normalized) - 1)
      <= inject_Z (Z.of_nat (length values) + 1) * (1 # 1125899906842624))%Q.
Proof.
  intros Hnonneg Hpos Hfin Hlength normalized.
  destruct (positive_float _ Hpos Hfin) as [Hsum Hsumpos].
  destruct (small_counts (Z.of_nat (length values)) ltac:(lia)) as (Ha & Hb & Hn0).
  set (n := inject_Z (Z.of_nat (length values))) in *.
  (* the terms are finite *)
  pose proof (fold_add_finite_terms values 0%float zero_nonneg_finite Hnonneg Hsum)
    as Hterms.
  (* the sum of the weights *)
  destruct (fold_add_bounds values 0%float 0%Q 0%Q zero_nonneg_finite Hterms)
    as (_ & Hlow & Hup).
  { lra. }
  { fold n. unfold eps in *. lra. }
  { change (F2Q 0) with 0%Q. lra. }
  { change (F2Q 0) with 0%Q. lra. }
  { now left. }
  change (fold_left PrimFloat.add values 0%float) with (d_sum values) in Hlow, Hup.
  fold n in Hlow, Hup.
  set (sigma := F2Q (d_sum values)) in *.
  set (V := Qsum (map F2Q values)) in *.
  assert (HV : (0 <= V)%Q) by now apply Qsum_nonneg.
  assert (Hdouble : (V <= 2 * sigma)%Q).
  { assert ((1 # 2) * V <= (1 - n * eps) * V)%Q; [| lra].
    apply Qmult_le_compat_r; [unfold eps in *; lra | exact HV]. }
  (* the quotients *)
  destruct (quotients_spec values (d_sum values) Hterms Hsum Hsumpos)
    as (Hquotients & Hqlow & Hqup).
  { apply Forall_forall. intros v Hin. fold sigma.
    pose proof (element_le_Qsum values v Hterms ltac:(now apply list_elem_of_In)).
    fold V in H. lra. }
  fold normalized sigma V n in Hquotients, Hqlow, Hqup.
  set (T := Qsum (map F2Q normalized)) in *.
  assert (HT : (0 <= T)%Q) by now apply Qsum_nonneg.
  set (w := (V / sigma)%Q) in *.
  assert (Hw1 : (1 - n * eps <= w)%Q).
  { apply Qle_shift_div_l; [exact Hsumpos | lra]. }
  assert (Hw2 : ((1 - n * eps) * w <= 1)%Q).
  { unfold w, Qdiv. rewrite Qmult_assoc. apply Qle_shift_div_r; [exact Hsumpos | lra]. }
  assert (Hw0 : (0 <= w)%Q) by (unfold eps in *; lra).
  assert (HTsmall : (T <= 2 ^ 1022)%Q).
  { assert (H8 : (8 <= 2 ^ 1022)%Q).
    { change 8%Q with (2 ^ 3)%Q. now apply Qpower_le_compat_l. }
    assert (Hw3 : ((1 # 2) * w <= (1 - n * eps) * w)%Q).
    { apply Qmult_le_compat_r; [unfold eps in *; lra | exact Hw0]. }
    set (P := (2 ^ 1022)%Q) in *. clearbody P. unfold eps in *. lra. }
  (* the sum of the quotients *)
  destruct (fold_add_bounds normalized 0%float 0%Q 0%Q zero_nonneg_finite Hquotients)
    as (Hresult & Hslow & Hsup).
  { lra. }
  { unfold normalized. rewrite length_map. fold n. unfold eps in *. lra. }
  { change (F2Q 0) with 0%Q. lra. }
  { change (F2Q 0) with 0%Q. lra. }
  { right. fold T. lra. }
  change (fold_left PrimFloat.add normalized 0%float) with (d_sum normalized)
    in Hresult, Hslow, Hsup.
  fold T in Hslow, Hsup.
  unfold normalized in Hslow, Hsup. rewrite length_map in Hslow, Hsup.
  fold normalized n in Hslow, Hsup.
  set (S := F2Q (d_sum normalized)) in *.
  assert (HS : (0 <= S)%Q) by now apply F2Q_nonneg.
  destruct (nonneg_finite_lt _ Hresult) as [Hres1 Hres2].
  split; [exact Hres1|]. split; [exact Hres2|].
  destruct small_powers as [_ Heta].
  assert (Hb0 : (0 <= n * eta)%Q) by (apply Qmult_le_0_compat; lra).
  destruct (close_to_one S T w (n * eps) (n * eta)) as [Hclose1 Hclose2];
    try assumption; try (unfold eps in *; lra).
  apply Qabs_Qle_condition.
  rewrite inject_Z_plus. fold n. change (inject_Z 1) with 1%Q.
  unfold eps in *. split; lra.
Qed.

(** *** The entries of [degreeDistributionToProbability] *)

(** One entry of the probability vector: two conversions and a division,
    three roundings in all. *)
Lemma probability_entry (c T : Z) :
  0 < c -> c <= T -> T < 2 ^ 64 ->
  nonneg_finite (Prim2SF (IEEE.of_Z c / IEEE.of_Z T))
  /\ ((1 - 3 * eps) * (inject_Z c / inject_Z T) <= F2Q (IEEE.of_Z c / IEEE.of_Z T))%Q
  /\ ((1 - 3 * eps) * F2Q (IEEE.of_Z c / IEEE.of_Z T) <= inject_Z c / inject_Z T)%Q.
Proof.
  intros Hc HcT HT.
  destruct (of_Z_spec c) as (Hfc & Hc1 & Hc2); [lia|].
  destruct (of_Z_spec T) as (HfT & HT1 & HT2); [lia|].
  assert (HX : (1 <= inject_Z c)%Q) by (rewrite <- (Zle_Qle 1); lia).
  assert (HXY : (inject_Z c <= inject_Z T)%Q) by (rewrite <- Zle_Qle; lia).
  assert (HY : (inject_Z T <= inject_Z (2 ^ 64))%Q) by (rewrite <- Zle_Qle; lia).
  change (inject_Z (2 ^ 64)) with (18446744073709551616 # 1) in HY.
  set (X := inject_Z c) in *. set (Y := inject_Z T) in *.
  set (X' := F2Q (IEEE.of_Z c)) in *. set (Y' := F2Q (IEEE.of_Z T)) in *.
  assert (HY' : (0 < Y')%Q) by (unfold eps in *; lra).
  assert (HX' : (0 <= X')%Q) by (unfold eps in *; lra).
  assert (Hw : (0 <= X / Y)%Q).
  { apply Qle_shift_div_l; lra. }
  assert (Hw' : (0 <= X' / Y')%Q).
  { apply Qle_shift_div_l; lra. }
  assert (HwY : (X / Y * Y == X)%Q) by (field; lra).
  assert (HwY' : (X' / Y' * Y' == X')%Q) by (field; lra).
  assert (Hlow : ((1 - eps) * (1 - eps) * (X / Y) <= X' / Y')%Q).
  { apply Qle_shift_div_l; [exact HY'|].
    assert (H1 : (X / Y * ((1 - eps) * Y') <= X / Y * Y)%Q)
      by (apply Qmult_le_compat_l_weak; assumption).
    unfold eps in *. lra. }
  assert (Hup : ((1 - eps) * (1 - eps) * (X' / Y') <= X / Y)%Q).
  { apply Qle_shift_div_l; [lra|].
    assert (H1 : (X' / Y' * ((1 - eps) * Y) <= X' / Y' * Y')%Q)
      by (apply Qmult_le_compat_l_weak; assumption).
    unfold eps in *. lra. }
  destruct (float_div_spec (IEEE.of_Z c) (IEEE.of_Z T) Hfc HfT HY')
    as [[_ Hbig] | (Hq & _ & _ & Hnormal)].
  - exfalso. fold X' Y' in Hbig.
    assert (Hle : (X' / Y' <= 4)%Q).
    { apply Qle_shift_div_r; [exact HY' | unfold eps in *; lra]. }
    assert (H4 : (4 <= 2 ^ 1023)%Q).
    { change 4%Q with (2 ^ 2)%Q. now apply Qpower_le_compat_l. }
    set (P := (2 ^ 1023)%Q) in *. clearbody P. lra.
  - fold X' Y' in Hnormal.
    destruct Hnormal as [H1 H2].
    { apply Qle_trans with (1 # 73786976294838206464)%Q.
      - change (1 # 73786976294838206464)%Q with (2 ^ (-66))%Q.
        now apply Qpower_le_compat_l.
      - apply Qle_shift_div_l; [exact HY' | unfold eps in *; lra]. }
    set (q := F2Q (IEEE.of_Z c / IEEE.of_Z T)) in *.
    assert (Hq0 : (0 <= q)%Q) by now apply F2Q_nonneg.
    split; [exact Hq|]. unfold eps in *. split; lra.
Qed.

Lemma count_le_sum (l : list (Z * Z)) (pair : Z * Z) :
  Forall (fun pair => 0 < pair.2) l -> pair ∈ l ->
  pair.2 <= foldr (fun pair total => pair.2 + total) 0 l.
Proof.
  induction 1 as [| head l Hhead Hl IH]; intros Hin; [now apply elem_of_nil in Hin|].
  pose proof (count_sum_nonneg l Hl) as Hrest. cbn [foldr].
  apply elem_of_cons in Hin as [-> | Hin]; [lia | specialize (IH Hin); lia].
Qed.

(** The entries of the probability vector against the exact quotients. *)
Lemma probabilities_spec (l : list (Z * Z)) (T : Z) :
  Forall (fun pair => 0 < pair.2 <= T) l -> T < 2 ^ 64 ->
  Forall (fun q => nonneg_finite (Prim2SF q))
         (map (fun pair : Z * Z => (IEEE.of_Z pair.2 / IEEE.of_Z T)%float) l)
  /\ ((1 - 3 * eps)
      * (inject_Z (foldr (fun pair total => pair.2 + total) 0 l)%Z / inject_Z T)
      <= Qsum (map F2Q (map (fun pair : Z * Z =>
                               (IEEE.of_Z pair.2 / IEEE.of_Z T)%float) l)))%Q
  /\ ((1 - 3 * eps)
      * Qsum (map F2Q (map (fun pair : Z * Z =>
                              (IEEE.of_Z pair.2 / IEEE.of_Z T)%float) l))
      <= inject_Z (foldr (fun pair total => pair.2 + total) 0 l)%Z / inject_Z T)%Q.
Proof.
  intros Hl HT. unfold Qsum.
  induction Hl as [| pair l [Hpos Hle] Hl IH].
  - cbn. split; [constructor|]. unfold Qdiv. rewrite !Qmult_0_l, !Qmult_0_r.
    split; apply Qle_refl.
  - destruct IH as (Hfinite & Hlow & Hup).
    destruct (probability_entry pair.2 T Hpos Hle HT) as (Hq & H1 & H2).
    cbn [map fold_right foldr].
    split; [now constructor|].
    rewrite inject_Z_plus.
    assert (Hadd : ((inject_Z pair.2
                     + inject_Z (foldr (fun pair total => pair.2 + total) 0 l)%Z)
                    / inject_Z T
                    == inject_Z pair.2 / inject_Z T
                       + inject_Z (foldr (fun pair total => pair.2 + total) 0 l)%Z
                         / inject_Z T)%Q).
    { unfold Qdiv. ring. }
    rewrite Hadd. unfold eps in *. split; lra.
Qed.

(** The entries of the probability vector of a distribution sum to one
    up to the roundings of the conversions, the quotients and the sum. *)
Lemma probabilities_sum_close (distribution : gmap Z Z) :
  (forall key count, distribution !! key = Some count -> 0 < count) ->
  distribution <> ∅ ->
  total_count distribution < 2 ^ 64 ->
  Z.of_nat (size distribution) < 2 ^ 50 ->
  let probabilities :=
    map (fun pair : Z * Z =>
           (d_of_size_t pair.2 / d_of_size_t (totalVertices distribution))%dbl)
        (map_pairs distribution) in
  (0 <=? d_sum probabilities)%float = true
  /\ (d_sum probabilities <? infinity)%float = true
  /\ (Qabs (F2Q (d_sum probabilities) - 1)
      <= inject_Z (Z.of_nat (size distribution) + 3) * (1 # 2251799813685248))%Q.
Proof.
  intros Hpos Hne Hbound Hsize probabilities.
  pose proof (totalVertices_exact distribution Hpos Hbound) as Htotal.
  pose proof (total_count_positive distribution Hpos Hne) as Htotalpos.
  pose proof (positive_counts distribution Hpos) as Hcounts.
  assert (Hsum : foldr (fun pair total => pair.2 + total) 0 (map_pairs distribution)
                 = total_count distribution).
  { apply count_sum_Permutation, map_pairs_Permutation. }
  set (T := total_count distribution) in *.
  assert (Hentries : Forall (fun pair => 0 < pair.2 <= T) (map_pairs distribution)).
  { apply Forall_forall. intros pair Hin.
    split; [exact (proj1 (Forall_forall _ _) Hcounts pair Hin)|].
    rewrite <- Hsum. now apply count_le_sum. }
  destruct (probabilities_spec (map_pairs distribution) T Hentries ltac:(lia))
    as (Hfinite & Hlow & Hup).
  rewrite Hsum in Hlow, Hup.
  assert (Hone : (inject_Z T / inject_Z T == 1)%Q).
  { field. apply Qnot_eq_sym, Qlt_not_eq. rewrite <- (Zlt_Qlt 0). lia. }
  rewrite Hone, Qmult_1_r in Hlow. rewrite Hone in Hup.
  assert (Hprob : probabilities
                  = map (fun pair : Z * Z => (IEEE.of_Z pair.2 / IEEE.of_Z T)%float)
                        (map_pairs distribution)).
  { unfold probabilities. now rewrite Htotal. }
  rewrite <- Hprob in Hfinite, Hlow, Hup.
  destruct (small_counts (Z.of_nat (size distribution))) as (Ha & _ & Hn0).
  { split; [apply Nat2Z.is_nonneg | exact Hsize]. }
  assert (Hlength : length probabilities = size distribution).
  { rewrite Hprob, length_map. apply map_pairs_length. }
  set (Q := Qsum (map F2Q probabilities)) in *.
  assert (HQ : (0 <= Q)%Q) by now apply Qsum_nonneg.
  destruct (fold_add_bounds probabilities 0%float 0%Q 0%Q zero_nonneg_finite Hfinite)
    as (Hresult & Hslow & Hsup).
  { lra. }
  { rewrite Hlength. unfold eps in *. lra. }
  { change (F2Q 0) with 0%Q. lra. }
  { change (F2Q 0) with 0%Q. lra. }
  { right. fold Q.
    assert (H2 : (2 <= 2 ^ 1022)%Q).
    { change 2%Q with (2 ^ 1)%Q at 1. now apply Qpower_le_compat_l. }
    set (P := (2 ^ 1022)%Q) in *. clearbody P. unfold eps in *. lra. }
  change (fold_left PrimFloat.add probabilities 0%float) with (d_sum probabilities)
    in Hresult, Hslow, Hsup.
  fold Q in Hslow, Hsup. rewrite Hlength in Hslow, Hsup.
  set (n := inject_Z (Z.of_nat (size distribution))) in *.
  set (S := F2Q (d_sum probabilities)) in *.
  assert (HS : (0 <= S)%Q) by now apply F2Q_nonneg.
  destruct (nonneg_finite_lt _ Hresult) as [Hres1 Hres2].
  split; [exact Hres1|]. split; [exact Hres2|].
  assert (P1 : ((1 - n * eps) * (1 - 3 * eps) <= (1 - n * eps) * Q)%Q).
  { apply Qmult_le_compat_l_weak; unfold eps in *; lra. }
  assert (P2 : ((1 - 3 * eps) * ((1 - n * eps) * S) <= (1 - 3 * eps) * Q)%Q).
  { apply Qmult_le_compat_l_weak; unfold eps in *; lra. }
  assert (P3 : (0 <= n * eps * S)%Q).
  { apply Qmult_le_0_compat; [unfold eps in *; lra | exact HS]. }
  assert (Hprod : ((1 - (n * eps + 3 * eps)) * S <= 1 + 0)%Q).
  { unfold eps in *. lra. }
  pose proof (upper_from_product S (n * eps + 3 * eps) 0 HS) as Hupper.
  apply Qabs_Qle_condition.
  rewrite inject_Z_plus. fold n. change (inject_Z 3) with 3%Q.
  unfold eps in *. split; lra.
Qed.

(** ** The numeric helpers against the specification *)

(** C1.  On IEEE doubles and for whatever [log] computes: [KLDivergence]
    throws exactly when some index below [max(len P, len Q)] has [P[i]]
    nonzero and [Q[i]] zero (entries past the end of a vector counting as
    [0.0]), the exception being [std::invalid_argument]; otherwise it
    returns the sum, accumulated from [0.0] in index order, of
    [P[i] * log(P[i] / Q[i])] over the indices where [P[i]] is nonzero,
    an index where [P[i]] is zero adding nothing whatever [Q[i]] is. *)
Theorem KLDivergence_spec (log : float -> float) (P Q : list float) :
  (kl_undefined P Q <-> exists e, KLDivergence log P Q = Thrown e)
  /\ (kl_undefined P Q ->
      KLDivergence log P Q
      = Thrown (invalid_argument "Q[i] must be non-zero where P[i] is non-zero."))
  /\ (~ kl_undefined P Q -> KLDivergence log P Q = Returned (kl_sum log P Q)).
Proof. apply KLDivergence_correct. exact float_mul_one_r. Qed.

(** The example of section 8: [ln 2] one way round, an exception the other. *)
Lemma KLDivergence_spec_witness :
  KLDivergence Demo.log [1; 0]%float [0.5; 0.5]%float
  = Returned (kl_sum Demo.log [1; 0]%float [0.5; 0.5]%float)
  /\ kl_sum Demo.log [1; 0]%float [0.5; 0.5]%float
     = (0 + 1 * Demo.log 2)%float
  /\ KLDivergence Demo.log [0.5; 0.5]%float [1; 0]%float
     = Thrown (invalid_argument "Q[i] must be non-zero where P[i] is non-zero.").
Proof.
  destruct (KLDivergence_spec Demo.log [1; 0]%float [0.5; 0.5]%float)
    as (_ & _ & Hreturns).
  destruct (KLDivergence_spec Demo.log [0.5; 0.5]%float [1; 0]%float)
    as (_ & Hthrows & _).
  split; [| split; [reflexivity|]].
  - apply Hreturns. intros (i & Hi & Hp & Hq).
    destruct i as [| [| i]]; [discriminate Hq | discriminate Hp | cbn in Hi; lia].
  - apply Hthrows. exists 1%nat. split; [cbn; lia|]. split; reflexivity.
Defined.

Example KLDivergence_skips_zero (log : float -> float) :
  KLDivergence log [0; 1]%float [0; 4]%float = Returned (0 + 1 * log 0.25)%float
  /\ kl_sum log [0; 1]%float [0; 4]%float = (0 + 1 * log 0.25)%float.
Proof. split; reflexivity. Qed.

(** C9, as amended.  For every weight sequence, on IEEE doubles as on any
    other carrier, [normalize] returns a vector of the length of its
    input whose entry [i] is input [i] divided by the sum of all inputs,
    accumulated left to right from [0.0].  In doubles, for weights that
    are not negative and whose sum is positive and finite, the entries
    returned sum to [1.0] within floating-point tolerance: their sum,
    accumulated left to right, is a finite double that differs from 1 by
    at most [(n + 1) * 2^-50], [n < 2^50] being the number of weights. *)
Theorem normalize_spec :
  (forall (D : Type) (HD : Double D) (values : list D),
     exists normalized,
       normalize values = Returned normalized
       /\ length normalized = length values
       /\ (forall i, (i < length values)%nat ->
             nth i normalized d_zero = (nth i values d_zero / d_sum values)%dbl))
  /\ (forall values : list float,
        Forall (fun value => (0 <=? value)%float = true) values ->
        (0 <? d_sum values)%float = true ->
        (d_sum values <? infinity)%float = true ->
        Z.of_nat (length values) < 2 ^ 50 ->
        exists normalized,
          normalize values = Returned normalized
          /\ (0 <=? d_sum normalized)%float = true
          /\ (d_sum normalized <? infinity)%float = true
          /\ (Qabs (F2Q (d_sum normalized) - 1)
              <= inject_Z (Z.of_nat (length values) + 1) * (1 # 2 ^ 50))%Q).
Proof.
  split.
  - intros D HD values. eexists. split; [apply normalize_returns|].
    split; [apply length_map|].
    intros i Hi.
    rewrite (nth_indep _ d_zero (d_zero / d_sum values)%dbl) by now rewrite length_map.
    apply (map_nth (fun value => (value / d_sum values)%dbl)).
  - intros values Hnonneg Hpos Hfinite Hlength. eexists.
    split; [apply normalize_returns|].
    now apply normalize_sum_close.
Qed.

(** The weights 1 and 3 in doubles: 0.25 and 0.75, within [3 * 2^-50] of
    a sum of 1. *)
Lemma normalize_spec_witness :
  exists normalized : list float,
    normalize [1; 3]%float = Returned normalized
    /\ normalized = [0.25; 0.75]%float
    /\ (d_sum normalized <? infinity)%float = true
    /\ (Qabs (F2Q (d_sum normalized) - 1) <= 3 * (1 # 2 ^ 50))%Q.
Proof.
  destruct normalize_spec as [_ Hclose].
  destruct (Hclose [1; 3]%float) as (normalized & Hret & _ & Hfinite & Hsum).
  - repeat constructor.
  - reflexivity.
  - reflexivity.
  - cbn. lia.
  - exists normalized. split; [exact Hret|].
    split; [| split; [exact Hfinite | exact Hsum]].
    vm_compute in Hret. now injection Hret.
Defined.

(** Against C9 as stated, in IEEE doubles.  Two weights of [1e308] have
    the positive sum [+infinity]: every quotient by it is [0.0] and the
    entries returned sum to [0.0].  The weights [2^53 + 2], [-2^53] and
    [1] have the sum [3.0], exactly; the quotients of the two large
    ones are rounded, apart, to [3002399751580331.5] and
    [-3002399751580330.5], and the entries returned sum to
    [1.3333333333333333]. *)
Lemma normalize_sum_off :
  (let values := [1e308; 1e308]%float in
   Forall (fun value => (0 <=? value)%float = true) values
   /\ d_sum values = infinity
   /\ (0 <? d_sum values)%float = true
   /\ normalize values = Returned [0; 0]%float
   /\ d_sum [0; 0]%float = 0%float)
  /\ (let values := [9007199254740994; -9007199254740992; 1]%float in
      d_sum values = 3%float
      /\ normalize values
         = Returned [3002399751580331.5; -3002399751580330.5;
                     0.33333333333333331]%float
      /\ d_sum [3002399751580331.5; -3002399751580330.5; 0.33333333333333331]%float
         = 1.3333333333333333%float
      /\ (0.3 <? abs (1.3333333333333333 - 1))%float = true).
Proof. repeat split; try reflexivity; repeat constructor. Qed.

(** C3, as amended.  [normalize] never throws: it returns a vector of the
    length of its input, the empty vector for the empty input, each entry
    being the IEEE quotient of the input by the sum; when that sum
    compares equal to zero every entry it returns is a NaN or an
    infinity. *)
Theorem normalize_never_fails :
  (forall (D : Type) (HD : Double D) (values : list D),
     exists normalized,
       normalize values = Returned normalized
       /\ length normalized = length values
       /\ (values = [] -> normalized = [])
       /\ normalized = map (fun value => (value / d_sum values)%dbl) values)
  /\ (forall values : list float,
        (d_sum values == d_zero)%dbl = true ->
        exists normalized,
          normalize values = Returned normalized
          /\ Forall (fun x => is_nan x = true \/ is_infinity x = true) normalized).
Proof.
  split.
  - intros D HD values. eexists. split; [apply normalize_returns|].
    split; [apply length_map|]. split; [now intros ->|reflexivity].
  - intros values Hzero. eexists. split; [apply normalize_returns|].
    apply Forall_forall. intros x Hin.
    apply list_elem_of_In, in_map_iff in Hin as [value [<- _]].
    now apply float_div_zero.
Qed.

Lemma normalize_never_fails_witness :
  exists normalized,
    normalize [0.5; -0.5]%float = Returned normalized
    /\ Forall (fun x => is_nan x = true \/ is_infinity x = true) normalized.
Proof.
  destruct normalize_never_fails as [_ Hzero].
  apply (Hzero [0.5; -0.5]%float). reflexivity.
Defined.

(** Against C3 as stated: the empty sequence and two zero-sum sequences,
    on each of which [normalize] returns. *)
Lemma normalize_no_domain_error :
  normalize (D := float) [] = Returned []
  /\ d_sum [0.5; -0.5]%float = 0%float
  /\ normalize [0.5; -0.5]%float = Returned [infinity; neg_infinity]
  /\ normalize [0; 0]%float = Returned [nan; nan]
  /\ ~ (forall values : list float,
          values = [] \/ (d_sum values == d_zero)%dbl = true ->
          exists e, normalize values = Thrown e).
Proof.
  repeat split; try reflexivity.
  intros Hclaim. destruct (Hclaim []) as [e He]; [now left | discriminate].
Qed.

(** C2, as amended.  For every distribution,
    [degreeDistributionToProbability] returns one entry per key of the
    map, in ascending key order, entry [i] being the count of the [i]-th
    key divided by [totalVertices], the sum of the counts modulo [2^64];
    with positive counts whose sum stays below [2^64] that is the total
    count.  In IEEE doubles, for such a distribution that is not empty,
    the entries sum to [1.0] within floating-point tolerance: their sum,
    accumulated left to right, is a finite double that differs from 1 by
    at most [(n + 3) * 2^-51], [n < 2^50] being the number of keys.  The
    distribution {0:2, 1:3, 2:5} yields [0.2; 0.3; 0.5], which sums to
    [1.0]. *)
Theorem degreeDistributionToProbability_spec :
  (forall (D : Type) (HD : Double D) (distribution : gmap Z Z),
     exists probabilities,
       degreeDistributionToProbability distribution = Returned probabilities
       /\ length probabilities = size distribution
       /\ StronglySorted Z.lt (map_pairs distribution).*1
       /\ (forall key count,
             (key, count) ∈ map_pairs distribution <-> distribution !! key = Some count)
       /\ probabilities
          = map (fun pair => (d_of_size_t pair.2
                              / d_of_size_t (totalVertices distribution))%dbl)
                (map_pairs distribution)
       /\ ((forall key count, distribution !! key = Some count -> 0 < count) ->
           total_count distribution < 2 ^ 64 ->
           totalVertices distribution = total_count distribution))
  /\ (forall distribution : gmap Z Z,
        (forall key count, distribution !! key = Some count -> 0 < count) ->
        distribution <> ∅ ->
        total_count distribution < 2 ^ 64 ->
        Z.of_nat (size distribution) < 2 ^ 50 ->
        exists probabilities : list float,
          degreeDistributionToProbability distribution = Returned probabilities
          /\ (0 <=? d_sum probabilities)%float = true
          /\ (d_sum probabilities <? infinity)%float = true
          /\ (Qabs (F2Q (d_sum probabilities) - 1)
              <= inject_Z (Z.of_nat (size distribution) + 3) * (1 # 2 ^ 51))%Q)
  /\ degreeDistributionToProbability example_distribution
     = Returned [0.2; 0.3; 0.5]%float
  /\ d_sum [0.2; 0.3; 0.5]%float = 1%float.
Proof.
  split; [| split; [| split; reflexivity]].
  - intros D HD distribution. eexists. split; [reflexivity|].
    split; [rewrite length_map; apply map_pairs_length|].
    split; [apply map_pairs_ascending|].
    split; [apply map_pairs_lookup|].
    split; [reflexivity|].
    apply totalVertices_exact.
  - intros distribution Hpos Hne Hbound Hsize. eexists. split; [reflexivity|].
    now apply probabilities_sum_close.
Qed.

(** The example distribution in doubles: three keys, a sum within
    [6 * 2^-51] of 1. *)
Lemma degreeDistributionToProbability_spec_witness :
  exists probabilities : list float,
    degreeDistributionToProbability example_distribution = Returned probabilities
    /\ probabilities = [0.2; 0.3; 0.5]%float
    /\ (d_sum probabilities <? infinity)%float = true
    /\ (Qabs (F2Q (d_sum probabilities) - 1) <= 6 * (1 # 2 ^ 51))%Q.
Proof.
  destruct degreeDistributionToProbability_spec as (_ & Hclose & _).
  destruct (Hclose example_distribution)
    as (probabilities & Hret & _ & Hfinite & Hsum).
  - intros key count Hlookup. apply map_pairs_lookup in Hlookup.
    replace (map_pairs example_distribution) with [(0, 2); (1, 3); (2, 5)]
      in Hlookup by (vm_compute; reflexivity).
    apply list_elem_of_In in Hlookup. cbn in Hlookup.
    destruct Hlookup as [[= <- <-] | [[= <- <-] | [[= <- <-] | []]]]; lia.
  - intros Hempty. apply (f_equal (fun m : gmap Z Z => m !! 0)) in Hempty.
    vm_compute in Hempty. discriminate.
  - vm_compute. reflexivity.
  - vm_compute. reflexivity.
  - exists probabilities. split; [exact Hret|].
    split; [| split; [exact Hfinite | exact Hsum]].
    vm_compute in Hret. now injection Hret.
Defined.

(** Against C2 as stated.  The distribution of a graph without vertices
    is the empty map; the vector returned for it is empty and its
    entries sum to [0.0], in IEEE doubles and in exact arithmetic alike.
    And the total is a [size_t]: the counts [2^63], [2^63] and [1] have
    the total [2^64 + 1], the divisor is [1], and the entries returned
    sum to [2^64]. *)
Lemma degreeDistributionToProbability_sum_off :
  (let distribution : gmap Z Z := ∅ in
   (forall key count, distribution !! key = Some count -> 0 < count)
   /\ degreeDistributionToProbability (D := float) distribution = Returned []
   /\ d_sum (D := float) [] = 0%float
   /\ degreeDistributionToProbability (D := Qc) distribution = Returned []
   /\ d_sum (D := Qc) [] <> d_one)
  /\ (let distribution : gmap Z Z :=
        {[0 := 9223372036854775808; 1 := 9223372036854775808; 2 := 1]} in
      (forall key count, distribution !! key = Some count -> 0 < count)
      /\ total_count distribution = 2 ^ 64 + 1
      /\ totalVertices distribution = 1
      /\ degreeDistributionToProbability distribution
         = Returned [9223372036854775808; 9223372036854775808; 1]%float
      /\ d_sum [9223372036854775808; 9223372036854775808; 1]%float
         = 18446744073709551616%float).
Proof.
  split; cbv zeta.
  - repeat split; try reflexivity.
    + intros key count Hlookup. now rewrite lookup_empty in Hlookup.
    + discriminate.
  - repeat split; try (vm_compute; reflexivity).
    intros key count Hlookup. apply map_pairs_lookup in Hlookup.
    replace (map_pairs {[0 := 9223372036854775808; 1 := 9223372036854775808; 2 := 1]})
      with [(0, 9223372036854775808); (1, 9223372036854775808); (2, 1)]
      in Hlookup by (vm_compute; reflexivity).
    apply list_elem_of_In in Hlookup. cbn in Hlookup.
    destruct Hlookup as [[= <- <-] | [[= <- <-] | [[= <- <-] | []]]]; lia.
Qed.

(** ** Rounds *)

Section RoundFacts.
Context {D : Type} `{Double D}.
Variable log : D -> D.
Variable C : Collaborators D.
Variable env : Environment.

Lemma KLDivergence_loop_outcome (P Q : list D) (n i : nat) (divergence : D) :
  (exists d, KLDivergence_loop log P Q n i divergence = Returned d)
  \/ KLDivergence_loop log P Q n i divergence
     = Thrown (invalid_argument "Q[i] must be non-zero where P[i] is non-zero.").
Proof.
  revert i divergence. induction n as [| n IH]; intros i divergence; cbn.
  - left. now eexists.
  - repeat case_match; auto.
Qed.

Lemma scoreFidelity_scored (real actual : list D) :
  exists report,
    scored (KLDivergence log real actual) report
    /\ scoreFidelity log real actual
       = (FidelityScored real actual (KLDivergence log real actual) :: report,
          Returned tt).
Proof.
  unfold scoreFidelity.
  destruct (KLDivergence_loop_outcome real actual
              (Nat.max (length real) (length actual)) 0 d_zero) as [[d Hd] | Hthrown];
    fold (KLDivergence log real actual) in *.
  - rewrite Hd. eexists. split; [constructor | reflexivity].
  - rewrite Hthrown. eexists. split; [constructor | reflexivity].
Qed.

Lemma handleUpdateNature_cases (distribution nature : string) (graph : Graph C)
    (rng : Rng C) (batchSize : Z) (deletions insertions : D) (weights : list D)
    (duplicates : bool) :
  (exists what,
     handleUpdateNature C distribution nature graph rng batchSize deletions
       insertions weights duplicates = ([], Thrown (runtime_error what)))
  \/ (exists graph' rng' weights',
        handleUpdateNature C distribution nature graph rng batchSize deletions
          insertions weights duplicates
        = ([BatchGenerated nature batchSize weights';
            BatchApplied (graph_size C graph')],
           Returned (graph', rng', weights'))
        /\ (nature <> ""%string -> weights' = weights)).
Proof.
  unfold handleUpdateNature.
  destruct (String.eqb_spec nature "") as [-> | Hcustom].
  { right.
    destruct (customUpdate C distribution rng graph batchSize insertions deletions
                duplicates) as [[[w ins] del] rng'] eqn:Hgen.
    do 3 eexists. split; [reflexivity | congruence]. }
  destruct (String.eqb nature "uniform").
  { right.
    destruct (uniformUpdate C rng graph batchSize insertions deletions duplicates)
      as [[ins del] rng'].
    do 3 eexists. split; [reflexivity | reflexivity]. }
  destruct (String.eqb nature "preferential").
  { right.
    destruct (preferentialUpdate C rng graph batchSize insertions deletions
                duplicates) as [[ins del] rng'].
    do 3 eexists. split; [reflexivity | reflexivity]. }
  destruct (String.eqb nature "planted").
  { right. do 3 eexists. split; [reflexivity | reflexivity]. }
  destruct (String.eqb nature "match").
  { right. do 3 eexists. split; [reflexivity | reflexivity]. }
  left. eexists. reflexivity.
Qed.

Lemma round_is_round_result (o : Options D) (st : RunState C) :
  round_result log C env o st (round log C env o st).
Proof.
  unfold round.
  replace (if st_batchSize st =? 0
           then match d_to_int64 (d_of_size_t (graph_size C (st_graph st))
                                  * batchSizeRatio o)%dbl with
                | Some batchSize => mret batchSize
                | None => undefined
                end
           else mret (st_batchSize st))
    with (match effective_batchSize C o st with
          | Some batchSize => mret batchSize
          | None => undefined (D := D)
          end)
    by (unfold effective_batchSize;
        destruct (st_batchSize st =? 0); [destruct (d_to_int64 _)|]; reflexivity).
  destruct (effective_batchSize C o st) as [batchSize |] eqn:Hbatch;
    [| now constructor].
  destruct (handleUpdateNature_cases (probabilityDistribution o) (updateNature o)
              (st_graph st) (st_rng st) (wrap_size_t batchSize) (edgeDeletions o)
              (edgeInsertions o) [] (allowDuplicateEdges o))
    as [[what Hthrown] | [graph [rng [weights [Hreturned _]]]]].
  { cbn. rewrite Hthrown. cbn. now apply round_unknown_nature. }
  cbn -[scoreFidelity]. rewrite Hreturned. cbn -[scoreFidelity].
  destruct (Z.eqb_spec (st_counter st) INT_MAX) as [Hmax | Hcounter].
  { cbn. eapply (round_counter_overflow log C env o st batchSize graph rng weights); eauto. }
  cbn -[scoreFidelity]. unfold createOutputFile.
  destruct (output_creatable env _) eqn:Hcreatable.
  2:{ cbn. eapply (round_file_failure log C env o st batchSize graph rng weights); eauto. }
  cbn -[scoreFidelity].
  destruct (scoreFidelity_scored
              (map (fun pair => (d_of_size_t pair.2 / d_of_size_t
                 (totalVertices (calculateInDegreeDistribution C graph ∅)))%dbl)
                 (map_pairs (calculateInDegreeDistribution C graph ∅)))
              (map (fun value => (value / d_sum weights)%dbl) weights))
    as [report [Hscored Hscore]].
  rewrite Hscore. cbn -[KLDivergence].
  rewrite app_nil_r.
  eapply (round_completed log C env o st batchSize graph rng weights); eauto.
Qed.

End RoundFacts.

Section TraceFacts.
Context {D : Type}.

Lemma quiet_omap {A : Type} (f : event D -> option A) (t : list (event D)) :
  (forall line, f (Console line) = None) -> quiet t -> omap f t = [].
Proof.
  intros Hf. induction 1 as [| e t [line ->] _ IH]; cbn; [reflexivity|].
  now rewrite Hf.
Qed.

Lemma quiet_app (t t' : list (event D)) : quiet t -> quiet t' -> quiet (t ++ t').
Proof. apply Forall_app_2. Qed.

Lemma bind_Returned {A B : Type} (m : M D A) (f : A -> M D B)
    (t : list (event D)) (b : B) :
  m ≫= f = (t, Returned b) ->
  exists t1 a t2, m = (t1, Returned a) /\ f a = (t2, Returned b) /\ t = t1 ++ t2.
Proof.
  destruct m as [t1 [a | e | |]]; cbn; try discriminate.
  destruct (f a) as [t2 r] eqn:Hf. intros [= <- ->]. now exists t1, a, t2.
Qed.

Lemma bind_step {A B : Type} (t : list (event D)) (a : A) (f : A -> M D B) :
  (t, Returned a) ≫= f = (t ++ (f a).1, (f a).2).
Proof. cbn. now destruct (f a). Qed.

Lemma bind_stop {A B : Type} (t : list (event D)) (r : outcome A)
    (f : A -> M D B) :
  (forall a, r <> Returned a) ->
  exists r', (t, r) ≫= f = (t, r') /\ (forall b, r' <> Returned b)
             /\ (r = Exhausted <-> r' = Exhausted).
Proof.
  intros Hr. destruct r as [a | e | |]; cbn.
  - now destruct (Hr a).
  - exists (Thrown e). repeat split; congruence.
  - exists Undefined. repeat split; congruence.
  - exists Exhausted. repeat split; congruence.
Qed.

End TraceFacts.

Section LoopFacts.
Context {D : Type} `{Double D}.
Variable log : D -> D.
Variable C : Collaborators D.
Variable env : Environment.

Lemma rounds_step (fuel : nat) (o : Options D) (st : RunState C) :
  st_multiBatch st <> 0 -> st_multiBatch st <> INT64_MIN ->
  rounds log C env (S fuel) o st
  = round log C env o (enter_round st) ≫= rounds log C env fuel o.
Proof.
  intros Hzero Hmin. cbn [rounds].
  destruct (Z.eqb_spec (st_multiBatch st) 0); [contradiction|].
  destruct (Z.eqb_spec (st_multiBatch st) INT64_MIN); [contradiction|].
  reflexivity.
Qed.

Lemma rounds_completed (fuel : nat) (o : Options D) (st : RunState C)
    (t : list (event D)) :
  rounds log C env fuel o st = (t, Returned tt) -> completed log C env o st t.
Proof.
  revert st t. induction fuel as [| fuel IH]; intros st t Hrun; [discriminate|].
  cbn [rounds] in Hrun.
  destruct (Z.eqb_spec (st_multiBatch st) 0) as [Hzero | Hzero].
  { injection Hrun as <-. now constructor. }
  destruct (Z.eqb_spec (st_multiBatch st) INT64_MIN) as [Hmin | Hmin];
    [discriminate|].
  apply bind_Returned in Hrun as [t1 [st' [t2 [Hround [Hrest ->]]]]].
  eapply completed_round; eauto.
Qed.

(** What a round that returns leaves behind. *)
Lemma round_Returned (o : Options D) (st st' : RunState C) (t : list (event D)) :
  round log C env o st = (t, Returned st') ->
  exists batchSize graph rng weights actual real report,
    effective_batchSize C o st = Some batchSize
    /\ handleUpdateNature C (probabilityDistribution o) (updateNature o)
         (st_graph st) (st_rng st) (wrap_size_t batchSize) (edgeDeletions o)
         (edgeInsertions o) [] (allowDuplicateEdges o)
       = ([BatchGenerated (updateNature o) (wrap_size_t batchSize) weights;
           BatchApplied (graph_size C graph)],
          Returned (graph, rng, weights))
    /\ normalize weights = Returned actual
    /\ degreeDistributionToProbability (calculateInDegreeDistribution C graph ∅)
       = Returned real
    /\ st_counter st <> INT_MAX
    /\ scored (KLDivergence log real actual) report
    /\ t = [BatchSizeComputed (graph_size C (st_graph st)) batchSize;
            BatchGenerated (updateNature o) (wrap_size_t batchSize) weights;
            BatchApplied (graph_size C graph);
            DistributionsAnalyzed weights actual real]
           ++ (calculateDegreeDistribution C graph).1
           ++ [Console (PerformBatchTime (st_counter st + 1)
                          (clock env (st_ticks st)));
               OutputWritten
                 (outputFileName (outputDir o) (outputPrefix o)
                    (st_counter st + 1))
                 (writeEdgeList C graph);
               Console (WriteBatchTime (st_counter st + 1)
                          (clock env (S (st_ticks st))));
               FidelityScored real actual (KLDivergence log real actual)]
           ++ report
    /\ st' = Build_RunState graph rng batchSize (st_counter st + 1)
               (st_multiBatch st) (S (S (st_ticks st))).
Proof.
  intros Hround.
  pose proof (round_is_round_result log C env o st) as Hresult.
  rewrite Hround in Hresult.
  remember (t, Returned st') as m eqn:Hm.
  destruct Hresult
    as [ | | | | b graph rng weights actual real report Hb Hnature Ha Hr Hmax
                 Hfile Hscored ];
    try discriminate.
  injection Hm as Ht Hst'. subst t st'.
  exists b, graph, rng, weights, actual, real, report.
  repeat split; first [assumption | reflexivity].
Qed.

Lemma scored_quiet (r : outcome D) (report : list (event D)) :
  scored r report ->
  stages report = [] /\ output_files report = [] /\ batch_sizes report = [].
Proof. destruct 1; repeat split; reflexivity. Qed.

Lemma round_Returned_stages (o : Options D) (st st' : RunState C)
    (t : list (event D)) :
  round log C env o st = (t, Returned st') -> stages t = round_stages.
Proof.
  intros Hround. apply round_Returned in Hround
    as (b & g & rng & w & a & r & report & _ & _ & _ & _ & _ & Hscored & -> & _).
  apply scored_quiet in Hscored as [Hstages _].
  unfold stages in *. rewrite !omap_app, Hstages. reflexivity.
Qed.

Lemma round_Returned_files (o : Options D) (st st' : RunState C)
    (t : list (event D)) :
  round log C env o st = (t, Returned st') ->
  output_files t
  = [(outputFileName (outputDir o) (outputPrefix o) (st_counter st + 1),
      writeEdgeList C (st_graph st'))]
  /\ st_counter st' = st_counter st + 1
  /\ st_multiBatch st' = st_multiBatch st.
Proof.
  intros Hround. apply round_Returned in Hround
    as (b & g & rng & w & a & r & report & _ & _ & _ & _ & _ & Hscored & -> & ->).
  apply scored_quiet in Hscored as (_ & Hfiles & _).
  unfold output_files in *. rewrite !omap_app, Hfiles. repeat split.
Qed.

Lemma round_Returned_batch_sizes (o : Options D) (st st' : RunState C)
    (t : list (event D)) :
  round log C env o st = (t, Returned st') ->
  batch_sizes t = [(graph_size C (st_graph st), st_batchSize st')]
  /\ effective_batchSize C o st = Some (st_batchSize st').
Proof.
  intros Hround. apply round_Returned in Hround
    as (b & g & rng & w & a & r & report & Hb & _ & _ & _ & _ & Hscored & -> & ->).
  apply scored_quiet in Hscored as (_ & _ & Hsizes).
  unfold batch_sizes in *. rewrite !omap_app, Hsizes. now split.
Qed.

(** A loop that runs to its end was entered with a round count that is not
    negative, went through that many rounds, each with the stages in the
    order of the code, and wrote one file per round under consecutive
    counters. *)
Lemma completed_count (o : Options D) (st : RunState C) (t : list (event D)) :
  completed log C env o st t -> 0 <= st_multiBatch st.
Proof.
  induction 1 as [st Hzero | st st' t t' Hzero Hmin Hround _ IH]; [lia|].
  apply round_Returned_files in Hround as (_ & _ & Hcount).
  cbn in Hcount. lia.
Qed.

Lemma completed_stages (o : Options D) (st : RunState C) (t : list (event D)) :
  completed log C env o st t ->
  stages t = concat (replicate (Z.to_nat (st_multiBatch st)) round_stages).
Proof.
  induction 1 as [st Hzero | st st' t t' Hzero Hmin Hround Hrest IH].
  - now rewrite Hzero.
  - apply completed_count in Hrest.
    pose proof (round_Returned_stages _ _ _ _ Hround) as Hstages.
    apply round_Returned_files in Hround as (_ & _ & Hcount). cbn in Hcount.
    unfold stages in *. rewrite omap_app, Hstages, IH, Hcount.
    replace (Z.to_nat (st_multiBatch st))
      with (S (Z.to_nat (st_multiBatch st - 1))) by lia.
    reflexivity.
Qed.

Lemma completed_files (o : Options D) (st : RunState C) (t : list (event D)) :
  completed log C env o st t ->
  (output_files t).*1
  = outputFileName (outputDir o) (outputPrefix o)
    <$> seqZ (st_counter st + 1) (st_multiBatch st).
Proof.
  induction 1 as [st Hzero | st st' t t' Hzero Hmin Hround Hrest IH].
  - now rewrite Hzero.
  - apply completed_count in Hrest.
    apply round_Returned_files in Hround as (Hfile & Hcounter & Hcount).
    cbn in Hcounter, Hcount.
    unfold output_files in *. rewrite omap_app, fmap_app, Hfile, IH.
    rewrite Hcounter, Hcount.
    rewrite (seqZ_cons (st_counter st + 1)) by lia.
    cbn. do 2 f_equal; f_equal; lia.
Qed.

End LoopFacts.

Lemma to_int_proper (z : Z) :
  Z.to_int z <> Decimal.Pos Decimal.Nil /\ Z.to_int z <> Decimal.Neg Decimal.Nil.
Proof.
  destruct z as [| p | p]; cbn; split; try discriminate;
    intros [= Hnil]; now apply (DecimalPos.Unsigned.to_uint_nonnil p).
Qed.

Lemma to_string_inj (z z' : Z) : to_string z = to_string z' -> z = z'.
Proof.
  unfold to_string. intros Heq.
  apply (f_equal NilZero.int_of_string) in Heq.
  destruct (to_int_proper z), (to_int_proper z').
  rewrite !NilZero.isi in Heq by assumption.
  injection Heq as Heq. now apply to_int_inj.
Qed.

Lemma append_inj_r (prefix s s' : string) :
  (prefix ++ s = prefix ++ s')%string -> s = s'.
Proof.
  induction prefix as [| a prefix IH]; cbn; [trivial|].
  intros [= Heq]. now apply IH.
Qed.

Lemma outputFileName_inj (dir prefix : string) (k k' : Z) :
  outputFileName dir prefix k = outputFileName dir prefix k' -> k = k'.
Proof.
  unfold outputFileName. intros Heq.
  do 3 apply append_inj_r in Heq. now apply to_string_inj.
Qed.

Section RunFacts.
Context {D : Type} `{Double D}.
Variable log : D -> D.
Variable C : Collaborators D.
Variable env : Environment.

Lemma handleInputTransform_cases (name : string) (graph : Graph C) :
  (exists what, handleInputTransform C name graph = ([], Thrown (runtime_error what)))
  \/ (exists graph', handleInputTransform C name graph = ([], Returned graph')).
Proof.
  unfold handleInputTransform.
  repeat (case_match; [right; eexists; reflexivity|]).
  left. eexists. reflexivity.
Qed.

Lemma applyTransforms_cases (names : list string) (graph : Graph C) (ticks : nat) :
  exists t,
    quiet t
    /\ ((exists what,
           applyTransforms C env names graph ticks = (t, Thrown (runtime_error what)))
        \/ (exists graph' ticks',
              applyTransforms C env names graph ticks = (t, Returned (graph', ticks')))).
Proof.
  revert graph ticks.
  induction names as [| name names IH]; intros graph ticks; cbn [applyTransforms].
  - exists []. split; [constructor|]. right. now do 2 eexists.
  - destruct (handleInputTransform_cases name graph) as [[what ->] | [graph' ->]].
    + exists []. split; [constructor|]. left. now eexists.
    + destruct (IH graph' (S ticks)) as [t [Hquiet Hrest]].
      exists (Console (TransformTime name (clock env ticks)) :: t).
      split; [constructor; [now eexists | exact Hquiet]|].
      destruct Hrest as [[what Hrest] | [graph'' [ticks' Hrest]]].
      * left. exists what. cbn. now rewrite Hrest.
      * right. exists graph'', ticks'. cbn. now rewrite Hrest.
Qed.

(** A run that is not a request for help stops before the loop with an
    exception, or enters the loop having printed console lines only. *)
Lemma handleOptions_loop (o : Options D) :
  help o = false ->
  exists prefix,
    quiet prefix
    /\ ((exists what, forall fuel,
           handleOptions log C env fuel o = (prefix, Thrown (runtime_error what)))
        \/ (exists graph ticks, forall fuel,
              handleOptions log C env fuel o
              = (prefix ++ (rounds log C env fuel o (initialState C env o graph ticks)).1,
                 (rounds log C env fuel o (initialState C env o graph ticks)).2))).
Proof.
  intros Hhelp. unfold handleOptions. rewrite Hhelp.
  unfold checkInputFile.
  destruct (input_file env (inputGraph o)) as [contents |].
  2:{ exists []. split; [constructor|]. left. eexists. intros fuel. reflexivity. }
  assert (Hformat :
    (exists what, handleInputFormat C env (inputFormat o) (empty_graph C) (inputGraph o)
                  = ([], Thrown (runtime_error what)))
    \/ (exists graph, handleInputFormat C env (inputFormat o) (empty_graph C) (inputGraph o)
                      = ([], Returned graph))).
  { unfold handleInputFormat.
    repeat (case_match; [right; eexists; reflexivity|]).
    left. eexists. reflexivity. }
  destruct Hformat as [[what Hformat] | [graph Hformat]].
  { exists []. split; [constructor|]. left. exists what. intros fuel.
    cbn. now rewrite Hformat. }
  destruct (applyTransforms_cases (transforms o) graph 1) as [t [Hquiet Hcases]].
  exists (Console (ReadGraphTime (clock env 0)) :: t).
  split; [constructor; [now eexists | exact Hquiet]|].
  destruct Hcases as [[what Htransforms] | [graph' [ticks Htransforms]]].
  - left. exists what. intros fuel. cbn. rewrite Hformat. cbn. now rewrite Htransforms.
  - right. exists graph', ticks. intros fuel.
    cbn. rewrite Hformat. cbn. rewrite Htransforms.
    cbn. now destruct (rounds log C env fuel o (initialState C env o graph' ticks)).
Qed.

Lemma round_not_Exhausted (o : Options D) (st : RunState C) :
  (round log C env o st).2 <> Exhausted.
Proof.
  destruct (round_is_round_result log C env o st); discriminate.
Qed.

(** The loop ends within as many rounds as [multiBatch] asks for. *)
Lemma rounds_enough_fuel (fuel : nat) (o : Options D) (st : RunState C) :
  0 <= st_multiBatch st < Z.of_nat fuel ->
  (rounds log C env fuel o st).2 <> Exhausted.
Proof.
  revert st. induction fuel as [| fuel IH]; intros st Hfuel; [lia|].
  cbn [rounds].
  destruct (Z.eqb_spec (st_multiBatch st) 0); [discriminate|].
  destruct (Z.eqb_spec (st_multiBatch st) INT64_MIN); [discriminate|].
  destruct (round log C env o (enter_round st)) as [t r] eqn:Hround.
  destruct r as [st' | e | |]; try discriminate.
  - rewrite bind_step. cbn [snd]. apply IH.
    apply round_Returned_files in Hround as (_ & _ & Hcount).
    cbn in Hcount. lia.
  - pose proof (round_not_Exhausted o (enter_round st)) as Hne.
    now rewrite Hround in Hne.
Qed.

(** Whatever [multiBatch] is, the loop ends before the counter leaves
    [int]. *)
Lemma rounds_always_end (fuel : nat) (o : Options D) (st : RunState C) :
  st_counter st <= INT_MAX ->
  INT_MAX - st_counter st < Z.of_nat fuel ->
  (rounds log C env fuel o st).2 <> Exhausted.
Proof.
  revert st. induction fuel as [| fuel IH]; intros st Hcounter Hfuel; [lia|].
  cbn [rounds].
  destruct (Z.eqb_spec (st_multiBatch st) 0); [discriminate|].
  destruct (Z.eqb_spec (st_multiBatch st) INT64_MIN); [discriminate|].
  destruct (round log C env o (enter_round st)) as [t r] eqn:Hround.
  destruct r as [st' | e | |]; try discriminate.
  - rewrite bind_step. cbn [snd].
    pose proof (round_Returned log C env _ _ _ _ Hround)
      as (_ & _ & _ & _ & _ & _ & _ & _ & _ & _ & _ & Hmax & _).
    apply round_Returned_files in Hround as (_ & Hnext & _).
    cbn in Hnext, Hmax. apply IH; lia.
  - pose proof (round_not_Exhausted o (enter_round st)) as Hne.
    now rewrite Hround in Hne.
Qed.

(** More fuel does not change a run that ended. *)
Lemma rounds_more_fuel (fuel fuel' : nat) (o : Options D) (st : RunState C) :
  (fuel <= fuel')%nat ->
  (rounds log C env fuel o st).2 <> Exhausted ->
  rounds log C env fuel' o st = rounds log C env fuel o st.
Proof.
  revert fuel' st. induction fuel as [| fuel IH]; intros fuel' st Hle Hend.
  - now destruct Hend.
  - destruct fuel' as [| fuel']; [lia|].
    cbn [rounds] in *.
    destruct (Z.eqb_spec (st_multiBatch st) 0); [reflexivity|].
    destruct (Z.eqb_spec (st_multiBatch st) INT64_MIN); [reflexivity|].
    destruct (round log C env o (enter_round st)) as [t [st' | e | |]];
      try reflexivity.
    rewrite !bind_step in *. cbn [snd] in Hend.
    rewrite IH; [reflexivity | lia | exact Hend].
Qed.

End RunFacts.

Section StickyFacts.
Context {D : Type} `{Double D}.
Variable log : D -> D.
Variable C : Collaborators D.
Variable env : Environment.

Lemma sticky_nonzero (ratio : D) (current : Z) (records : list (Z * Z)) :
  current <> 0 -> sticky ratio current records ->
  Forall (fun record => record.2 = current) records.
Proof.
  revert current.
  induction records as [| [edges batchSize] rest IH]; intros current Hne; cbn.
  - constructor.
  - destruct (Z.eqb_spec current 0); [contradiction|].
    intros [-> Hrest]. constructor; [reflexivity | now apply IH].
Qed.

Lemma effective_sticky (o : Options D) (st : RunState C) (batchSize : Z) :
  effective_batchSize C o st = Some batchSize ->
  if st_batchSize st =? 0
  then d_to_int64 (d_of_size_t (graph_size C (st_graph st)) * batchSizeRatio o)%dbl
       = Some batchSize
  else batchSize = st_batchSize st.
Proof.
  unfold effective_batchSize. destruct (st_batchSize st =? 0); congruence.
Qed.

(** A round computes at most one batch size, and hands it to the next. *)
Lemma round_batch_sizes (o : Options D) (st : RunState C) :
  batch_sizes (round log C env o st).1 = []
  \/ exists batchSize,
       effective_batchSize C o st = Some batchSize
       /\ batch_sizes (round log C env o st).1
          = [(graph_size C (st_graph st), batchSize)]
       /\ forall st', (round log C env o st).2 = Returned st' ->
                      st_batchSize st' = batchSize.
Proof.
  destruct (round_is_round_result log C env o st)
    as [ | b what Hb _ | b g rng w a r Hb _ _ _ _ | b g rng w a r Hb _ _ _ _ _
       | b g rng w a r report Hb _ _ _ _ _ Hscored ].
  - now left.
  - right. exists b. repeat split; [assumption | discriminate].
  - right. exists b. repeat split; [assumption | discriminate].
  - right. exists b. repeat split; [assumption | discriminate].
  - right. exists b. apply scored_quiet in Hscored as (_ & _ & Hsizes).
    split; [assumption|]. split.
    + unfold batch_sizes in *. cbn [fst]. now rewrite !omap_app, Hsizes.
    + now intros st' [= <-].
Qed.

Lemma rounds_sticky (fuel : nat) (o : Options D) (st : RunState C) :
  sticky (batchSizeRatio o) (st_batchSize st)
    (batch_sizes (rounds log C env fuel o st).1).
Proof.
  revert st. induction fuel as [| fuel IH]; intros st; [exact I|].
  cbn [rounds].
  destruct (Z.eqb_spec (st_multiBatch st) 0); [exact I|].
  destruct (Z.eqb_spec (st_multiBatch st) INT64_MIN); [exact I|].
  destruct (round_batch_sizes o (enter_round st)) as [Hnone | [b [Hb [Hsizes Hnext]]]];
    destruct (round log C env o (enter_round st)) as [t r] eqn:Hround;
    cbn [fst snd] in *.
  - destruct r as [st' | e | |];
      try (cbn [mbind M_bind fst]; rewrite Hnone; exact I).
    apply round_Returned_batch_sizes in Hround as [Hsome _]. congruence.
  - apply effective_sticky in Hb. cbn [enter_round st_batchSize st_graph] in Hb.
    destruct r as [st' | e | |];
      try (cbn [mbind M_bind fst]; rewrite Hsizes; now split).
    rewrite bind_step. cbn [fst].
    unfold batch_sizes in *. rewrite omap_app, Hsizes.
    split; [exact Hb|].
    rewrite <- (Hnext st' eq_refl). apply IH.
Qed.

End StickyFacts.

Section AgreeFacts.
Context {D : Type}.

Lemma agree_refl {A : Type} (m : M D A) : agree m m.
Proof. now split. Qed.

Lemma agree_bind {A B : Type} (m m' : M D A) (f f' : A -> M D B) :
  agree m m' -> (forall a, agree (f a) (f' a)) -> agree (m ≫= f) (m' ≫= f').
Proof.
  destruct m as [t r], m' as [t' r']. intros [Ht Hr] Hf.
  cbn [fst snd] in Ht, Hr. subst r'.
  destruct r as [a | e | |]; try (split; [exact Ht | reflexivity]).
  specialize (Hf a). rewrite !bind_step.
  destruct Hf as [Hu Hs]. split; cbn [fst snd]; [| exact Hs].
  now rewrite !fmap_app, Ht, Hu.
Qed.

Lemma agree_emit (e e' : event D) : blank e = blank e' -> agree (emit e) (emit e').
Proof. intros Heq. split; cbn; [now rewrite Heq | reflexivity]. Qed.

Lemma blank_output_files (t : list (event D)) :
  output_files (blank <$> t) = output_files t.
Proof.
  unfold output_files.
  induction t as [| e t IH]; [reflexivity|].
  rewrite fmap_cons. destruct e; cbn; rewrite IH; reflexivity.
Qed.

Lemma agree_output_files {A : Type} (m m' : M D A) :
  agree m m' -> output_files m.1 = output_files m'.1.
Proof.
  intros [Ht _]. now rewrite <- (blank_output_files m.1), Ht, blank_output_files.
Qed.

End AgreeFacts.

Section Determinism.
Context {D : Type} `{Double D}.
Variable log : D -> D.
Variable C : Collaborators D.
Variables env env' : Environment.
Hypothesis same_inputs : input_file env = input_file env'.
Hypothesis same_outputs : output_creatable env = output_creatable env'.

Lemma round_agree (o : Options D) (st : RunState C) :
  agree (round log C env o st) (round log C env' o st).
Proof.
  unfold round.
  apply agree_bind; [apply agree_refl | intros batchSize].
  apply agree_bind; [apply agree_refl | intros _].
  apply agree_bind; [apply agree_refl | intros [[graph rng] weights]].
  apply agree_bind; [apply agree_refl | intros actual].
  apply agree_bind; [apply agree_refl | intros real].
  apply agree_bind; [apply agree_refl | intros _].
  apply agree_bind; [apply agree_refl | intros _].
  apply agree_bind; [apply agree_refl | intros _].
  apply agree_bind; [now apply agree_emit | intros _].
  apply agree_bind.
  { unfold createOutputFile. rewrite same_outputs. apply agree_refl. }
  intros outputFile.
  apply agree_bind; [apply agree_refl | intros _].
  apply agree_bind; [now apply agree_emit | intros _].
  apply agree_refl.
Qed.

Lemma rounds_agree (fuel : nat) (o : Options D) (st : RunState C) :
  agree (rounds log C env fuel o st) (rounds log C env' fuel o st).
Proof.
  revert st. induction fuel as [| fuel IH]; intros st; [apply agree_refl|].
  cbn [rounds]. repeat case_match; try apply agree_refl.
  apply agree_bind; [apply round_agree | apply IH].
Qed.

Lemma applyTransforms_agree (names : list string) (graph : Graph C) (ticks : nat) :
  agree (applyTransforms C env names graph ticks)
        (applyTransforms C env' names graph ticks).
Proof.
  revert graph ticks. induction names as [| name names IH]; intros graph ticks.
  - apply agree_refl.
  - cbn [applyTransforms].
    apply agree_bind; [apply agree_refl | intros graph'].
    apply agree_bind; [now apply agree_emit | intros _]. apply IH.
Qed.

Lemma handleOptions_agree (fuel : nat) (o : Options D) :
  is_Some (seed o) ->
  agree (handleOptions log C env fuel o) (handleOptions log C env' fuel o).
Proof.
  intros [s Hseed]. unfold handleOptions.
  destruct (help o); [apply agree_refl|].
  apply agree_bind.
  { unfold checkInputFile. rewrite same_inputs. apply agree_refl. }
  intros _. apply agree_bind.
  { unfold handleInputFormat. rewrite same_inputs. apply agree_refl. }
  intros graph.
  apply agree_bind; [now apply agree_emit | intros _].
  apply agree_bind; [apply applyTransforms_agree | intros [graph' ticks]].
  unfold initialState. rewrite Hseed. apply rounds_agree.
Qed.

End Determinism.

(** Membership in a trace given as appended literal lists. *)
Ltac in_trace H :=
  cbn [fst calculateDegreeDistribution emit app In] in H.

Section RoundEvents.
Context {D : Type} `{Double D}.
Variable log : D -> D.
Variable C : Collaborators D.
Variable env : Environment.

Lemma scored_no_step (r : outcome D) (report : list (event D)) (e : event D) :
  scored r report -> In e report -> stage_of e = None.
Proof. destruct 1; intros [<- | []]; reflexivity. Qed.

(** The events of a round that carry the weight vectors all carry those
    [handleUpdateNature] handed back. *)
Lemma round_weights (o : Options D) (st : RunState C) (e : event D) :
  In e (round log C env o st).1 ->
  match e with
  | BatchGenerated _ _ w | DistributionsAnalyzed w _ _ =>
      exists t batchSize graph rng,
        handleUpdateNature C (probabilityDistribution o) (updateNature o)
          (st_graph st) (st_rng st) batchSize (edgeDeletions o)
          (edgeInsertions o) [] (allowDuplicateEdges o)
        = (t, Returned (graph, rng, w))
  | _ => True
  end
  /\ match e with
     | DistributionsAnalyzed w actual _ => normalize w = Returned actual
     | _ => True
     end.
Proof.
  destruct (round_is_round_result log C env o st)
    as [ | b what Hb Hnature | b g rng w a r Hb Hnature Ha Hr _
       | b g rng w a r Hb Hnature Ha Hr _ _
       | b g rng w a r report Hb Hnature Ha Hr _ _ Hscored ];
    intros Hin; in_trace Hin.
  - now destruct Hin.
  - destruct Hin as [<- | []]. now split.
  - destruct Hin as [<- | [<- | [<- | [<- | [<- | []]]]]];
      (split; [first [exact I | do 4 eexists; exact Hnature]
              | first [exact I | exact Ha]]).
  - destruct Hin as [<- | [<- | [<- | [<- | [<- | [<- | []]]]]]];
      (split; [first [exact I | do 4 eexists; exact Hnature]
              | first [exact I | exact Ha]]).
  - destruct Hin as [<- | [<- | [<- | [<- | [<- | [<- | [<- | [<- | [<- | Hin]]]]]]]]];
      try (split; [first [exact I | do 4 eexists; exact Hnature]
                  | first [exact I | exact Ha]]).
    destruct Hscored; destruct Hin as [<- | []]; now split.
Qed.

(** A scoring event is the last step of a round that returns. *)
Lemma round_scored (o : Options D) (st : RunState C) (P Q : list D)
    (result : outcome D) :
  In (FidelityScored P Q result) (round log C env o st).1 ->
  exists st' before weights rng report,
    round log C env o st
    = (before
       ++ [OutputWritten
             (outputFileName (outputDir o) (outputPrefix o) (st_counter st'))
             (writeEdgeList C (st_graph st'));
           Console (WriteBatchTime (st_counter st')
                      (clock env (S (st_ticks st))));
           FidelityScored P Q result]
       ++ report,
       Returned st')
    /\ result = KLDivergence log P Q
    /\ scored result report
    /\ normalize weights = Returned Q
    /\ (handleUpdateNature C (probabilityDistribution o) (updateNature o)
          (st_graph st) (st_rng st) (wrap_size_t (st_batchSize st'))
          (edgeDeletions o) (edgeInsertions o) [] (allowDuplicateEdges o)).2
       = Returned (st_graph st', rng, weights).
Proof.
  destruct (round_is_round_result log C env o st)
    as [ | b what Hb Hnature | b g rng w a r Hb Hnature Ha Hr _
       | b g rng w a r Hb Hnature Ha Hr _ _
       | b g rng w a r report Hb Hnature Ha Hr _ _ Hscored ];
    intros Hin; in_trace Hin.
  - now destruct Hin.
  - now destruct Hin as [? | []].
  - now destruct Hin as [? | [? | [? | [? | [? | []]]]]].
  - now destruct Hin as [? | [? | [? | [? | [? | [? | []]]]]]].
  - destruct Hin as [? | [? | [? | [? | [? | [? | [? | [? | [Heq | Hin]]]]]]]]];
      try discriminate.
    + injection Heq as <- <- <-.
      exists (Build_RunState g rng b (st_counter st + 1) (st_multiBatch st)
                (S (S (st_ticks st)))),
        ([BatchSizeComputed (graph_size C (st_graph st)) b;
          BatchGenerated (updateNature o) (wrap_size_t b) w;
          BatchApplied (graph_size C g);
          DistributionsAnalyzed w a r]
         ++ (calculateDegreeDistribution C g).1
         ++ [Console (PerformBatchTime (st_counter st + 1)
                        (clock env (st_ticks st)))]),
        w, rng, report.
      split; [reflexivity|].
      cbn [st_graph st_batchSize]. rewrite Hnature. repeat split; assumption.
    + pose proof (scored_no_step _ _ _ Hscored Hin) as Hnone. discriminate.
Qed.

(** A round that stops early went through a prefix of the stages. *)
Lemma round_stages_prefix (o : Options D) (st : RunState C) :
  stages (round log C env o st).1 `prefix_of` round_stages.
Proof.
  destruct (round_is_round_result log C env o st)
    as [ | b what Hb Hnature | b g rng w a r Hb Hnature Ha Hr _
       | b g rng w a r Hb Hnature Ha Hr _ _
       | b g rng w a r report Hb Hnature Ha Hr _ _ Hscored ];
    unfold stages; cbn [fst]; rewrite ?omap_app.
  - now exists round_stages.
  - now eexists.
  - now eexists.
  - now eexists.
  - apply scored_quiet in Hscored as [Hstages _]. unfold stages in Hstages.
    rewrite Hstages. now exists [].
Qed.

End RoundEvents.

Section RunTheorems.
Context {D : Type} `{Double D}.
Variable log : D -> D.
Variable C : Collaborators D.
Variable env : Environment.

Lemma handleOptions_completed (fuel : nat) (o : Options D) (t : list (event D)) :
  help o = false ->
  handleOptions log C env fuel o = (t, Returned tt) ->
  exists prefix graph ticks t',
    quiet prefix /\ t = prefix ++ t'
    /\ completed log C env o (initialState C env o graph ticks) t'
    /\ forall fuel', (fuel <= fuel')%nat ->
                     handleOptions log C env fuel' o = (t, Returned tt).
Proof.
  intros Hhelp Hrun.
  destruct (handleOptions_loop log C env o Hhelp)
    as [prefix [Hquiet [[what Hthrown] | [graph [ticks Hloop]]]]].
  - rewrite Hthrown in Hrun. discriminate.
  - rewrite Hloop in Hrun. injection Hrun as <- Hreturned.
    exists prefix, graph, ticks,
      (rounds log C env fuel o (initialState C env o graph ticks)).1.
    split; [assumption|]. split; [reflexivity|]. split.
    + apply (rounds_completed log C env fuel).
      now destruct (rounds log C env fuel o (initialState C env o graph ticks))
        as [t' r]; cbn in *; subst.
    + intros fuel' Hle. rewrite Hloop.
      rewrite (rounds_more_fuel log C env fuel fuel' o _ Hle), Hreturned;
        [reflexivity|].
      rewrite Hreturned. discriminate.
Qed.

Lemma handleOptions_batch_sizes (fuel : nat) (o : Options D) :
  batch_sizes (handleOptions log C env fuel o).1 = []
  \/ exists graph ticks,
       batch_sizes (handleOptions log C env fuel o).1
       = batch_sizes (rounds log C env fuel o (initialState C env o graph ticks)).1.
Proof.
  destruct (help o) eqn:Hhelp.
  { left. unfold handleOptions. now rewrite Hhelp. }
  destruct (handleOptions_loop log C env o Hhelp)
    as [prefix [Hquiet [[what Hthrown] | [graph [ticks Hloop]]]]];
    [rewrite Hthrown | rewrite Hloop]; cbn [fst].
  - left. now apply quiet_omap.
  - right. exists graph, ticks. unfold batch_sizes. rewrite omap_app.
    now rewrite (quiet_omap batch_size_of prefix).
Qed.

(** Fuel above the round count, or above [INT_MAX], is enough for any run. *)
Lemma handleOptions_ends (fuel : nat) (o : Options D) :
  0 <= multiBatch o < Z.of_nat fuel \/ INT_MAX < Z.of_nat fuel ->
  (handleOptions log C env fuel o).2 <> Exhausted.
Proof.
  intros Hfuel. destruct (help o) eqn:Hhelp.
  { unfold handleOptions. rewrite Hhelp. discriminate. }
  destruct (handleOptions_loop log C env o Hhelp)
    as [prefix [Hquiet [[what Hthrown] | [graph [ticks Hloop]]]]].
  - rewrite Hthrown. discriminate.
  - rewrite Hloop. cbn [snd]. destruct Hfuel as [Hcount | Hmax].
    + now apply rounds_enough_fuel.
    + apply rounds_always_end; cbn [initialState st_counter]; unfold INT_MAX in *; lia.
Qed.

End RunTheorems.

Section StickyRuns.
Context {D : Type} `{Double D}.
Variable log : D -> D.
Variable C : Collaborators D.
Variable env : Environment.

(** The batch sizes of a run obey [sticky]. *)
Lemma handleOptions_sticky (fuel : nat) (o : Options D) :
  sticky (batchSizeRatio o) (batchSize o)
         (batch_sizes (handleOptions log C env fuel o).1).
Proof.
  destruct (handleOptions_batch_sizes log C env fuel o)
    as [-> | [graph [ticks ->]]]; [exact I|].
  apply (rounds_sticky log C env fuel o (initialState C env o graph ticks)).
Qed.

End StickyRuns.

(** ** The round loop against the specification *)

(** C4.  Whenever the scoring of a round fails with the
    [std::invalid_argument] of [KLDivergence], the round still returns:
    its trace ends with the output file of that round, already written,
    then the failed scoring, then the message on [std::cerr].  The state
    it hands on is the one a round hands on whose scoring succeeds: the
    graph the batch applier returned (the one written to the file), the
    generator state of the batch, the batch size of the round, the file
    counter advanced by one and the round count lowered by the one
    decrement of the loop condition.  The loop goes on from that state:
    it ends there when this was the last round, and otherwise runs the
    body of the next round on it. *)
Theorem fidelity_failure_recovered :
  forall (D : Type) (HD : Double D) (log : D -> D) (C : Collaborators D)
         (env : Environment) (fuel : nat) (o : Options D) (st : RunState C)
         (P Q : list D) (what : string),
    st_multiBatch st <> 0 ->
    st_multiBatch st <> INT64_MIN ->
    In (FidelityScored P Q (Thrown (invalid_argument what)))
       (round log C env o (enter_round st)).1 ->
    exists st' before weights rng,
      round log C env o (enter_round st)
      = (before
         ++ [OutputWritten
               (outputFileName (outputDir o) (outputPrefix o) (st_counter st'))
               (writeEdgeList C (st_graph st'));
             Console (WriteBatchTime (st_counter st')
                        (clock env (S (st_ticks st))));
             FidelityScored P Q (Thrown (invalid_argument what));
             Diagnostic ("Error: " ++ what)%string],
         Returned st')
      /\ KLDivergence log P Q = Thrown (invalid_argument what)
      /\ (handleUpdateNature C (probabilityDistribution o) (updateNature o)
            (st_graph st) (st_rng st) (wrap_size_t (st_batchSize st'))
            (edgeDeletions o) (edgeInsertions o) [] (allowDuplicateEdges o)).2
         = Returned (st_graph st', rng, weights)
      /\ effective_batchSize C o st = Some (st_batchSize st')
      /\ st' = Build_RunState (st_graph st') rng (st_batchSize st')
                 (st_counter st + 1) (st_multiBatch st - 1) (S (S (st_ticks st)))
      /\ rounds log C env (S fuel) o st
         = ((round log C env o (enter_round st)).1
            ++ (rounds log C env fuel o st').1,
            (rounds log C env fuel o st').2)
      /\ (st_multiBatch st = 1 ->
          rounds log C env (S (S fuel)) o st
          = ((round log C env o (enter_round st)).1, Returned tt))
      /\ (st_multiBatch st <> 1 -> st_multiBatch st <> INT64_MIN + 1 ->
          rounds log C env (S (S fuel)) o st
          = ((round log C env o (enter_round st)).1
             ++ (round log C env o (enter_round st') ≫= rounds log C env fuel o).1,
             (round log C env o (enter_round st') ≫= rounds log C env fuel o).2)).
Proof.
  intros D HD log C env fuel o st P Q what Hzero Hmin Hin.
  apply round_scored in Hin
    as (st' & before & weights & rng & report & Hround & Hkl & Hscored & _ & Hgraph).
  inversion Hscored; subst report.
  pose proof (round_Returned log C env o _ _ _ Hround)
    as (b & g & rng' & w & a & r & report' & Hb & Hnature & _ & _ & _ & _ & _ & Hst').
  assert (Hrng : rng' = rng /\ w = weights).
  { rewrite Hst' in Hgraph. cbn [st_batchSize st_graph enter_round st_rng] in *.
    rewrite Hnature in Hgraph. cbn in Hgraph. now injection Hgraph. }
  destruct Hrng as [-> ->].
  assert (Hrounds : forall fuel',
    rounds log C env (S fuel') o st
    = ((round log C env o (enter_round st)).1
       ++ (rounds log C env fuel' o st').1,
       (rounds log C env fuel' o st').2)).
  { intros fuel'. rewrite rounds_step by assumption. rewrite Hround. apply bind_step. }
  assert (Hleft : st_multiBatch st' = st_multiBatch st - 1) by now rewrite Hst'.
  exists st', before, weights, rng.
  split; [exact Hround|]. split; [now symmetry|]. split; [exact Hgraph|].
  split; [rewrite Hst'; exact Hb|]. split; [rewrite Hst'; reflexivity|].
  split; [apply Hrounds|]. split.
  - intros Hone. rewrite Hrounds. cbn [rounds].
    rewrite Hleft, Hone. cbn. now rewrite app_nil_r.
  - intros Hmore Hmin'. rewrite Hrounds, rounds_step by lia. reflexivity.
Qed.

(** The first of two rounds with the uniform generator, whose weight vector
    is empty: its scoring fails, one round is left, and the second round
    runs and writes its file. *)
Lemma fidelity_failure_recovered_witness :
  exists st',
    (round Demo.log (Demo.collaborators float) Demo.environment
       (Demo.options "uniform" 2 0 0.1)
       (enter_round (Demo.entry 2 0))).2 = Returned st'
    /\ st_multiBatch st' = 1
    /\ (rounds Demo.log (Demo.collaborators float) Demo.environment 3
          (Demo.options "uniform" 2 0 0.1) (Demo.entry 2 0)).2
       = (rounds Demo.log (Demo.collaborators float) Demo.environment 2
            (Demo.options "uniform" 2 0 0.1) st').2
    /\ (output_files
          (rounds Demo.log (Demo.collaborators float) Demo.environment 3
             (Demo.options "uniform" 2 0 0.1) (Demo.entry 2 0)).1).*1
       = ["out/g_1"; "out/g_2"]%string.
Proof.
  destruct (fidelity_failure_recovered float _ Demo.log
              (Demo.collaborators float) Demo.environment 2
              (Demo.options "uniform" 2 0 0.1) (Demo.entry 2 0)
              [0.75; 0.25]%float []
              "Q[i] must be non-zero where P[i] is non-zero.")
    as (st' & before & weights & rng & Hround & _ & _ & _ & Hst' & Hrounds & _).
  - discriminate.
  - discriminate.
  - vm_compute. do 8 right. left. reflexivity.
  - exists st'. rewrite Hround. split; [reflexivity|].
    split; [now rewrite Hst'|]. split; [now rewrite Hrounds|].
    vm_compute. reflexivity.
Defined.

(** C5, as amended.  A round that returns went through ComputeBatchSize,
    GenerateBatch, ApplyBatch, AnalyzeDistributions, WriteOutput and
    ScoreFidelity, in this order: the output file is written before the
    fidelity is scored.  A round that stops early went through a prefix of
    these.  A run that returns, other than a request for help, was given a
    round count that is not negative and went through exactly that many
    such rounds.  A run with a round count that is not negative ends
    within that many rounds, and any run ends within [INT_MAX] rounds. *)
Theorem round_stage_order :
  forall (D : Type) (HD : Double D) (log : D -> D) (C : Collaborators D)
         (env : Environment),
    (forall (o : Options D) (st st' : RunState C) (t : list (event D)),
        round log C env o st = (t, Returned st') -> stages t = round_stages)
    /\ (forall (o : Options D) (st : RunState C),
          stages (round log C env o st).1 `prefix_of` round_stages)
    /\ (forall (fuel : nat) (o : Options D) (t : list (event D)),
          help o = false ->
          handleOptions log C env fuel o = (t, Returned tt) ->
          0 <= multiBatch o
          /\ stages t
             = concat (replicate (Z.to_nat (multiBatch o)) round_stages))
    /\ (forall (fuel : nat) (o : Options D),
          0 <= multiBatch o < Z.of_nat fuel \/ INT_MAX < Z.of_nat fuel ->
          (handleOptions log C env fuel o).2 <> Exhausted).
Proof.
  intros D HD log C env. split; [| split; [| split]]; [| | | apply handleOptions_ends].
  - intros o st st' t. apply round_Returned_stages.
  - apply round_stages_prefix.
  - intros fuel o t Hhelp Hrun.
    destruct (handleOptions_completed log C env fuel o t Hhelp Hrun)
      as (prefix & graph & ticks & t' & Hquiet & -> & Hcompleted & _).
    split; [apply (completed_count _ _ _ _ _ _ Hcompleted)|].
    unfold stages. rewrite omap_app, (quiet_omap stage_of prefix) by easy.
    apply (completed_stages _ _ _ _ _ _ Hcompleted).
Qed.

(** Two rounds with the custom generator. *)
Lemma round_stage_order_witness :
  stages (Demo.run "" 2 3 0.1).1 = round_stages ++ round_stages.
Proof.
  destruct (round_stage_order float _ Demo.log (Demo.collaborators float)
              Demo.environment) as (_ & _ & Hrun & _).
  destruct (Hrun 10%nat (Demo.options "" 2 3 0.1) (Demo.run "" 2 3 0.1).1)
    as [_ Hstages].
  - reflexivity.
  - vm_compute. reflexivity.
  - exact Hstages.
Defined.

(** Against C5 as stated: one round with the custom generator, in which
    the file is written before the divergence is computed. *)
Lemma score_follows_write :
  (Demo.run "" 1 3 0.1).2 = Returned tt
  /\ stages (Demo.run "" 1 3 0.1).1
     = [ComputeBatchSize; GenerateBatch; ApplyBatch; AnalyzeDistributions;
        WriteOutput; ScoreFidelity]
  /\ stages (Demo.run "" 1 3 0.1).1 <> specified_stages.
Proof. repeat split; try (vm_compute; reflexivity). discriminate. Qed.

(** The conversion to [int64_t] of a double that is not negative is its
    floor. *)
Lemma IEEE_to_int64_floor (x : float) (z : Z) :
  (0 <=? x)%float = true -> IEEE.to_int64 x = Some z -> IEEE.floor x = Some z.
Proof.
  unfold IEEE.to_int64, IEEE.floor. rewrite leb_spec.
  change (Prim2SF 0) with (S754_zero false).
  destruct (Prim2SF x) as [s | s | | s m e]; try discriminate.
  - trivial.
  - destruct s; [discriminate|]. intros _.
    unfold IEEE.trunc_finite, IEEE.floor_finite.
    destruct (IEEE.in_int64 _); [trivial | discriminate].
Qed.

(** C6, as amended.  The batch sizes of a run, in round order, obey
    [sticky]: a round entered with a nonzero batch size keeps it, a round
    entered with a zero one replaces it by the conversion to [int64_t] of
    the edge count at that moment times the ratio (for a product that is
    not negative, its floor).  So a nonzero configured size is used in
    every round; with a zero configured size the first round derives its
    size from the edge count it starts with, a nonzero derived size is
    reused in every later round, and a zero one is derived again in the
    next round. *)
Theorem batch_size_sticky_once_nonzero :
  (forall (D : Type) (HD : Double D) (log : D -> D) (C : Collaborators D)
          (env : Environment) (fuel : nat) (o : Options D)
          (records : list (Z * Z)),
      records = batch_sizes (handleOptions log C env fuel o).1 ->
      sticky (batchSizeRatio o) (batchSize o) records
      /\ (batchSize o <> 0 ->
          Forall (fun record => record.2 = batchSize o) records)
      /\ (batchSize o = 0 ->
          forall edges first rest,
            records = (edges, first) :: rest ->
            d_to_int64 (d_of_size_t edges * batchSizeRatio o)%dbl = Some first
            /\ (first <> 0 -> Forall (fun record => record.2 = first) rest)
            /\ (first = 0 -> sticky (batchSizeRatio o) 0 rest)))
  /\ (forall (x : float) (z : Z),
        (0 <=? x)%float = true -> d_to_int64 x = Some z -> IEEE.floor x = Some z).
Proof.
  split; [| exact IEEE_to_int64_floor].
  intros D HD log C env fuel o records ->.
  assert (Hsticky : sticky (batchSizeRatio o) (batchSize o)
                      (batch_sizes (handleOptions log C env fuel o).1)).
  { destruct (handleOptions_batch_sizes log C env fuel o)
      as [-> | [graph [ticks ->]]]; [exact I|].
    apply (rounds_sticky log C env fuel o (initialState C env o graph ticks)). }
  split; [exact Hsticky|]. split.
  - intros Hne. now apply (sticky_nonzero (batchSizeRatio o)).
  - intros Hzero edges first rest Hrecords.
    rewrite Hrecords, Hzero in Hsticky. cbn in Hsticky.
    destruct Hsticky as [Hfirst Hrest]. split; [exact Hfirst|]. split.
    + intros Hne. now apply (sticky_nonzero (batchSizeRatio o)).
    + now intros ->.
Qed.

(** Three rounds from 5 edges at ratio 0.25: the size 1 derived in the
    first round is reused while the graph grows to 10 and 20 edges. *)
Lemma batch_size_sticky_once_nonzero_witness :
  batch_sizes (Demo.run "uniform" 3 0 0.25).1 = [(5, 1); (10, 1); (20, 1)]
  /\ d_to_int64 (d_of_size_t 5 * 0.25%float)%dbl = Some 1
  /\ Forall (fun record : Z * Z => record.2 = 1) [(10, 1); (20, 1)].
Proof.
  destruct batch_size_sticky_once_nonzero as [Hsticky _].
  destruct (Hsticky float _ Demo.log (Demo.collaborators float)
              Demo.environment 10%nat (Demo.options "uniform" 3 0 0.25)
              [(5, 1); (10, 1); (20, 1)]) as (_ & _ & Hzero).
  - vm_compute. reflexivity.
  - destruct (Hzero eq_refl 5 1 [(10, 1); (20, 1)] eq_refl)
      as (Hfirst & Hkept & _).
    split; [vm_compute; reflexivity|]. split; [exact Hfirst|].
    apply Hkept. discriminate.
Defined.

(** Against C6 as stated.  The conversion to [int64_t] truncates toward
    zero: from 5 edges at the ratio -0.5 the product is -2.5, the size
    derived is -2 and the floor is -3.  The size is computed before a
    generator is called, so -2 is the first size of every run at that
    ratio that starts from 5 edges, whatever the collaborators.  And a
    derived size of zero is not kept: whatever the collaborators, a run
    at the ratio 0.1 whose first round finds 5 edges and whose second
    round finds 10 derives 0 and then 1.  The last line is one round of
    the demonstration, whose reader hands over a graph of 5 edges. *)
Lemma batch_size_truncated :
  (IEEE.of_Z 5 * -0.5)%float = (-2.5)%float
  /\ d_to_int64 (d_of_size_t 5 * (-0.5)%float)%dbl = Some (-2)
  /\ IEEE.floor (d_of_size_t 5 * (-0.5)%float)%dbl = Some (-3)
  /\ (forall (log : float -> float) (C : Collaborators float) (env : Environment)
             (fuel : nat) (o : Options float) (edges first : Z) (rest : list (Z * Z)),
         batchSize o = 0 -> batchSizeRatio o = (-0.5)%float ->
         batch_sizes (handleOptions log C env fuel o).1 = (edges, first) :: rest ->
         edges = 5 -> first = -2)
  /\ (forall (log : float -> float) (C : Collaborators float) (env : Environment)
             (fuel : nat) (o : Options float) (first second : Z) (rest : list (Z * Z)),
         batchSize o = 0 -> batchSizeRatio o = 0.1%float ->
         batch_sizes (handleOptions log C env fuel o).1
         = (5, first) :: (10, second) :: rest ->
         first = 0 /\ second = 1)
  /\ batch_sizes (Demo.run "uniform" 1 0 (-0.5)).1 = [(5, -2)].
Proof.
  split; [reflexivity|]. split; [reflexivity|]. split; [reflexivity|].
  split; [| split; [| vm_compute; reflexivity]].
  - intros log C env fuel o edges first rest Hsize Hratio Hrecords ->.
    pose proof (handleOptions_sticky log C env fuel o) as Hsticky.
    rewrite Hrecords, Hsize, Hratio in Hsticky. cbn [sticky Z.eqb] in Hsticky.
    destruct Hsticky as [Hfirst _]. vm_compute in Hfirst. now injection Hfirst.
  - intros log C env fuel o first second rest Hsize Hratio Hrecords.
    pose proof (handleOptions_sticky log C env fuel o) as Hsticky.
    rewrite Hrecords, Hsize, Hratio in Hsticky. cbn [sticky Z.eqb] in Hsticky.
    destruct Hsticky as [Hfirst [Hsecond _]].
    vm_compute in Hfirst. injection Hfirst as <-.
    cbn [Z.eqb] in Hsecond. vm_compute in Hsecond. now injection Hsecond.
Qed.

(** C7.  A run that returns, other than a request for help, was given a
    round count [N] that is not negative and wrote exactly [N] files, in
    this order the files [<outputDir><outputPrefix>_<k>] for [k] from 1 to
    [N], no path twice; nothing in the statement depends on how the
    scorings ended; and the run is the same with any larger fuel. *)
Theorem one_output_file_per_round :
  forall (D : Type) (HD : Double D) (log : D -> D) (C : Collaborators D)
         (env : Environment) (fuel : nat) (o : Options D) (t : list (event D)),
    help o = false ->
    handleOptions log C env fuel o = (t, Returned tt) ->
    0 <= multiBatch o
    /\ (output_files t).*1
       = outputFileName (outputDir o) (outputPrefix o) <$> seqZ 1 (multiBatch o)
    /\ length (output_files t) = Z.to_nat (multiBatch o)
    /\ NoDup (output_files t).*1
    /\ forall fuel', (fuel <= fuel')%nat ->
                     handleOptions log C env fuel' o = (t, Returned tt).
Proof.
  intros D HD log C env fuel o t Hhelp Hrun.
  destruct (handleOptions_completed log C env fuel o t Hhelp Hrun)
    as (prefix & graph & ticks & t' & Hquiet & Ht & Hcompleted & Hfuel).
  pose proof (completed_count _ _ _ _ _ _ Hcompleted) as Hcount.
  pose proof (completed_files _ _ _ _ _ _ Hcompleted) as Hfiles.
  cbn [initialState st_multiBatch st_counter] in Hcount, Hfiles.
  assert (Hpaths : (output_files t).*1
                   = outputFileName (outputDir o) (outputPrefix o)
                     <$> seqZ 1 (multiBatch o)).
  { subst t. unfold output_files in *.
    rewrite omap_app, (quiet_omap written prefix) by easy. exact Hfiles. }
  split; [exact Hcount|]. split; [exact Hpaths|]. split; [| split].
  - rewrite <- (length_fmap fst), Hpaths, length_fmap, length_seqZ. lia.
  - rewrite Hpaths. apply NoDup_fmap_2; [| apply NoDup_seqZ].
    intros k k'. apply outputFileName_inj.
  - exact Hfuel.
Qed.

(** Three rounds with the uniform generator: three files, three failed
    scorings. *)
Lemma one_output_file_per_round_witness :
  (output_files (Demo.run "uniform" 3 0 0.1).1).*1
  = ["out/g_1"; "out/g_2"; "out/g_3"]%string
  /\ length (omap (fun e => match e with
                            | FidelityScored _ _ (Thrown _) => Some e
                            | _ => None
                            end) (Demo.run "uniform" 3 0 0.1).1) = 3%nat.
Proof.
  destruct (one_output_file_per_round float _ Demo.log (Demo.collaborators float)
              Demo.environment 10%nat (Demo.options "uniform" 3 0 0.1)
              (Demo.run "uniform" 3 0 0.1).1) as (_ & Hpaths & _).
  - reflexivity.
  - vm_compute. reflexivity.
  - split; [rewrite Hpaths|]; vm_compute; reflexivity.
Defined.

(** C8.  With a seed among the options, two runs under the same options,
    in environments that hold the same input files and allow the same
    output files but differ in the clock and in the random device, write
    the same files with the same contents in the same order, and end the
    same way. *)
Theorem output_files_deterministic :
  forall (D : Type) (HD : Double D) (log : D -> D) (C : Collaborators D)
         (env env' : Environment) (fuel : nat) (o : Options D),
    is_Some (seed o) ->
    input_file env = input_file env' ->
    output_creatable env = output_creatable env' ->
    output_files (handleOptions log C env fuel o).1
    = output_files (handleOptions log C env' fuel o).1
    /\ (handleOptions log C env fuel o).2 = (handleOptions log C env' fuel o).2.
Proof.
  intros D HD log C env env' fuel o Hseed Hinputs Houtputs.
  pose proof (handleOptions_agree log C env env' Hinputs Houtputs fuel o Hseed)
    as Hagree.
  split; [now apply agree_output_files | apply Hagree].
Qed.

(** Two environments with different clocks and random devices. *)
Lemma output_files_deterministic_witness :
  output_files
    (handleOptions Demo.log (Demo.collaborators float) Demo.environment 10
       (Demo.options "" 2 0 0.5)).1
  = output_files
      (handleOptions Demo.log (Demo.collaborators float) Demo.environment' 10
         (Demo.options "" 2 0 0.5)).1.
Proof.
  apply (output_files_deterministic float _ Demo.log (Demo.collaborators float)
           Demo.environment Demo.environment' 10%nat (Demo.options "" 2 0 0.5)).
  - now eexists.
  - reflexivity.
  - reflexivity.
Defined.

(** Without a seed the random device decides: the same two environments
    lead to different files. *)
Example unseeded_runs_differ :
  output_files
    (handleOptions Demo.log (Demo.collaborators float) Demo.environment 10
       (Demo.unseeded "" 1 3 0.5)).1
  <> output_files
       (handleOptions Demo.log (Demo.collaborators float) Demo.environment' 10
          (Demo.unseeded "" 1 3 0.5)).1.
Proof. vm_compute. discriminate. Qed.

(** C10.  Under an update nature other than the empty string,
    [handleUpdateNature] hands back the weight vector it was given
    whenever it returns, which it does under the four names the dispatch
    knows; a round passes it the empty vector, so the vector a round
    normalizes, the normalized vector, and the second argument of the
    scoring all have length zero. *)
Theorem weights_stay_empty :
  forall (D : Type) (HD : Double D) (log : D -> D) (C : Collaborators D)
         (env : Environment) (o : Options D),
    updateNature o <> ""%string ->
    (forall (distribution : string) (graph : Graph C) (rng : Rng C) (batchSize : Z)
            (deletions insertions : D) (weights : list D) (duplicates : bool),
        (forall t graph' rng' weights',
            handleUpdateNature C distribution (updateNature o) graph rng batchSize
              deletions insertions weights duplicates
            = (t, Returned (graph', rng', weights')) ->
            weights' = weights)
        /\ (In (updateNature o) named_natures ->
            exists graph' rng',
              handleUpdateNature C distribution (updateNature o) graph rng
                batchSize deletions insertions weights duplicates
              = ([BatchGenerated (updateNature o) batchSize weights;
                  BatchApplied (graph_size C graph')],
                 Returned (graph', rng', weights))))
    /\ (forall (st : RunState C),
          (forall nature batchSize weights,
              In (BatchGenerated nature batchSize weights)
                 (round log C env o st).1 -> weights = [])
          /\ (forall weights actual real,
                In (DistributionsAnalyzed weights actual real)
                   (round log C env o st).1 ->
                weights = [] /\ actual = [])
          /\ (forall P Q result,
                In (FidelityScored P Q result) (round log C env o st).1 ->
                length Q = 0%nat)).
Proof.
  intros D HD log C env o Hnature. split.
  - intros distribution graph rng batchSize deletions insertions weights duplicates.
    destruct (handleUpdateNature_cases C distribution (updateNature o) graph rng
                batchSize deletions insertions weights duplicates)
      as [[what Hthrown] | (graph' & rng' & weights' & Hreturned & Hkept)].
    + split.
      * intros t g r w Heq. rewrite Hthrown in Heq. discriminate.
      * intros Hnamed. exfalso. revert Hthrown. unfold handleUpdateNature.
        destruct Hnamed as [<- | [<- | [<- | [<- | []]]]]; cbn;
          repeat case_match; discriminate.
    + specialize (Hkept Hnature). subst weights'. split.
      * intros t g r w Heq. rewrite Hreturned in Heq. now injection Heq.
      * intros _. now exists graph', rng'.
  - intros st.
    assert (Hempty : forall t batchSize graph rng weights,
               handleUpdateNature C (probabilityDistribution o) (updateNature o)
                 (st_graph st) (st_rng st) batchSize (edgeDeletions o)
                 (edgeInsertions o) [] (allowDuplicateEdges o)
               = (t, Returned (graph, rng, weights)) -> weights = []).
    { intros t batchSize graph rng weights Heq.
      destruct (handleUpdateNature_cases C (probabilityDistribution o)
                  (updateNature o) (st_graph st) (st_rng st) batchSize
                  (edgeDeletions o) (edgeInsertions o) [] (allowDuplicateEdges o))
        as [[what Hthrown] | (graph' & rng' & weights' & Hreturned & Hkept)].
      - rewrite Hthrown in Heq. discriminate.
      - rewrite Hreturned in Heq. injection Heq as _ _ _ <-. now apply Hkept. }
    split; [| split].
    + intros nature batchSize weights Hin.
      apply round_weights in Hin as [(t & b & g & r & Heq) _]. eauto.
    + intros weights actual real Hin.
      apply round_weights in Hin as [(t & b & g & r & Heq) Hnormalize].
      apply Hempty in Heq. subst weights. split; [reflexivity|].
      now injection Hnormalize.
    + intros P Q result Hin.
      apply round_scored in Hin
        as (st' & before & weights & rng & report & _ & _ & _ & Hnormalize & Hgraph).
      destruct (handleUpdateNature C (probabilityDistribution o) (updateNature o)
                  (st_graph st) (st_rng st) (wrap_size_t (st_batchSize st'))
                  (edgeDeletions o) (edgeInsertions o) [] (allowDuplicateEdges o))
        as [t r] eqn:Heq.
      cbn in Hgraph. subst r. apply Hempty in Heq. subst weights.
      injection Hnormalize as <-. reflexivity.
Qed.

(** A round with the preferential generator. *)
Lemma weights_stay_empty_witness :
  Forall (fun e => match e with
                   | FidelityScored _ Q _ => length Q = 0%nat
                   | _ => True
                   end)
    (round Demo.log (Demo.collaborators float) Demo.environment
       (Demo.options "preferential" 2 0 0.1)
       (enter_round (Demo.entry 2 0))).1.
Proof.
  destruct (weights_stay_empty float _ Demo.log (Demo.collaborators float)
              Demo.environment (Demo.options "preferential" 2 0 0.1))
    as [_ Hround].
  - discriminate.
  - apply List.Forall_forall. intros e Hin.
    destruct e; try exact I.
    now apply (Hround (enter_round (Demo.entry 2 0))) in Hin.
Defined.

(** * Further properties of the code *)

(** ** [KLDivergence] on IEEE doubles *)

(** A finite double is a zero or has a mantissa. *)
Lemma finite_cases (x : float) :
  is_finite x = true ->
  (exists s, Prim2SF x = S754_zero s) \/ (exists s m e, Prim2SF x = S754_finite s m e).
Proof.
  unfold is_finite. intros [Hnan Hinf]%negb_true_iff%orb_false_iff.
  destruct (Prim2SF x) as [s | s | | s m e] eqn:Hx.
  - left. now exists s.
  - apply float_is_infinity in Hx. congruence.
  - apply float_is_nan in Hx. congruence.
  - right. now exists s, m, e.
Qed.

Lemma div_eucl_shift53 (m : positive) :
  Z.div_eucl (Z.shiftl (Z.pos m) 53) (Z.pos m) = (9007199254740992, 0).
Proof.
  pose proof (Z.div_eucl_eq (Z.shiftl (Z.pos m) 53) (Z.pos m) ltac:(lia)) as Heq.
  pose proof (Z.mod_pos_bound (Z.shiftl (Z.pos m) 53) (Z.pos m) ltac:(lia)) as Hbound.
  unfold Z.modulo in Hbound.
  destruct (Z.div_eucl (Z.shiftl (Z.pos m) 53) (Z.pos m)) as [q r].
  rewrite Z.shiftl_mul_pow2 in Heq by lia.
  change (2 ^ 53) with 9007199254740992 in Heq.
  assert (q = 9007199254740992) by nia.
  subst q. f_equal. lia.
Qed.

(** A finite nonzero double divided by itself is exactly [1.0]: the
    quotient of the mantissa shifted by 53 bits and itself is [2^53]
    without remainder. *)
Lemma SF64div_same (s : bool) (m : positive) (e : Z) :
  SF64div (S754_finite s m e) (S754_finite s m e) = Prim2SF 1%float.
Proof.
  unfold SF64div, SFdiv, SFdiv_core_binary.
  replace (Zdigits2 (Z.pos m) + e - (Zdigits2 (Z.pos m) + e)) with 0 by lia.
  rewrite Z.sub_diag.
  change (fexp prec emax 0 `min` 0) with (-53).
  change (0 - -53) with 53.
  cbv zeta. cbv iota beta.
  change (IntDef.Z.div_eucl (Z.pos m ≪ 53) (Z.pos m))
    with (Z.div_eucl (Z.shiftl (Z.pos m) 53) (Z.pos m)).
  rewrite div_eucl_shift53.
  rewrite xorb_nilpotent.
  assert (Hloc : new_location (Z.pos m) 0 = loc_Exact).
  { unfold new_location. destruct (IntDef.Z.even _); reflexivity. }
  rewrite Hloc. reflexivity.
Qed.

Lemma float_div_same (x : float) :
  is_finite x = true -> (x =? 0)%float = false -> (x / x)%float = 1%float.
Proof.
  intros Hfinite Hnonzero. apply Prim2SF_inj. rewrite div_spec.
  destruct (finite_cases x Hfinite) as [[s Hx] | (s & m & e & Hx)].
  - rewrite FloatAxioms.eqb_spec, Hx in Hnonzero. destruct s; discriminate.
  - rewrite Hx. apply SF64div_same.
Qed.

Section KLDivergenceEntries.
Context {D : Type} `{Double D}.
Variable log : D -> D.
Hypothesis zero_eqb : (d_zero == d_zero)%dbl = true.

(** The loop reads [P] and [Q] through their entries, and [Q] only where
    the entry of [P] is nonzero. *)
Lemma KLDivergence_loop_entries (P Q P' Q' : list D) (n i : nat) (divergence : D) :
  (forall j, (i <= j < i + n)%nat ->
     entry P j = entry P' j
     /\ ((entry P j == d_zero)%dbl = false -> entry Q j = entry Q' j)) ->
  KLDivergence_loop log P Q n i divergence
  = KLDivergence_loop log P' Q' n i divergence.
Proof.
  revert i divergence. induction n as [| n IH]; intros i divergence Hsame;
    [reflexivity|].
  cbn [KLDivergence_loop]. rewrite !entry_guarded.
  destruct (Hsame i ltac:(lia)) as [Hp Hq]. rewrite <- Hp.
  assert (Hrest : forall j, (S i <= j < S i + n)%nat ->
            entry P j = entry P' j
            /\ ((entry P j == d_zero)%dbl = false -> entry Q j = entry Q' j))
    by (intros j Hj; apply Hsame; lia).
  destruct (entry P i == d_zero)%dbl eqn:Hzero; cbn [negb]; [now apply IH|].
  rewrite <- (Hq eq_refl).
  destruct (entry Q i == d_zero)%dbl; [reflexivity | now apply IH].
Qed.

(** Iterations past the end of [P] add nothing. *)
Lemma KLDivergence_loop_past (P Q : list D) (n m i : nat) (divergence : D) :
  (length P <= i + n)%nat ->
  KLDivergence_loop log P Q (n + m) i divergence
  = KLDivergence_loop log P Q n i divergence.
Proof.
  revert i divergence. induction n as [| n IH]; intros i divergence Hpast.
  - cbn [Nat.add]. revert i divergence Hpast.
    induction m as [| m IHm]; intros i divergence Hpast; [reflexivity|].
    cbn [KLDivergence_loop]. rewrite !entry_guarded.
    unfold entry at 1. rewrite nth_overflow by lia. rewrite zero_eqb. cbn [negb].
    rewrite IHm by lia. reflexivity.
  - cbn [Nat.add KLDivergence_loop].
    repeat case_match; try reflexivity; apply IH; lia.
Qed.

Lemma KLDivergence_entries (P Q P' Q' : list D) :
  (forall j, entry P j = entry P' j
             /\ ((entry P j == d_zero)%dbl = false -> entry Q j = entry Q' j)) ->
  KLDivergence log P Q = KLDivergence log P' Q'.
Proof.
  intros Hsame. unfold KLDivergence.
  set (n := Nat.max (length P) (length Q)).
  set (n' := Nat.max (length P') (length Q')).
  rewrite <- (KLDivergence_loop_past P Q n n' 0) by lia.
  rewrite <- (KLDivergence_loop_past P' Q' n' n 0) by lia.
  rewrite (Nat.add_comm n' n).
  apply KLDivergence_loop_entries. intros j _. apply Hsame.
Qed.

End KLDivergenceEntries.

Lemma entry_app_zeros {D : Type} `{Double D} (V : list D) (k j : nat) :
  entry (V ++ repeat d_zero k) j = entry V j.
Proof.
  unfold entry. destruct (Nat.lt_ge_cases j (length V)) as [Hlt | Hge].
  - now rewrite app_nth1.
  - rewrite app_nth2, (nth_overflow V) by lia.
    destruct (Nat.lt_ge_cases (j - length V) k) as [Hin | Hout].
    + now rewrite nth_repeat_lt.
    + rewrite nth_overflow; [reflexivity | now rewrite repeat_length].
Qed.

(** X1.  [KLDivergence] reads both vectors through their entries, an
    entry past the end of a vector counting as [0.0], and reads [Q] only
    where the entry of [P] is nonzero: two calls whose arguments agree in
    this sense end the same way.  So zeros appended to either vector
    change nothing, and neither does anything appended to a [Q] that is
    at least as long as [P]. *)
Theorem KLDivergence_missing_entries (log : float -> float) (P Q : list float) :
  (forall P' Q',
      (forall j, entry P j = entry P' j) ->
      (forall j, (entry P j == d_zero)%dbl = false -> entry Q j = entry Q' j) ->
      KLDivergence log P Q = KLDivergence log P' Q')
  /\ (forall k, KLDivergence log (P ++ repeat 0%float k) Q = KLDivergence log P Q)
  /\ (forall k, KLDivergence log P (Q ++ repeat 0%float k) = KLDivergence log P Q)
  /\ (forall R, (length P <= length Q)%nat ->
                KLDivergence log P (Q ++ R) = KLDivergence log P Q).
Proof.
  split; [| split; [| split]].
  - intros P' Q' Hp Hq. apply KLDivergence_entries; [reflexivity|].
    intros j. split; [apply Hp | apply Hq].
  - intros k. apply KLDivergence_entries; [reflexivity|].
    intros j.
    rewrite (entry_app_zeros (H := IEEE.double) P k j
             : entry (P ++ repeat 0%float k) j = entry P j).
    now split.
  - intros k. apply KLDivergence_entries; [reflexivity|].
    intros j. split; [reflexivity|]. intros _.
    exact (entry_app_zeros (H := IEEE.double) Q k j).
  - intros R Hlen. apply KLDivergence_entries; [reflexivity|].
    intros j. split; [reflexivity|]. intros Hnonzero.
    unfold entry in *. destruct (Nat.lt_ge_cases j (length Q)) as [Hlt | Hge].
    + now rewrite app_nth1.
    + rewrite (nth_overflow P) in Hnonzero by lia. discriminate.
Qed.

Lemma float_add_mul_zero (x z : float) :
  is_finite x = true -> (x =? 0)%float = false -> (z =? 0)%float = true ->
  (0 + x * z)%float = 0%float.
Proof.
  intros Hfinite Hnonzero Hzero. apply Prim2SF_inj. rewrite add_spec, mul_spec.
  apply float_eqb_zero in Hzero as [sz Hz]. rewrite Hz.
  destruct (finite_cases x Hfinite) as [[s Hx] | (s & m & e & Hx)].
  - rewrite FloatAxioms.eqb_spec, Hx in Hnonzero. destruct s; discriminate.
  - rewrite Hx. destruct s, sz; reflexivity.
Qed.

Lemma KLDivergence_loop_self (log : float -> float) (P : list float) (n i : nat) :
  (log 1 =? 0)%float = true -> Forall (fun p => is_finite p = true) P ->
  KLDivergence_loop log P P n i 0%float = Returned 0%float.
Proof.
  intros Hlog Hfinite. revert i. induction n as [| n IH]; intros i; [reflexivity|].
  cbn [KLDivergence_loop]. rewrite !entry_guarded.
  cbn [d_eqb d_zero d_one d_add d_mul d_div IEEE.double].
  destruct (entry P i =? 0)%float eqn:Hzero; cbn [negb]; [apply IH|].
  assert (Hentry : is_finite (entry P i) = true).
  { unfold entry. destruct (Nat.lt_ge_cases i (length P)) as [Hlt | Hge].
    - rewrite List.Forall_forall in Hfinite. apply Hfinite. now apply nth_In.
    - unfold entry in Hzero. rewrite nth_overflow in Hzero by lia. discriminate. }
  rewrite float_mul_one_r, float_div_same, float_add_mul_zero by assumption.
  apply IH.
Qed.

(** X2.  On IEEE doubles, with a logarithm that is zero at [1.0], the
    divergence of a vector of finite entries from itself is exactly
    [0.0]: every quotient [P[i] * 1.0 / P[i]] taken is exactly [1.0]. *)
Theorem KLDivergence_self (log : float -> float) (P : list float) :
  (log 1 =? 0)%float = true -> Forall (fun p => is_finite p = true) P ->
  KLDivergence log P P = Returned 0%float.
Proof. intros Hlog Hfinite. now apply KLDivergence_loop_self. Qed.

Lemma KLDivergence_self_witness :
  KLDivergence Demo.log [0.2; 0; 0.3; 0.5]%float [0.2; 0; 0.3; 0.5]%float
  = Returned 0%float.
Proof.
  apply KLDivergence_self; [reflexivity|].
  repeat constructor.
Defined.

(** ** The degree distributions *)

Section TallyFacts.
Variable f : Z -> Z.

Lemma wrap_size_t_add_l (a b : Z) :
  wrap_size_t (wrap_size_t a + b) = wrap_size_t (a + b).
Proof. unfold wrap_size_t. apply Zplus_mod_idemp_l. Qed.

Lemma tally_lookup (us : list Z) (distribution : gmap Z Z) (k : Z) :
  fold_left (fun distribution u => map_increment (wrap_size_t (f u)) distribution)
    us distribution !! k
  = if decide (occurrences f us k = 0) then distribution !! k
    else Some (wrap_size_t (default 0 (distribution !! k) + occurrences f us k)).
Proof.
  unfold occurrences.
  revert distribution. induction us as [| u us IH]; intros distribution;
    [reflexivity|].
  cbn [fold_left]. rewrite IH. unfold map_increment.
  rewrite filter_cons.
  destruct (decide (wrap_size_t (f u) = k)) as [-> | Hother].
  - rewrite lookup_insert_eq. cbn [length]. simpl (default 0 (Some _)).
    rewrite wrap_size_t_add_l.
    repeat case_decide; try lia; f_equal; f_equal; lia.
  - rewrite lookup_insert_ne by exact Hother. reflexivity.
Qed.

Lemma total_count_insert (distribution : gmap Z Z) (k v : Z) :
  total_count (<[k := v]> distribution)
  = total_count distribution - default 0 (distribution !! k) + v.
Proof.
  unfold total_count.
  rewrite <- (insert_delete_eq distribution k v).
  rewrite (count_sum_Permutation _ _
             (map_to_list_insert (delete k distribution) k v (lookup_delete_eq _ _))).
  destruct (distribution !! k) as [c |] eqn:Hk; simpl default; cbn [foldr snd].
  - rewrite <- (insert_delete_id distribution k c Hk) at 2.
    rewrite (count_sum_Permutation _ _
               (map_to_list_insert (delete k distribution) k c (lookup_delete_eq _ _))).
    cbn. lia.
  - rewrite (delete_id distribution k Hk). lia.
Qed.

Lemma count_le_total (distribution : gmap Z Z) (k c : Z) :
  (forall key count, distribution !! key = Some count -> 0 < count) ->
  distribution !! k = Some c -> c <= total_count distribution.
Proof.
  intros Hpos Hk.
  rewrite <- (insert_id distribution k c Hk) at 1.
  assert (Hrest : 0 <= total_count (delete k distribution)).
  { apply count_sum_nonneg, Forall_forall. intros [key count] Hin.
    apply elem_of_map_to_list, lookup_delete_Some in Hin as [_ Hin]. cbn. eauto. }
  rewrite <- (insert_delete_eq distribution k c), total_count_insert,
    lookup_delete_eq in *. simpl default. lia.
Qed.

Lemma tally_total (us : list Z) (distribution : gmap Z Z) :
  (forall key count, distribution !! key = Some count -> 0 < count) ->
  total_count distribution + Z.of_nat (length us) < 2 ^ 64 ->
  let tallied :=
    fold_left (fun distribution u => map_increment (wrap_size_t (f u)) distribution)
      us distribution in
  (forall key count, tallied !! key = Some count -> 0 < count)
  /\ total_count tallied = total_count distribution + Z.of_nat (length us).
Proof.
  revert distribution. induction us as [| u us IH]; intros distribution Hpos Hbound.
  - cbn. split; [exact Hpos | lia].
  - cbn [fold_left length] in *.
    set (k := wrap_size_t (f u)).
    assert (Hstep : map_increment k distribution
                    = <[k := default 0 (distribution !! k) + 1]> distribution).
    { unfold map_increment. f_equal. unfold wrap_size_t. apply Z.mod_small.
      destruct (distribution !! k) as [c |] eqn:Hk; simpl default; [| lia].
      pose proof (Hpos k c Hk). pose proof (count_le_total _ _ _ Hpos Hk). lia. }
    destruct (IH (map_increment k distribution)) as [Hpos' Htotal].
    + intros key count. rewrite Hstep.
      destruct (decide (k = key)) as [<- | Hne].
      * rewrite lookup_insert_eq. intros [= <-].
        destruct (distribution !! k) as [c |] eqn:Hk; simpl default; [| lia].
        pose proof (Hpos k c Hk). lia.
      * rewrite lookup_insert_ne by exact Hne. apply Hpos.
    + rewrite Hstep, total_count_insert. lia.
    + split; [exact Hpos'|]. rewrite Htotal, Hstep, total_count_insert. lia.
Qed.

Lemma occurrences_bounds (us : list Z) (k : Z) :
  0 <= occurrences f us k <= Z.of_nat (length us).
Proof.
  unfold occurrences. pose proof (length_filter (fun u => wrap_size_t (f u) = k) us).
  lia.
Qed.

(** The tally of a list of vertices, started from the empty map. *)
Lemma tally_empty (us : list Z) :
  Z.of_nat (length us) < 2 ^ 64 ->
  let tallied :=
    fold_left (fun distribution u => map_increment (wrap_size_t (f u)) distribution)
      us ∅ in
  (forall k c, tallied !! k = Some c <-> c = occurrences f us k /\ 0 < c)
  /\ (forall k c, tallied !! k = Some c -> 0 < c)
  /\ total_count tallied = Z.of_nat (length us)
  /\ totalVertices tallied = Z.of_nat (length us)
  /\ (us <> [] -> tallied <> ∅).
Proof.
  intros Hbound tallied.
  assert (Hlookup : forall k c,
             tallied !! k = Some c <-> c = occurrences f us k /\ 0 < c).
  { intros k c. unfold tallied. rewrite tally_lookup, lookup_empty.
    pose proof (occurrences_bounds us k) as Hocc.
    simpl default. rewrite Z.add_0_l.
    unfold wrap_size_t. rewrite Z.mod_small by lia.
    case_decide; split; try discriminate; try lia.
    - intros [= <-]. lia.
    - intros [-> _]. reflexivity. }
  destruct (tally_total us ∅) as [Hpos Htotal].
  { intros key count. now rewrite lookup_empty. }
  { change (total_count ∅) with 0. lia. }
  fold tallied in Hpos, Htotal. change (total_count ∅) with 0 in Htotal.
  split; [exact Hlookup|]. split; [exact Hpos|]. split; [lia|]. split.
  - rewrite totalVertices_exact; [lia | exact Hpos | lia].
  - intros Hne Hempty. rewrite Hempty in Htotal.
    change (total_count ∅) with 0 in Htotal.
    destruct us; [congruence | cbn in Htotal; lia].
Qed.

End TallyFacts.

(** X3.  [calculateInDegreeDistribution] adds to the map it is handed:
    the bucket of an in-degree grows, modulo [2^64], by the number of
    vertices of that in-degree, and a bucket no vertex falls into is left
    as it was, absent if it was absent. *)
Theorem calculateInDegreeDistribution_accumulates :
  forall (D : Type) (C : Collaborators D) (graph : Graph C)
         (distribution : gmap Z Z) (k : Z),
    let vertices :=
      occurrences (graph_indegree C graph) (graph_vertexKeys C graph) k in
    calculateInDegreeDistribution C graph distribution !! k
    = if decide (vertices = 0) then distribution !! k
      else Some (wrap_size_t (default 0 (distribution !! k) + vertices)).
Proof. intros D C graph distribution k. apply tally_lookup. Qed.

(** X4.  For a graph with fewer than [2^64] vertices, the in-degree
    distribution built from the empty map holds exactly the in-degrees
    that occur, each with the number of vertices that have it; its
    counts add up to the number of vertices; the probability vector
    computed from it divides each count by the number of vertices; and
    for a graph with at least one vertex the entries of that vector sum
    to exactly [1.0] where the arithmetic is exact. *)
Theorem in_degree_probabilities :
  forall (D : Type) (HD : Double D) (C : Collaborators D) (graph : Graph C),
    let vertices := graph_vertexKeys C graph in
    let distribution := calculateInDegreeDistribution C graph ∅ in
    Z.of_nat (length vertices) < 2 ^ 64 ->
    (forall k c,
        distribution !! k = Some c
        <-> c = occurrences (graph_indegree C graph) vertices k /\ 0 < c)
    /\ total_count distribution = Z.of_nat (length vertices)
    /\ degreeDistributionToProbability distribution
       = Returned
           (map (fun pair =>
                   (d_of_size_t pair.2 / d_of_size_t (Z.of_nat (length vertices)))%dbl)
                (map_pairs distribution))
    /\ (ExactDouble D -> vertices <> [] ->
        exists real,
          degreeDistributionToProbability distribution = Returned real
          /\ d_sum real = d_one).
Proof.
  intros D HD C graph vertices distribution Hbound.
  subst vertices distribution. unfold calculateInDegreeDistribution.
  destruct (tally_empty (graph_indegree C graph) (graph_vertexKeys C graph) Hbound)
    as (Hlookup & Hpos & Htotal & Hvertices & Hne).
  split; [exact Hlookup|]. split; [exact Htotal|]. split.
  - unfold degreeDistributionToProbability. now rewrite Hvertices.
  - intros Hexact Hsome. eexists. split; [reflexivity|].
    apply d_sum_probabilities; [exact Hpos | now apply Hne | lia].
Qed.

(** The graph of the demonstration over the rationals: three vertices of
    in-degree 1 and one of in-degree 2. *)
Lemma in_degree_probabilities_witness :
  degreeDistributionToProbability (D := Qc)
    (calculateInDegreeDistribution (Demo.collaborators Qc) Demo.initial ∅)
  = Returned [Q2Qc (3 # 4); Q2Qc (1 # 4)]
  /\ d_sum [Q2Qc (3 # 4); Q2Qc (1 # 4)] = Q2Qc 1.
Proof.
  destruct (in_degree_probabilities Qc _ (Demo.collaborators Qc) Demo.initial)
    as (_ & _ & _ & Hsum).
  - vm_compute. reflexivity.
  - destruct Hsum as (real & Hreal & Hone); [apply exact_Qc | discriminate |].
    assert (Heq : degreeDistributionToProbability (D := Qc)
              (calculateInDegreeDistribution (Demo.collaborators Qc) Demo.initial ∅)
            = Returned [Q2Qc (3 # 4); Q2Qc (1 # 4)]).
    { vm_compute. reflexivity. }
    split; [exact Heq|]. rewrite Heq in Hreal. injection Hreal as <-. exact Hone.
Defined.

(** X5.  [calculateDegreeDistribution] prints one table and does
    nothing else.  For a graph with fewer than [2^64] vertices the rows
    of the table are in strictly ascending order of degree and hold
    exactly the degrees that occur, each with the number of vertices of
    that degree, and the counts add up to the number of vertices. *)
Theorem degree_table :
  forall (D : Type) (C : Collaborators D) (graph : Graph C),
    let vertices := graph_vertexKeys C graph in
    Z.of_nat (length vertices) < 2 ^ 64 ->
    exists rows,
      calculateDegreeDistribution C graph = ([Console (DegreeTable rows)], Returned tt)
      /\ StronglySorted Z.lt rows.*1
      /\ (forall k c,
            (k, c) ∈ rows
            <-> c = occurrences (graph_degree C graph) vertices k /\ 0 < c)
      /\ foldr (fun row total => row.2 + total) 0 rows = Z.of_nat (length vertices).
Proof.
  intros D C graph vertices Hbound. subst vertices.
  destruct (tally_empty (graph_degree C graph) (graph_vertexKeys C graph) Hbound)
    as (Hlookup & _ & Htotal & _).
  eexists. split; [reflexivity|]. split; [apply map_pairs_ascending|]. split.
  - intros k c. rewrite map_pairs_lookup. apply Hlookup.
  - rewrite (count_sum_Permutation _ _ (map_pairs_Permutation _)). exact Htotal.
Qed.

(** The graph of the demonstration: three vertices of degree 1 and one
    of degree 2. *)
Lemma degree_table_witness :
  calculateDegreeDistribution (Demo.collaborators float) Demo.initial
  = ([Console (DegreeTable [(1, 3); (2, 1)])], Returned tt)
  /\ foldr (fun row total => row.2 + total) 0 [(1, 3); (2, 1)] = 4.
Proof.
  destruct (degree_table float (Demo.collaborators float) Demo.initial)
    as (rows & Hrows & _ & _ & Hsum).
  - vm_compute. reflexivity.
  - assert (Heq : calculateDegreeDistribution (Demo.collaborators float) Demo.initial
                  = ([Console (DegreeTable [(1, 3); (2, 1)])], Returned tt)).
    { vm_compute. reflexivity. }
    split; [exact Heq|]. rewrite Heq in Hrows. injection Hrows as <-. exact Hsum.
Defined.

(** ** Before the loop *)

Lemma bind_ret_l {D A B : Type} (a : A) (f : A -> M D B) :
  ([], Returned a) ≫= f = f a.
Proof. cbn. now destruct (f a). Qed.

Lemma bind_ext {D A B : Type} (m : M D A) (f g : A -> M D B) :
  (forall a, f a = g a) -> m ≫= f = m ≫= g.
Proof. intros Hsame. destruct m as [t [a | e | |]]; cbn; now rewrite ?Hsame. Qed.

Section BeforeLoop.
Context {D : Type} `{Double D}.
Variable log : D -> D.
Variable C : Collaborators D.
Variable env : Environment.

Lemma handleInputTransform_known (name : string) (graph : Graph C) :
  name ∈ applied_transforms ++ ignored_transforms ->
  handleInputTransform C name graph = ([], Returned (transformed C [name] graph)).
Proof.
  intros Hin. apply list_elem_of_In in Hin. cbn in Hin.
  repeat (destruct Hin as [<- | Hin]; [reflexivity|]). destruct Hin.
Qed.

Lemma handleInputTransform_unknown (name : string) (graph : Graph C) :
  name ∉ applied_transforms ++ ignored_transforms ->
  handleInputTransform C name graph
  = ([], Thrown (runtime_error ("Unknown input transform: " ++ name))).
Proof.
  intros Hout. unfold handleInputTransform.
  repeat match goal with
         | |- context [String.eqb name ?known] =>
             destruct (String.eqb_spec name known) as [-> | _];
             [exfalso; apply Hout; apply list_elem_of_In; cbn; tauto|]
         end.
  reflexivity.
Qed.

Lemma applyTransforms_known (names : list string) (graph : Graph C) (ticks : nat) :
  Forall (fun name => name ∈ applied_transforms ++ ignored_transforms) names ->
  applyTransforms C env names graph ticks
  = (transform_lines env names ticks,
     Returned (transformed C names graph, (ticks + length names)%nat)).
Proof.
  intros Hknown. revert graph ticks.
  induction Hknown as [| name names Hname Hknown IH]; intros graph ticks.
  - cbn. now rewrite Nat.add_0_r.
  - cbn [applyTransforms]. rewrite (handleInputTransform_known name graph Hname).
    cbn -[transformed]. rewrite IH. cbn [length].
    now replace (S ticks + length names)%nat with (ticks + S (length names))%nat by lia.
Qed.

Lemma applyTransforms_unknown (names rest : list string) (bad : string)
    (graph : Graph C) (ticks : nat) :
  Forall (fun name => name ∈ applied_transforms ++ ignored_transforms) names ->
  bad ∉ applied_transforms ++ ignored_transforms ->
  applyTransforms C env (names ++ bad :: rest) graph ticks
  = (transform_lines env names ticks,
     Thrown (runtime_error ("Unknown input transform: " ++ bad))).
Proof.
  intros Hknown Hbad. revert graph ticks.
  induction Hknown as [| name names Hname Hknown IH]; intros graph ticks.
  - cbn [app applyTransforms]. now rewrite (handleInputTransform_unknown bad graph Hbad).
  - cbn [app applyTransforms]. rewrite (handleInputTransform_known name graph Hname).
    cbn -[transformed]. now rewrite IH.
Qed.

Lemma transformed_ignored (names : list string) (graph : Graph C) :
  transformed C names graph
  = transformed C (filter (fun name => name ∈ applied_transforms) names) graph.
Proof.
  revert graph. induction names as [| name names IH]; intros graph; [reflexivity|].
  rewrite filter_cons. unfold transformed at 1. cbn [fold_left].
  fold (transformed C names).
  destruct (String.eqb_spec name "transpose") as [-> | Htranspose].
  { rewrite decide_True by (apply list_elem_of_In; cbn; tauto). cbn. apply IH. }
  destruct (String.eqb_spec name "symmetrize") as [-> | Hsymmetrize].
  { rewrite decide_True by (apply list_elem_of_In; cbn; tauto). cbn. apply IH. }
  rewrite decide_False; [apply IH|].
  intros Hin. apply list_elem_of_In in Hin. cbn in Hin.
  destruct Hin as [<- | [<- | []]]; congruence.
Qed.

Lemma handleInputFormat_unknown (inputFormat : string) (graph : Graph C)
    (inputGraph : string) :
  inputFormat ∉ known_formats ->
  handleInputFormat C env inputFormat graph inputGraph
  = ([], Thrown (runtime_error ("Unknown input format: " ++ inputFormat))).
Proof.
  intros Hout. unfold handleInputFormat.
  repeat match goal with
         | |- context [String.eqb inputFormat ?known] =>
             destruct (String.eqb_spec inputFormat known) as [-> | _];
             [exfalso; apply Hout; apply list_elem_of_In; cbn; tauto|]
         end.
  reflexivity.
Qed.

Lemma handleInputFormat_known (inputFormat : string) (graph : Graph C)
    (inputGraph : string) :
  inputFormat ∈ known_formats ->
  handleInputFormat C env inputFormat graph inputGraph
  = ([], Returned (if String.eqb inputFormat "matrix-market"
                   then readMtxW C (input_file env) graph inputGraph
                   else graph)).
Proof.
  intros Hin. apply list_elem_of_In in Hin. cbn in Hin.
  repeat (destruct Hin as [<- | Hin]; [reflexivity|]). destruct Hin.
Qed.

(** The graph the loop of the transforms starts from. *)
Lemma handleOptions_reads (fuel : nat) (o : Options D) :
  help o = false ->
  is_Some (input_file env (inputGraph o)) ->
  inputFormat o ∈ known_formats ->
  handleOptions log C env fuel o
  = (emit (Console (ReadGraphTime (clock env 0)));;
     '(graph, ticks) ←
       applyTransforms C env (transforms o)
         (if String.eqb (inputFormat o) "matrix-market"
          then readMtxW C (input_file env) (empty_graph C) (inputGraph o)
          else empty_graph C) 1;
     rounds log C env fuel o (initialState C env o graph ticks)).
Proof.
  intros Hhelp [contents Hfile] Hformat. unfold handleOptions, checkInputFile.
  rewrite Hhelp, Hfile, (handleInputFormat_known _ _ _ Hformat).
  change (mret ()) with (([], Returned tt) : M D unit).
  now rewrite !bind_ret_l.
Qed.

End BeforeLoop.

(** X6.  A run that is no request for help fails before it prints
    anything when the input file does not open ([runtime_error] with
    "Input graph file not found: " and the path) and, the file opening,
    when the input format is not one of matrix-market, edgelist and
    snap-temporal ("Unknown input format: " and the format); the file is
    checked first.  Otherwise the first line of the run is the time of
    reading the graph. *)
Theorem input_failures_are_silent :
  forall (D : Type) (HD : Double D) (log : D -> D) (C : Collaborators D)
         (env : Environment) (fuel : nat) (o : Options D),
    help o = false ->
    (input_file env (inputGraph o) = None ->
     handleOptions log C env fuel o
     = ([], Thrown (runtime_error ("Input graph file not found: " ++ inputGraph o))))
    /\ (is_Some (input_file env (inputGraph o)) ->
        inputFormat o ∉ known_formats ->
        handleOptions log C env fuel o
        = ([], Thrown (runtime_error ("Unknown input format: " ++ inputFormat o))))
    /\ (is_Some (input_file env (inputGraph o)) ->
        inputFormat o ∈ known_formats ->
        exists rest,
          (handleOptions log C env fuel o).1
          = Console (ReadGraphTime (clock env 0)) :: rest).
Proof.
  intros D HD log C env fuel o Hhelp. split; [| split].
  - intros Hfile. unfold handleOptions, checkInputFile. now rewrite Hhelp, Hfile.
  - intros [contents Hfile] Hformat. unfold handleOptions, checkInputFile.
    rewrite Hhelp, Hfile.
    now rewrite (handleInputFormat_unknown C env _ (empty_graph C) _ Hformat).
  - intros Hfile Hformat. rewrite handleOptions_reads by assumption.
    unfold emit. rewrite bind_step. cbn [fst app]. now eexists.
Qed.

(** No file opens: the run of the demonstration stops on its input. *)
Lemma input_failures_are_silent_witness :
  handleOptions Demo.log (Demo.collaborators float) Cases.no_files 10
    (Demo.options "uniform" 2 0 0.1)
  = ([], Thrown (runtime_error "Input graph file not found: in.mtx")).
Proof.
  destruct (input_failures_are_silent float _ Demo.log (Demo.collaborators float)
              Cases.no_files 10%nat (Demo.options "uniform" 2 0 0.1) eq_refl)
    as (Hmissing & _).
  apply Hmissing. reflexivity.
Defined.

Section SameEnvironment.
Context {D : Type} `{Double D}.
Variable log : D -> D.
Variable C : Collaborators D.
Variables env env' : Environment.
Hypothesis same_clock : forall n, clock env n = clock env' n.
Hypothesis same_outputs :
  forall path, output_creatable env path = output_creatable env' path.

Lemma round_same (o : Options D) (st : RunState C) :
  round log C env o st = round log C env' o st.
Proof.
  unfold round.
  apply bind_ext; intros batchSize.
  apply bind_ext; intros _.
  apply bind_ext; intros [[graph rng] weights].
  apply bind_ext; intros actual.
  apply bind_ext; intros real.
  apply bind_ext; intros _.
  apply bind_ext; intros _.
  apply bind_ext; intros _.
  rewrite !same_clock. unfold createOutputFile. rewrite same_outputs. reflexivity.
Qed.

Lemma rounds_same (fuel : nat) (o : Options D) (st : RunState C) :
  rounds log C env fuel o st = rounds log C env' fuel o st.
Proof.
  revert st. induction fuel as [| fuel IH]; intros st; [reflexivity|].
  cbn [rounds]. rewrite round_same.
  repeat case_match; try reflexivity. now apply bind_ext.
Qed.

Lemma applyTransforms_same (names : list string) (graph : Graph C) (ticks : nat) :
  applyTransforms C env names graph ticks = applyTransforms C env' names graph ticks.
Proof.
  revert graph ticks. induction names as [| name names IH]; intros graph ticks;
    [reflexivity|].
  cbn [applyTransforms]. apply bind_ext; intros graph'.
  rewrite same_clock. now apply bind_ext.
Qed.

End SameEnvironment.

(** X7.  Under the formats edgelist and snap-temporal nothing is read:
    the run is the run of the transforms and of the rounds on the empty
    graph, and it is the same in every environment in which the input
    file opens, whatever the file holds. *)
Theorem unread_formats_start_empty :
  forall (D : Type) (HD : Double D) (log : D -> D) (C : Collaborators D)
         (env : Environment) (fuel : nat) (o : Options D),
    help o = false ->
    inputFormat o = "edgelist"%string \/ inputFormat o = "snap-temporal"%string ->
    is_Some (input_file env (inputGraph o)) ->
    handleOptions log C env fuel o
    = (emit (Console (ReadGraphTime (clock env 0)));;
       '(graph, ticks) ← applyTransforms C env (transforms o) (empty_graph C) 1;
       rounds log C env fuel o (initialState C env o graph ticks))
    /\ forall env' : Environment,
         random_device env' = random_device env ->
         (forall n, clock env' n = clock env n) ->
         (forall path, output_creatable env' path = output_creatable env path) ->
         is_Some (input_file env' (inputGraph o)) ->
         handleOptions log C env' fuel o = handleOptions log C env fuel o.
Proof.
  intros D HD log C env fuel o Hhelp Hformat Hfile.
  assert (Hknown : inputFormat o ∈ known_formats).
  { apply list_elem_of_In. destruct Hformat as [-> | ->]; cbn; tauto. }
  assert (Hother : String.eqb (inputFormat o) "matrix-market" = false).
  { destruct Hformat as [-> | ->]; reflexivity. }
  assert (Hrun : forall env0 : Environment,
            is_Some (input_file env0 (inputGraph o)) ->
            handleOptions log C env0 fuel o
            = (emit (Console (ReadGraphTime (clock env0 0)));;
               '(graph, ticks) ←
                 applyTransforms C env0 (transforms o) (empty_graph C) 1;
               rounds log C env0 fuel o (initialState C env0 o graph ticks))).
  { intros env0 Hfile0. rewrite handleOptions_reads by assumption.
    now rewrite Hother. }
  split; [now apply Hrun|].
  intros env' Hdevice Hclock Houtputs Hfile'.
  rewrite !Hrun by assumption. rewrite Hclock.
  apply bind_ext; intros _.
  rewrite (applyTransforms_same C env' env Hclock).
  apply bind_ext; intros [graph ticks].
  unfold initialState. rewrite Hdevice.
  now apply rounds_same.
Qed.

(** The same run on two input files that differ. *)
Lemma unread_formats_start_empty_witness :
  handleOptions Demo.log (Demo.collaborators float) Cases.other_contents 10
    (Cases.options "edgelist" [])
  = handleOptions Demo.log (Demo.collaborators float) Demo.environment 10
      (Cases.options "edgelist" []).
Proof.
  destruct (unread_formats_start_empty float _ Demo.log (Demo.collaborators float)
              Demo.environment 10%nat (Cases.options "edgelist" []))
    as [_ Hsame].
  - reflexivity.
  - now left.
  - now eexists.
  - apply Hsame; [reflexivity | reflexivity | reflexivity | now eexists].
Defined.

(** X8.  The first transform the dispatch does not know stops the run
    before the first round: having printed the time of reading and one
    line for each transform before it, the run throws [runtime_error]
    with "Unknown input transform: " and the name, and no transform
    after it is looked at. *)
Theorem unknown_transform_stops_run :
  forall (D : Type) (HD : Double D) (log : D -> D) (C : Collaborators D)
         (env : Environment) (fuel : nat) (o : Options D)
         (names rest : list string) (bad : string),
    help o = false ->
    is_Some (input_file env (inputGraph o)) ->
    inputFormat o ∈ known_formats ->
    transforms o = names ++ bad :: rest ->
    Forall (fun name => name ∈ applied_transforms ++ ignored_transforms) names ->
    bad ∉ applied_transforms ++ ignored_transforms ->
    handleOptions log C env fuel o
    = (Console (ReadGraphTime (clock env 0)) :: transform_lines env names 1,
       Thrown (runtime_error ("Unknown input transform: " ++ bad))).
Proof.
  intros D HD log C env fuel o names rest bad Hhelp Hfile Hformat Hnames Hknown Hbad.
  rewrite handleOptions_reads by assumption.
  rewrite Hnames, (applyTransforms_unknown C env names rest bad _ _ Hknown Hbad).
  reflexivity.
Qed.

(** A transposition, an unknown name, a symmetrization. *)
Lemma unknown_transform_stops_run_witness :
  handleOptions Demo.log (Demo.collaborators float) Demo.environment 10
    (Cases.options "matrix-market" ["transpose"; "reverse"; "symmetrize"]%string)
  = ([Console (ReadGraphTime 0); Console (TransformTime "transpose" 10)],
     Thrown (runtime_error "Unknown input transform: reverse")).
Proof.
  apply (unknown_transform_stops_run float _ Demo.log (Demo.collaborators float)
           Demo.environment 10%nat
           (Cases.options "matrix-market" ["transpose"; "reverse"; "symmetrize"]%string)
           ["transpose"%string] ["symmetrize"%string] "reverse"%string).
  - reflexivity.
  - now eexists.
  - apply list_elem_of_In. cbn. tauto.
  - reflexivity.
  - repeat constructor.
  - intros Hin. apply list_elem_of_In in Hin. cbn in Hin.
    repeat (destruct Hin as [Hin | Hin]; [discriminate|]). exact Hin.
Defined.

(** X9.  On a list of known transforms the loop of lines 300-303
    returns, prints one line per transform, and hands on the graph
    obtained by applying the transpositions and symmetrizations of the
    list in their order: the six other names are accepted and change
    nothing, so a list made of them hands on the graph it was given. *)
Theorem transforms_compose :
  forall (D : Type) (C : Collaborators D) (env : Environment)
         (names : list string) (graph : Graph C) (ticks : nat),
    Forall (fun name => name ∈ applied_transforms ++ ignored_transforms) names ->
    applyTransforms C env names graph ticks
    = (transform_lines env names ticks,
       Returned (transformed C (filter (fun name => name ∈ applied_transforms) names)
                   graph,
                 (ticks + length names)%nat))
    /\ (Forall (fun name => name ∈ ignored_transforms) names ->
        applyTransforms C env names graph ticks
        = (transform_lines env names ticks,
           Returned (graph, (ticks + length names)%nat))).
Proof.
  intros D C env names graph ticks Hknown.
  rewrite (applyTransforms_known C env names graph ticks Hknown).
  rewrite (transformed_ignored C names graph).
  split; [reflexivity|]. intros Hignored.
  replace (filter (fun name => name ∈ applied_transforms) names) with (@nil string);
    [reflexivity|].
  symmetry. induction Hignored as [| name names Hname _ IH]; [reflexivity|].
  rewrite filter_cons, decide_False.
  - apply IH. now apply Forall_inv_tail in Hknown.
  - intros Hin. apply list_elem_of_In in Hin, Hname. cbn in Hin, Hname.
    destruct Hin as [<- | [<- | []]];
      repeat (destruct Hname as [Hname | Hname]; [discriminate|]); exact Hname.
Qed.

(** Three accepted names that leave the graph of the demonstration as it
    is. *)
Lemma transforms_compose_witness :
  applyTransforms (Demo.collaborators float) Demo.environment
    ["unsymmetrize"; ""; "set-weights"]%string Demo.initial 1
  = ([Console (TransformTime "unsymmetrize" 10); Console (TransformTime "" 20);
      Console (TransformTime "set-weights" 30)],
     Returned (Demo.initial, 4%nat)).
Proof.
  destruct (transforms_compose float (Demo.collaborators float) Demo.environment
              ["unsymmetrize"; ""; "set-weights"]%string Demo.initial 1)
    as [_ Hignored].
  - repeat constructor; apply list_elem_of_In; cbn; tauto.
  - apply Hignored. repeat constructor; apply list_elem_of_In; cbn; tauto.
Defined.

(** ** The edge list *)

Section EdgeListFacts.
Local Open Scope string_scope.

Lemma append_assoc (a b c : string) : a ++ (b ++ c) = (a ++ b) ++ c.
Proof.
  induction a as [| x a IH]; [reflexivity|].
  change (String x (a ++ b ++ c) = String x ((a ++ b) ++ c)). now f_equal.
Qed.

Lemma append_cons (x : ascii) (a b : string) : String x a ++ b = String x (a ++ b).
Proof. reflexivity. Qed.

Lemma append_nil_l (a : string) : "" ++ a = a.
Proof. reflexivity. Qed.

Lemma split_unique (c : ascii) (a a' b b' : string) :
  free_of c a -> free_of c a' ->
  a ++ String c b = a' ++ String c b' -> a = a' /\ b = b'.
Proof.
  revert a'. induction a as [| x a IH]; intros [| x' a'] Ha Ha' Heq;
    rewrite ?append_cons, ?append_nil_l in Heq; cbn [free_of] in *.
  - now injection Heq.
  - injection Heq as <- _. now destruct Ha'.
  - injection Heq as -> _. now destruct Ha.
  - injection Heq as <- Heq. destruct Ha as [_ Ha], Ha' as [_ Ha'].
    destruct (IH a' Ha Ha' Heq) as [-> ->]. now split.
Qed.

Lemma string_of_uint_free (c : ascii) (d : Decimal.uint) :
  c = " "%char \/ c = ascii_of_nat 10 ->
  free_of c (NilEmpty.string_of_uint d).
Proof.
  intros Hc. induction d; cbn; try exact I;
    (split; [destruct Hc as [-> | ->]; discriminate | assumption]).
Qed.

Lemma to_string_free (c : ascii) (z : Z) :
  c = " "%char \/ c = ascii_of_nat 10 -> free_of c (to_string z).
Proof.
  intros Hc. unfold to_string, NilZero.string_of_int, NilZero.string_of_uint.
  destruct (Z.to_int z) as [d | d].
  - destruct d; try (apply string_of_uint_free; exact Hc).
    cbn. split; [destruct Hc as [-> | ->]; discriminate | exact I].
  - cbn. split; [destruct Hc as [-> | ->]; discriminate|].
    destruct d; try (apply string_of_uint_free; exact Hc).
    cbn. split; [destruct Hc as [-> | ->]; discriminate | exact I].
Qed.

Lemma edge_line_inj (e e' : edge) (rest rest' : string) :
  edge_line e ++ rest = edge_line e' ++ rest' -> e = e' /\ rest = rest'.
Proof.
  destruct e as [[u v] w], e' as [[u' v'] w']. unfold edge_line, newline. cbn [fst snd].
  rewrite <- !append_assoc, !append_cons, !append_nil_l.
  intros Heq.
  apply split_unique in Heq as [Hu Heq]; try (apply to_string_free; now left).
  apply split_unique in Heq as [Hv Heq]; try (apply to_string_free; now left).
  apply split_unique in Heq as [Hw Heq]; try (apply to_string_free; now right).
  apply to_string_inj in Hu, Hv, Hw. subst. now split.
Qed.

Lemma concat_cons (line : string) (lines : list string) :
  String.concat "" (line :: lines) = line ++ String.concat "" lines.
Proof.
  destruct lines as [| next lines]; cbn [String.concat]; [| reflexivity].
  induction line as [| x line IH]; [reflexivity|].
  rewrite append_cons. now f_equal.
Qed.

Lemma edge_lines_inj (edges edges' : list edge) :
  String.concat "" (map edge_line edges) = String.concat "" (map edge_line edges') ->
  edges = edges'.
Proof.
  revert edges'. induction edges as [| e edges IH]; intros [| e' edges'];
    cbn [map]; rewrite ?concat_cons.
  - reflexivity.
  - destruct e' as [[u v] w]. unfold edge_line. cbn [fst snd map String.concat].
    rewrite <- !append_assoc. destruct (to_string u); discriminate.
  - destruct e as [[u v] w]. unfold edge_line. cbn [fst snd map String.concat].
    rewrite <- !append_assoc. destruct (to_string u); discriminate.
  - intros Heq. apply edge_line_inj in Heq as [-> Heq]. f_equal. now apply IH.
Qed.

Lemma writeEdgeList_lines {D : Type} (C : Collaborators D) (graph : Graph C) :
  writeEdgeList C graph
  = to_string (graph_order C graph) ++ " " ++ to_string (graph_size C graph)
    ++ newline ++ String.concat "" (map edge_line (written_edges C graph)).
Proof.
  unfold writeEdgeList, written_edges.
  rewrite <- !append_assoc. do 4 f_equal.
  apply (f_equal (String.concat "")).
  induction (graph_vertexKeys C graph) as [| u us IH]; cbn [flat_map]; [reflexivity|].
  rewrite List.map_app, List.map_map.
  apply (f_equal2 (@app string)); [reflexivity | exact IH].
Qed.

End EdgeListFacts.

(** X10.  The edge list [writeEdgeList] writes determines what was
    written: two graphs with the same output have the same order, the
    same size and the same sequence of visited edges (source, target,
    weight). *)
Theorem writeEdgeList_inj :
  forall (D : Type) (C : Collaborators D) (graph graph' : Graph C),
    writeEdgeList C graph = writeEdgeList C graph' ->
    graph_order C graph = graph_order C graph'
    /\ graph_size C graph = graph_size C graph'
    /\ written_edges C graph = written_edges C graph'.
Proof.
  intros D C graph graph'. rewrite !writeEdgeList_lines. unfold newline.
  rewrite !append_cons, !append_nil_l. intros Heq.
  apply split_unique in Heq as [Horder Heq]; try (apply to_string_free; now left).
  apply split_unique in Heq as [Hsize Heq]; try (apply to_string_free; now right).
  apply to_string_inj in Horder, Hsize. apply edge_lines_inj in Heq. now split.
Qed.

(** Two edge lists of the demonstration that are written alike. *)
Lemma writeEdgeList_inj_witness :
  Demo.initial <> Cases.reordered
  /\ written_edges (Demo.collaborators float) Demo.initial
     = written_edges (Demo.collaborators float) Cases.reordered.
Proof.
  split; [discriminate|].
  apply (writeEdgeList_inj float (Demo.collaborators float) Demo.initial
           Cases.reordered).
  vm_compute. reflexivity.
Defined.

(** ** The files of a run *)

Section NumberedFiles.
Context {D : Type} `{Double D}.
Variable log : D -> D.
Variable C : Collaborators D.
Variable env : Environment.

(** The one exception of [handleUpdateNature]. *)
Lemma handleUpdateNature_thrown (distribution nature : string) (graph : Graph C)
    (rng : Rng C) (batchSize : Z) (deletions insertions : D) (weights : list D)
    (duplicates : bool) (t : list (event D)) (e : exn) :
  handleUpdateNature C distribution nature graph rng batchSize deletions
    insertions weights duplicates = (t, Thrown e) ->
  t = [] /\ e = runtime_error ("Unknown update nature: " ++ nature)
  /\ nature ∉ (""%string :: named_natures).
Proof.
  unfold handleUpdateNature.
  destruct (String.eqb_spec nature "") as [-> | Hcustom].
  { destruct (customUpdate C _ _ _ _ _ _ _) as [[[w ins] del] rng']. discriminate. }
  destruct (String.eqb_spec nature "uniform") as [-> | Huniform].
  { destruct (uniformUpdate C _ _ _ _ _ _) as [[ins del] rng']. discriminate. }
  destruct (String.eqb_spec nature "preferential") as [-> | Hpreferential].
  { destruct (preferentialUpdate C _ _ _ _ _ _) as [[ins del] rng']. discriminate. }
  destruct (String.eqb_spec nature "planted") as [-> | Hplanted]; [discriminate|].
  destruct (String.eqb_spec nature "match") as [-> | Hmatch]; [discriminate|].
  cbn. intros [= <- <-]. split; [reflexivity|]. split; [reflexivity|].
  intros Hin. apply list_elem_of_In in Hin. cbn in Hin.
  repeat (destruct Hin as [Hin | Hin]; [congruence|]). exact Hin.
Qed.

(** The files of the rounds are numbered from the counter on. *)
Lemma rounds_files (fuel : nat) (o : Options D) (st : RunState C) :
  exists k : nat,
    (output_files (rounds log C env fuel o st).1).*1
    = outputFileName (outputDir o) (outputPrefix o)
      <$> seqZ (st_counter st + 1) (Z.of_nat k)
    /\ Forall (fun path => output_creatable env path = true)
              (output_files (rounds log C env fuel o st).1).*1
    /\ forall what,
         (rounds log C env fuel o st).2
         = Thrown (runtime_error ("Failed to create file: " ++ what)) ->
         what = outputFileName (outputDir o) (outputPrefix o)
                  (st_counter st + 1 + Z.of_nat k)
         /\ output_creatable env what = false.
Proof.
  revert st. induction fuel as [| fuel IH]; intros st.
  { exists 0%nat. cbn. repeat split; [constructor | discriminate | discriminate]. }
  cbn [rounds].
  destruct (Z.eqb_spec (st_multiBatch st) 0) as [Hzero | Hzero].
  { exists 0%nat. cbn. repeat split; [constructor | discriminate | discriminate]. }
  destruct (Z.eqb_spec (st_multiBatch st) INT64_MIN) as [Hmin | Hmin].
  { exists 0%nat. cbn. repeat split; [constructor | discriminate | discriminate]. }
  pose proof (round_is_round_result log C env o (enter_round st)) as Hresult.
  remember (round log C env o (enter_round st)) as m eqn:Hm.
  destruct Hresult
    as [ Hb | b what Hb Hnature | b graph rng weights actual real Hb Hnature Ha Hr Hmax
       | b graph rng weights actual real Hb Hnature Ha Hr Hmax Hfile
       | b graph rng weights actual real report Hb Hnature Ha Hr Hmax Hfile Hscored ].
  - exists 0%nat. cbn. repeat split; [constructor | discriminate | discriminate].
  - exists 0%nat. cbn. split; [reflexivity|]. split; [constructor|].
    intros what' [= Hwhat].
    apply handleUpdateNature_thrown in Hnature as (_ & [= ->] & _). discriminate.
  - exists 0%nat. cbn -[seqZ]. unfold output_files. rewrite ?omap_app. cbn.
    repeat split; [constructor | discriminate | discriminate].
  - exists 0%nat. cbn -[seqZ]. unfold output_files. rewrite ?omap_app. cbn.
    split; [reflexivity|]. split; [constructor|].
    intros what' [= Hwhat]. apply append_inj_r in Hwhat. subst what'.
    cbn [enter_round st_counter] in *. rewrite Z.add_0_r. now split.
  - rewrite bind_step.
    match goal with
    | |- context [rounds log C env fuel o ?st'] =>
        destruct (IH st') as (k & Hpaths & Hcreatable & Hfailed)
    end.
    cbn [st_counter enter_round] in *.
    exists (S k). cbn [fst snd].
    apply scored_quiet in Hscored as (_ & Hquiet & _).
    unfold output_files in *.
    rewrite !omap_app, !fmap_app, Hquiet.
    cbn [omap written fst calculateDegreeDistribution emit app fmap list_fmap].
    split; [| split].
    + rewrite Hpaths.
      rewrite (seqZ_cons (st_counter st + 1)) by lia. cbn.
      do 2 f_equal; f_equal; lia.
    + constructor; [exact Hfile | exact Hcreatable].
    + intros what Hwhat. destruct (Hfailed what Hwhat) as [-> Hfalse].
      split; [f_equal; lia | exact Hfalse].
Qed.

End NumberedFiles.

(** A list of transforms is known throughout or has a first unknown
    name. *)
Lemma transforms_split (names : list string) :
  Forall (fun name => name ∈ applied_transforms ++ ignored_transforms) names
  \/ exists known bad rest,
       names = known ++ bad :: rest
       /\ Forall (fun name => name ∈ applied_transforms ++ ignored_transforms) known
       /\ bad ∉ applied_transforms ++ ignored_transforms.
Proof.
  induction names as [| name names IH]; [left; constructor|].
  destruct (decide (name ∈ applied_transforms ++ ignored_transforms)) as [Hin | Hout].
  - destruct IH as [Hall | (known & bad & rest & -> & Hknown & Hbad)].
    + left. now constructor.
    + right. exists (name :: known), bad, rest. repeat split; [now constructor | exact Hbad].
  - right. exists [], name, names. repeat split; [constructor | exact Hout].
Qed.

Lemma transform_lines_quiet {D : Type} (env : Environment) (names : list string)
    (ticks : nat) :
  quiet (D := D) (transform_lines env names ticks).
Proof.
  revert ticks. induction names as [| name names IH]; intros ticks; cbn.
  - constructor.
  - constructor; [now eexists | apply IH].
Qed.

(** X11.  However a run ends, the files it has written are numbered
    from 1 without a gap, each of them having been creatable; and a run
    that ends with [runtime_error] "Failed to create file: " and a path
    ends so on the file that follows the last one written, which could
    not be created. *)
Theorem output_files_numbered :
  forall (D : Type) (HD : Double D) (log : D -> D) (C : Collaborators D)
         (env : Environment) (fuel : nat) (o : Options D),
  exists k : nat,
    (output_files (handleOptions log C env fuel o).1).*1
    = outputFileName (outputDir o) (outputPrefix o) <$> seqZ 1 (Z.of_nat k)
    /\ Forall (fun path => output_creatable env path = true)
              (output_files (handleOptions log C env fuel o).1).*1
    /\ forall what,
         (handleOptions log C env fuel o).2
         = Thrown (runtime_error ("Failed to create file: " ++ what)) ->
         what = outputFileName (outputDir o) (outputPrefix o) (Z.of_nat k + 1)
         /\ output_creatable env what = false.
Proof.
  intros D HD log C env fuel o.
  assert (Hnone : forall (t : list (event D)) (r : outcome unit),
            quiet t ->
            (forall what, r <> Thrown (runtime_error ("Failed to create file: " ++ what))) ->
            exists k : nat,
              (output_files (t, r).1).*1
              = outputFileName (outputDir o) (outputPrefix o) <$> seqZ 1 (Z.of_nat k)
              /\ Forall (fun path => output_creatable env path = true)
                        (output_files (t, r).1).*1
              /\ forall what,
                   (t, r).2 = Thrown (runtime_error ("Failed to create file: " ++ what)) ->
                   what = outputFileName (outputDir o) (outputPrefix o) (Z.of_nat k + 1)
                   /\ output_creatable env what = false).
  { intros t r Hquiet Hother. exists 0%nat. cbn [fst snd]. unfold output_files.
    rewrite (quiet_omap written t) by easy.
    split; [reflexivity|]. split; [constructor|].
    intros what Hwhat. now destruct (Hother what). }
  destruct (help o) eqn:Hhelp.
  { unfold handleOptions. rewrite Hhelp. apply Hnone; [| discriminate].
    constructor; [now eexists | constructor]. }
  destruct (input_file env (inputGraph o)) as [contents |] eqn:Hfile.
  2:{ unfold handleOptions, checkInputFile. rewrite Hhelp, Hfile.
      apply Hnone; [constructor | discriminate]. }
  destruct (decide (inputFormat o ∈ known_formats)) as [Hformat | Hformat].
  2:{ unfold handleOptions, checkInputFile.
      rewrite Hhelp, Hfile, (handleInputFormat_unknown C env _ (empty_graph C) _ Hformat).
      apply Hnone; [constructor | discriminate]. }
  rewrite handleOptions_reads by (try assumption; eexists; eassumption).
  destruct (transforms_split (transforms o))
    as [Hknown | (known & bad & rest & Hnames & Hknown & Hbad)].
  2:{ rewrite Hnames, (applyTransforms_unknown C env known rest bad _ _ Hknown Hbad).
      apply Hnone; [| discriminate].
      constructor; [now eexists | apply transform_lines_quiet]. }
  rewrite (applyTransforms_known C env _ _ _ Hknown).
  unfold emit. rewrite !bind_step. cbn [fst snd].
  match goal with
  | |- context [rounds log C env fuel o ?st] =>
      destruct (rounds_files log C env fuel o st) as (k & Hpaths & Hcreatable & Hfailed);
      destruct (rounds log C env fuel o st) as [t r]
  end.
  cbn [fst snd initialState st_counter] in *.
  exists k. unfold output_files in *.
  rewrite !omap_app, (quiet_omap written (transform_lines env _ _))
    by (easy || apply transform_lines_quiet).
  cbn [omap written app].
  split; [exact Hpaths|]. split; [exact Hcreatable|].
  intros what Hwhat. destruct (Hfailed what Hwhat) as [-> Hfalse].
  split; [f_equal; lia | exact Hfalse].
Qed.

(** ** The options a run reads *)

Lemma handleUpdateNature_unknown {D : Type} (C : Collaborators D)
    (distribution nature : string) (graph : Graph C) (rng : Rng C) (batchSize : Z)
    (deletions insertions : D) (weights : list D) (duplicates : bool) :
  nature ∉ (""%string :: named_natures) ->
  handleUpdateNature C distribution nature graph rng batchSize deletions insertions
    weights duplicates
  = ([], Thrown (runtime_error ("Unknown update nature: " ++ nature))).
Proof.
  intros Hout. unfold handleUpdateNature.
  repeat match goal with
         | |- context [String.eqb nature ?known] =>
             destruct (String.eqb_spec nature known) as [-> | _];
             [exfalso; apply Hout; apply list_elem_of_In; cbn; tauto|]
         end.
  reflexivity.
Qed.

(** X12.  [handleUpdateNature] returns exactly under the empty name and
    the four names uniform, preferential, planted and match; under any
    other name it throws [runtime_error] with "Unknown update nature: "
    and the name before a batch is generated or applied; under planted
    and match it applies the empty batch and hands back the generator
    state and the weights it was given. *)
Theorem handleUpdateNature_dispatch :
  forall (D : Type) (C : Collaborators D) (distribution nature : string)
         (graph : Graph C) (rng : Rng C) (batchSize : Z) (deletions insertions : D)
         (weights : list D) (duplicates : bool),
    let result :=
      handleUpdateNature C distribution nature graph rng batchSize deletions
        insertions weights duplicates in
    (nature ∈ (""%string :: named_natures) <-> exists t r, result = (t, Returned r))
    /\ (nature ∉ (""%string :: named_natures) ->
        result = ([], Thrown (runtime_error ("Unknown update nature: " ++ nature))))
    /\ (nature = "planted"%string \/ nature = "match"%string ->
        result
        = ([BatchGenerated nature batchSize weights;
            BatchApplied (graph_size C (applyBatchUpdateU C graph [] []))],
           Returned (applyBatchUpdateU C graph [] [], rng, weights))).
Proof.
  intros D C distribution nature graph rng batchSize deletions insertions weights
    duplicates result.
  split; [| split; [apply handleUpdateNature_unknown|]].
  - split.
    + intros Hin.
      destruct (handleUpdateNature_cases C distribution nature graph rng batchSize
                  deletions insertions weights duplicates)
        as [[what Hthrown] | (graph' & rng' & weights' & Hreturned & _)].
      * apply handleUpdateNature_thrown in Hthrown as (_ & _ & Hout). contradiction.
      * subst result. rewrite Hreturned. now do 2 eexists.
    + intros (t & r & Hreturned).
      destruct (decide (nature ∈ (""%string :: named_natures))) as [Hin | Hout];
        [exact Hin|].
      subst result. rewrite (handleUpdateNature_unknown _ _ _ _ _ _ _ _ _ _ Hout)
        in Hreturned.
      discriminate.
  - subst result. intros [-> | ->]; reflexivity.
Qed.

Section UnreadOptions.
Context {D : Type} `{Double D}.
Variable log : D -> D.
Variable C : Collaborators D.
Variable env : Environment.

Lemma round_ratio_unread (o : Options D) (ratio : D) (st : RunState C) :
  st_batchSize st <> 0 ->
  round log C env (with_batchSizeRatio o ratio) st = round log C env o st.
Proof.
  intros Hgiven. unfold round.
  destruct (Z.eqb_spec (st_batchSize st) 0) as [Hzero | _]; [contradiction|].
  reflexivity.
Qed.

Lemma rounds_ratio_unread (fuel : nat) (o : Options D) (ratio : D) (st : RunState C) :
  st_batchSize st <> 0 ->
  rounds log C env fuel (with_batchSizeRatio o ratio) st = rounds log C env fuel o st.
Proof.
  revert st. induction fuel as [| fuel IH]; intros st Hgiven; [reflexivity|].
  cbn [rounds]. rewrite round_ratio_unread by exact Hgiven.
  repeat case_match; try reflexivity.
  destruct (round log C env o (enter_round st)) as [t [st' | e | |]] eqn:Hround;
    try reflexivity.
  rewrite !bind_step. rewrite IH; [reflexivity|].
  apply round_Returned_batch_sizes in Hround as [_ Hkept].
  unfold effective_batchSize in Hkept. cbn [enter_round st_batchSize] in Hkept.
  destruct (Z.eqb_spec (st_batchSize st) 0) as [Hzero | _]; [contradiction|].
  now injection Hkept as <-.
Qed.

Lemma handleUpdateNature_distribution_unread (distribution distribution' nature : string)
    (graph : Graph C) (rng : Rng C) (batchSize : Z) (deletions insertions : D)
    (weights : list D) (duplicates : bool) :
  nature <> ""%string ->
  handleUpdateNature C distribution nature graph rng batchSize deletions insertions
    weights duplicates
  = handleUpdateNature C distribution' nature graph rng batchSize deletions
      insertions weights duplicates.
Proof.
  intros Hnamed. unfold handleUpdateNature.
  destruct (String.eqb_spec nature "") as [Hcustom | _]; [contradiction | reflexivity].
Qed.

Lemma round_distribution_unread (o : Options D) (distribution : string)
    (st : RunState C) :
  updateNature o <> ""%string ->
  round log C env (with_probabilityDistribution o distribution) st
  = round log C env o st.
Proof.
  intros Hnamed. unfold round.
  apply bind_ext; intros batchSize. apply bind_ext; intros _.
  cbn [probabilityDistribution updateNature edgeDeletions edgeInsertions
       allowDuplicateEdges with_probabilityDistribution].
  rewrite (handleUpdateNature_distribution_unread distribution
             (probabilityDistribution o)) by exact Hnamed.
  reflexivity.
Qed.

Lemma rounds_distribution_unread (fuel : nat) (o : Options D) (distribution : string)
    (st : RunState C) :
  updateNature o <> ""%string ->
  rounds log C env fuel (with_probabilityDistribution o distribution) st
  = rounds log C env fuel o st.
Proof.
  intros Hnamed. revert st. induction fuel as [| fuel IH]; intros st; [reflexivity|].
  cbn [rounds]. rewrite round_distribution_unread by exact Hnamed.
  repeat case_match; try reflexivity. now apply bind_ext.
Qed.

End UnreadOptions.

(** X13.  With a batch size other than zero among the options the
    batch size ratio is never read: the run is the same under any
    ratio. *)
Theorem batch_size_ratio_unread :
  forall (D : Type) (HD : Double D) (log : D -> D) (C : Collaborators D)
         (env : Environment) (fuel : nat) (o : Options D) (ratio : D),
    batchSize o <> 0 ->
    handleOptions log C env fuel (with_batchSizeRatio o ratio)
    = handleOptions log C env fuel o.
Proof.
  intros D HD log C env fuel o ratio Hgiven. unfold handleOptions.
  cbn [help inputGraph inputFormat transforms with_batchSizeRatio].
  destruct (help o); [reflexivity|].
  apply bind_ext; intros _. apply bind_ext; intros graph.
  apply bind_ext; intros _. apply bind_ext; intros [graph' ticks].
  now apply rounds_ratio_unread.
Qed.

(** Batch size 3 under the ratios 0.1 and 0.9. *)
Lemma batch_size_ratio_unread_witness :
  handleOptions Demo.log (Demo.collaborators float) Demo.environment 10
    (with_batchSizeRatio (Demo.options "uniform" 2 3 0.1) 0.9%float)
  = Demo.run "uniform" 2 3 0.1.
Proof.
  apply (batch_size_ratio_unread float _ Demo.log (Demo.collaborators float)
           Demo.environment 10%nat (Demo.options "uniform" 2 3 0.1) 0.9%float).
  discriminate.
Defined.

(** X14.  With an update nature other than the empty string the
    probability distribution is never read: the run is the same under
    any distribution name. *)
Theorem probability_distribution_unread :
  forall (D : Type) (HD : Double D) (log : D -> D) (C : Collaborators D)
         (env : Environment) (fuel : nat) (o : Options D) (distribution : string),
    updateNature o <> ""%string ->
    handleOptions log C env fuel (with_probabilityDistribution o distribution)
    = handleOptions log C env fuel o.
Proof.
  intros D HD log C env fuel o distribution Hnamed. unfold handleOptions.
  cbn [help inputGraph inputFormat transforms with_probabilityDistribution].
  destruct (help o); [reflexivity|].
  apply bind_ext; intros _. apply bind_ext; intros graph.
  apply bind_ext; intros _. apply bind_ext; intros [graph' ticks].
  now apply rounds_distribution_unread.
Qed.

(** The uniform generator under a distribution name. *)
Lemma probability_distribution_unread_witness :
  handleOptions Demo.log (Demo.collaborators float) Demo.environment 10
    (with_probabilityDistribution (Demo.options "uniform" 2 3 0.1) "zipf")
  = Demo.run "uniform" 2 3 0.1.
Proof.
  apply (probability_distribution_unread float _ Demo.log (Demo.collaborators float)
           Demo.environment 10%nat (Demo.options "uniform" 2 3 0.1) "zipf"%string).
  discriminate.
Defined.

Section EmptyWeights.
Variable log : float -> float.

Lemma kl_sum_from_zeros (P Q : list float) (indices : list nat) (start : float) :
  Forall (fun p => (p =? 0)%float = true) P ->
  kl_sum_from log P Q indices start = start.
Proof.
  intros Hzeros. revert start.
  induction indices as [| i indices IH]; intros start; [reflexivity|].
  cbn [kl_sum_from fold_left]. fold (kl_sum_from log P Q indices).
  assert (Hentry : (entry P i == d_zero)%dbl = true).
  { unfold entry. destruct (Nat.lt_ge_cases i (length P)) as [Hlt | Hge].
    - rewrite List.Forall_forall in Hzeros. apply Hzeros. now apply nth_In.
    - now rewrite nth_overflow. }
  rewrite Hentry. apply IH.
Qed.

Lemma KLDivergence_no_weights (P : list float) :
  (Exists (fun p => (p =? 0)%float = false) P ->
   KLDivergence log P []
   = Thrown (invalid_argument "Q[i] must be non-zero where P[i] is non-zero."))
  /\ (Forall (fun p => (p =? 0)%float = true) P ->
      KLDivergence log P [] = Returned 0%float).
Proof.
  destruct (@KLDivergence_correct float IEEE.double log float_mul_one_r P [])
    as (_ & Hthrows & Hreturns).
  split.
  - intros Hsome. apply Hthrows.
    apply List.Exists_exists in Hsome as (p & Hin & Hp).
    apply (In_nth _ _ 0%float) in Hin as (i & Hi & <-).
    exists i. split; [lia|]. split; [exact Hp|].
    unfold entry. now destruct i.
  - intros Hzeros. rewrite Hreturns.
    + unfold kl_sum. now rewrite kl_sum_from_zeros.
    + intros (i & _ & Hp & _). unfold entry in Hp.
      destruct (Nat.lt_ge_cases i (length P)) as [Hlt | Hge].
      * rewrite List.Forall_forall in Hzeros.
        rewrite (Hzeros (nth i P d_zero)) in Hp by now apply nth_In. discriminate.
      * rewrite nth_overflow in Hp by exact Hge. discriminate.
Qed.

End EmptyWeights.

(** X15.  On IEEE doubles, under an update nature other than the empty
    string every scoring of a round compares the in-degree probabilities
    with the empty vector: it fails, and the round prints the diagnostic
    of the caught exception, as soon as one of the probabilities is
    nonzero, and it yields [0.0] when all of them are zero. *)
Theorem named_natures_fail_scoring :
  forall (log : float -> float) (C : Collaborators float) (env : Environment)
         (o : Options float) (st : RunState C) (P Q : list float)
         (result : outcome float),
    updateNature o <> ""%string ->
    In (FidelityScored P Q result) (round log C env o st).1 ->
    Q = []
    /\ (Exists (fun p => (p =? 0)%float = false) P ->
        result = Thrown (invalid_argument "Q[i] must be non-zero where P[i] is non-zero.")
        /\ In (Diagnostic "Error: Q[i] must be non-zero where P[i] is non-zero.")
              (round log C env o st).1)
    /\ (Forall (fun p => (p =? 0)%float = true) P -> result = Returned 0%float).
Proof.
  intros log C env o st P Q result Hnamed Hin.
  apply round_scored in Hin
    as (st' & before & weights & rng & report & Hround & -> & Hscored & Hnormalize
        & Hgraph).
  assert (Hempty : weights = []).
  { destruct (handleUpdateNature_cases C (probabilityDistribution o) (updateNature o)
                (st_graph st) (st_rng st) (wrap_size_t (st_batchSize st'))
                (edgeDeletions o) (edgeInsertions o) [] (allowDuplicateEdges o))
      as [[what Hthrown] | (graph' & rng' & weights' & Hreturned & Hkept)].
    - rewrite Hthrown in Hgraph. discriminate.
    - rewrite Hreturned in Hgraph. injection Hgraph as _ _ <-. now apply Hkept. }
  subst weights. injection Hnormalize as <-.
  destruct (KLDivergence_no_weights log P) as [Hthrows Hreturns].
  split; [reflexivity|]. split; [| exact Hreturns].
  intros Hsome. specialize (Hthrows Hsome). split; [exact Hthrows|].
  rewrite Hthrows in Hscored. inversion Hscored; subst.
  rewrite Hround. cbn [fst]. rewrite !in_app_iff. right. right. now left.
Qed.

(** A round with the uniform generator: the probabilities 0.75 and 0.25
    against no weights. *)
Lemma named_natures_fail_scoring_witness :
  In (Diagnostic "Error: Q[i] must be non-zero where P[i] is non-zero.")
     (round Demo.log (Demo.collaborators float) Demo.environment
        (Demo.options "uniform" 2 0 0.1) (enter_round (Demo.entry 2 0))).1.
Proof.
  destruct (named_natures_fail_scoring Demo.log (Demo.collaborators float)
              Demo.environment (Demo.options "uniform" 2 0 0.1)
              (enter_round (Demo.entry 2 0)) [0.75; 0.25]%float []
              (Thrown (invalid_argument
                         "Q[i] must be non-zero where P[i] is non-zero.")))
    as (_ & Hfails & _).
  - discriminate.
  - vm_compute. do 8 right. left. reflexivity.
  - apply Hfails. constructor. reflexivity.
Defined.

Section GeneratedBatches.
Context {D : Type} `{Double D}.
Variable log : D -> D.
Variable C : Collaborators D.
Variable env : Environment.




End GeneratedBatches.



(** ** The option map *)

Section OptionMapFacts.
Context {D : Type} `{Double D}.
Variable stoll : string -> option Z.
Variable stod : string -> option D.

Lemma param_stoll_cases (m : OptionMap) (name : string) (fallback : Z) :
  (exists text, failure stoll stod m (name, true) = Some (name, text)
                /\ param_stoll stoll m name fallback = inl (name, text))
  \/ (exists value, failure stoll stod m (name, true) = None
                    /\ param_stoll stoll m name fallback = inr value
                    /\ match params m !! name with
                       | Some text => stoll text = Some value
                       | None => value = fallback
                       end).
Proof.
  unfold failure, param_stoll, converts. cbn [fst snd].
  destruct (params m !! name) as [text |]; [| right; now eexists].
  destruct (stoll text) as [value |]; [right | left]; now eexists.
Qed.

Lemma param_stod_cases (m : OptionMap) (name : string) :
  (exists text, failure stoll stod m (name, false) = Some (name, text)
                /\ param_stod stod m name = inl (name, text))
  \/ (exists value, failure stoll stod m (name, false) = None
                    /\ param_stod stod m name = inr value).
Proof.
  unfold failure, param_stod, converts. cbn [fst snd].
  destruct (params m !! name) as [text |]; [| right; now eexists].
  destruct (stod text) as [value |]; [right | left]; now eexists.
Qed.

Lemma param_seed_cases (m : OptionMap) :
  (exists text, failure stoll stod m ("seed"%string, true) = Some ("seed"%string, text)
                /\ param_seed stoll m = inl ("seed"%string, text))
  \/ (exists value, failure stoll stod m ("seed"%string, true) = None
                    /\ param_seed stoll m = inr value).
Proof.
  unfold failure, param_seed, converts. cbn [fst snd].
  destruct (params m !! "seed"%string) as [text |]; [| right; now eexists].
  destruct (stoll text) as [value |]; [right | left]; now eexists.
Qed.

Lemma head_omap_Some {A B : Type} (f : A -> option B) (x : A) (l : list A) (y : B) :
  f x = Some y -> head (omap f (x :: l)) = Some y.
Proof. intros Hx. cbn. now rewrite Hx. Qed.

Lemma head_omap_None {A B : Type} (f : A -> option B) (x : A) (l : list A) :
  f x = None -> head (omap f (x :: l)) = head (omap f l).
Proof. intros Hx. cbn. now rewrite Hx. Qed.

Ltac convert_stoll m name fallback value Hvalue :=
  let text := fresh "text" in
  let Hfails := fresh "Hfails" in
  let Hparam := fresh "Hparam" in
  destruct (param_stoll_cases m name fallback)
    as [(text & Hfails & Hparam) | (value & Hfails & Hparam & Hvalue)];
  [rewrite (head_omap_Some _ _ _ _ Hfails), Hparam; reflexivity
  |rewrite (head_omap_None _ _ _ Hfails), Hparam].

Ltac convert_stod m name :=
  let text := fresh "text" in
  let value := fresh "value" in
  let Hfails := fresh "Hfails" in
  let Hparam := fresh "Hparam" in
  destruct (param_stod_cases m name)
    as [(text & Hfails & Hparam) | (value & Hfails & Hparam)];
  [rewrite (head_omap_Some _ _ _ _ Hfails), Hparam; reflexivity
  |rewrite (head_omap_None _ _ _ Hfails), Hparam].

(** The locals are filled unless a conversion throws, and then it is the
    first one in the order of the source that did. *)
Lemma readLocals_first_failure (m : OptionMap) :
  match first_failure stoll stod m with
  | Some failed => readLocals stoll stod m = inl failed
  | None =>
      exists o,
        readLocals stoll stod m = inr o
        /\ help o = false
        /\ transforms o = given_transforms m
        /\ outputDir o = param_string m "output-dir"
        /\ outputPrefix o = param_string m "output-prefix"
        /\ match params m !! "multi-batch"%string with
           | Some text => stoll text = Some (multiBatch o)
           | None => multiBatch o = 1
           end
  end.
Proof.
  unfold first_failure, readLocals, converted_options.
  unfold mbind, conversion_bind.
  convert_stoll m "batch-size"%string 0 v1 Hv1.
  convert_stod m "batch-size-ratio"%string.
  convert_stod m "edge-insertions"%string.
  convert_stod m "edge-deletions"%string.
  convert_stod m "vertex-insertions"%string.
  convert_stod m "vertex-deletions"%string.
  convert_stod m "vertex-growth-rate"%string.
  convert_stoll m "min-degree"%string 0 v2 Hv2.
  convert_stoll m "max-degree"%string 0 v3 Hv3.
  convert_stoll m "max-diameter"%string 0 v4 Hv4.
  convert_stoll m "preserve-k-core"%string 0 v5 Hv5.
  convert_stoll m "multi-batch"%string 1 v6 Hv6.
  destruct (param_seed_cases m)
    as [(text & Hseed & Hchosen) | (chosen & Hseed & Hchosen)];
    [rewrite (head_omap_Some _ _ _ _ Hseed), Hchosen; reflexivity
    |rewrite (head_omap_None _ _ _ Hseed), Hchosen].
  cbn [omap list_omap head].
  eexists. split; [reflexivity|]. cbn.
  repeat split; try reflexivity. exact Hv6.
Qed.

End OptionMapFacts.

Section SetParam.
Context {D : Type} `{Double D}.
Variable stoll : string -> option Z.
Variable stod : string -> option D.
Variables (m : OptionMap) (key value : string).

Lemma param_string_other (name : string) :
  name <> key -> param_string (set_param m key value) name = param_string m name.
Proof. intros Hne. unfold param_string. cbn. now rewrite lookup_insert_ne. Qed.

Lemma param_given_other (name : string) :
  name <> key -> param_given (set_param m key value) name = param_given m name.
Proof. intros Hne. unfold param_given. cbn. now rewrite lookup_insert_ne. Qed.

Lemma param_stoll_other (name : string) (fallback : Z) :
  name <> key ->
  param_stoll stoll (set_param m key value) name fallback
  = param_stoll stoll m name fallback.
Proof. intros Hne. unfold param_stoll. cbn. now rewrite lookup_insert_ne. Qed.

Lemma param_stod_other (name : string) :
  name <> key ->
  param_stod stod (set_param m key value) name = param_stod stod m name.
Proof. intros Hne. unfold param_stod. cbn. now rewrite lookup_insert_ne. Qed.

Lemma param_seed_other :
  "seed"%string <> key -> param_seed stoll (set_param m key value) = param_seed stoll m.
Proof. intros Hne. unfold param_seed. cbn. now rewrite lookup_insert_ne. Qed.

Lemma param_given_set : param_given (set_param m key value) key = true.
Proof. unfold param_given. cbn. rewrite lookup_insert_eq. now apply bool_decide_eq_true. Qed.

Lemma param_stoll_set (fallback : Z) :
  converts stoll stod true value = true ->
  exists converted,
    param_stoll stoll (set_param m key value) key fallback = inr converted.
Proof.
  unfold converts, param_stoll. cbn. rewrite lookup_insert_eq.
  intros [converted ->]%bool_decide_eq_true. now eexists.
Qed.

Lemma param_stod_set :
  converts stoll stod false value = true ->
  exists converted, param_stod stod (set_param m key value) key = inr converted.
Proof.
  unfold converts, param_stod. cbn. rewrite lookup_insert_eq.
  intros [converted ->]%bool_decide_eq_true. now eexists.
Qed.

End SetParam.

Section UnreadValues.
Context {D : Type} `{Double D}.
Variable stoll : string -> option Z.
Variable stod : string -> option D.

Ltac other_params side :=
  rewrite ?param_string_other, ?param_given_other, ?param_stoll_other,
    ?param_stod_other, ?param_seed_other by side.

Lemma readLocals_unread_key (m : OptionMap) (key value : string) :
  key ∉ read_keys ->
  readLocals stoll stod (set_param m key value) = readLocals stoll stod m.
Proof.
  intros Hout. unfold readLocals.
  other_params ltac:(intros <-; apply Hout; apply list_elem_of_In; cbn; tauto).
  reflexivity.
Qed.

Lemma readLocals_unread_conversion (m : OptionMap) (key text : string) (kind : bool) :
  key ∈ unread_conversions ->
  (key, kind) ∈ converted_options ->
  failure stoll stod m (key, kind) = None ->
  converts stoll stod kind text = true ->
  readLocals stoll stod (set_param m key text) = readLocals stoll stod m.
Proof.
  intros Hunread Hkind Habsent Hconverts.
  apply list_elem_of_In in Hunread, Hkind. cbn in Hunread, Hkind.
  repeat (destruct Hunread as [<- | Hunread];
          [repeat (destruct Hkind as [Hkind | Hkind]; [try discriminate Hkind|]);
           try (now destruct Hkind); injection Hkind as <-|]);
    try (now destruct Hunread).
  all: unfold readLocals.
  all: match goal with
       | Hnone : failure _ _ _ (?name, false) = None |- _ =>
           destruct (param_stod_cases stoll stod m name)
             as [(bad & Hbad & _) | (old & _ & ->)]; [congruence|];
           destruct (param_stod_set stoll stod m name text Hconverts) as [new ->]
       | Hnone : failure _ _ _ (?name, true) = None |- _ =>
           destruct (param_stoll_cases stoll stod m name 0)
             as [(bad & Hbad & _) | (old & _ & -> & _)]; [congruence|];
           destruct (param_stoll_set stoll stod m name text 0 Hconverts) as [new ->]
       end.
  all: other_params ltac:(discriminate).
  all: reflexivity.
Qed.

Lemma readLocals_flag_value (m : OptionMap) (value value' : string) :
  readLocals stoll stod (set_param m "allow-duplicate-edges" value)
  = readLocals stoll stod (set_param m "allow-duplicate-edges" value').
Proof.
  unfold readLocals. rewrite !param_given_set.
  other_params ltac:(discriminate). reflexivity.
Qed.

End UnreadValues.

(** X17.  [main] looks at the options in this order.  A request for
    help prints the help message and returns 0 whatever else the options
    hold.  Otherwise the first option, in the order of the declarations
    of lines 276-295, whose text does not convert ends the program with
    the exception of [std::stoll] or [std::stod] before anything is
    printed or read.  Otherwise the pipeline runs on the locals, and
    [main] returns exactly when the pipeline does, an exception of the
    pipeline leaving [main] as it is.  The status [main] returns is 0
    whenever it returns. *)
Theorem main_checks_in_order :
  forall (D : Type) (HD : Double D) (stoll : string -> option Z)
         (stod : string -> option D) (log : D -> D) (C : Collaborators D)
         (env : Environment) (readOptions : list string -> OptionMap)
         (fuel : nat) (argv : list string),
    let m := readOptions argv in
    let run := main stoll stod log C env readOptions fuel argv in
    (is_Some (params m !! "help"%string) ->
     run = ([Console HelpMessage], Ended (Returned 0)))
    /\ (params m !! "help"%string = None ->
        forall name text,
          first_failure stoll stod m = Some (name, text) ->
          run = ([], ConversionFailed name text))
    /\ (params m !! "help"%string = None ->
        first_failure stoll stod m = None ->
        exists o,
          readLocals stoll stod m = inr o
          /\ help o = false
          /\ run.1 = (handleOptions log C env fuel o).1
          /\ (forall status,
                run.2 = Ended (Returned status)
                <-> status = 0 /\ (handleOptions log C env fuel o).2 = Returned tt)
          /\ (forall e,
                run.2 = Ended (Thrown e)
                <-> (handleOptions log C env fuel o).2 = Thrown e))
    /\ (forall t status, run = (t, Ended (Returned status)) -> status = 0).
Proof.
  intros D HD stoll stod log C env readOptions fuel argv m run.
  pose proof (readLocals_first_failure stoll stod m) as Hlocals.
  subst run. unfold main, handleOptionMap, param_given. fold m.
  split; [| split; [| split]].
  - intros Hhelp. now rewrite bool_decide_eq_true_2.
  - intros Hhelp name text Hfailure.
    rewrite bool_decide_eq_false_2 by (rewrite Hhelp; now intros [? ?]).
    rewrite Hfailure in Hlocals. now rewrite Hlocals.
  - intros Hhelp Hnone.
    rewrite bool_decide_eq_false_2 by (rewrite Hhelp; now intros [? ?]).
    rewrite Hnone in Hlocals. destruct Hlocals as (o & Hlocals & Hrun & _).
    exists o. split; [exact Hlocals|]. split; [exact Hrun|].
    rewrite Hlocals.
    destruct (handleOptions log C env fuel o) as [t [[] | e | |]]; cbn [fst snd].
    + split; [reflexivity|]. split.
      * intros status. split; [now intros [= <-] | now intros [-> _]].
      * intros e. split; discriminate.
    + split; [reflexivity|]. split.
      * intros status. split; [discriminate | now intros [_ [=]]].
      * intros e'. split; now intros [= ->].
    + split; [reflexivity|]. split.
      * intros status. split; [discriminate | now intros [_ [=]]].
      * intros e. split; discriminate.
    + split; [reflexivity|]. split.
      * intros status. split; [discriminate | now intros [_ [=]]].
      * intros e. split; discriminate.
  - intros t status.
    destruct (bool_decide (is_Some (params m !! "help"%string)));
      [now intros [= _ <-]|].
    destruct (readLocals stoll stod m) as [[name text] | o]; [discriminate|].
    destruct (handleOptions log C env fuel o) as [t' [[] | e | |]];
      try discriminate.
    now intros [= _ <-].
Qed.

(** X18.  A run on the option map that returns wrote one file per
    round under the names made of the texts of output-dir and
    output-prefix, an underscore and the number of the round; the number
    of rounds is the converted text of multi-batch, or 1 when that
    option is absent, and an absent output-dir or output-prefix stands
    for the empty string. *)
Theorem default_rounds_and_file_names :
  forall (D : Type) (HD : Double D) (stoll : string -> option Z)
         (stod : string -> option D) (log : D -> D) (C : Collaborators D)
         (env : Environment) (fuel : nat) (m : OptionMap) (t : list (event D)),
    params m !! "help"%string = None ->
    handleOptionMap stoll stod log C env fuel m = (t, Ended (Returned tt)) ->
    exists rounds,
      match params m !! "multi-batch"%string with
      | Some text => stoll text = Some rounds
      | None => rounds = 1
      end
      /\ 0 <= rounds
      /\ (output_files t).*1
         = (fun k => param_string m "output-dir" ++ param_string m "output-prefix"
                     ++ "_" ++ to_string k)%string
           <$> seqZ 1 rounds.
Proof.
  intros D HD stoll stod log C env fuel m t Hhelp Hrun.
  pose proof (readLocals_first_failure stoll stod m) as Hlocals.
  unfold handleOptionMap, param_given in Hrun.
  rewrite bool_decide_eq_false_2 in Hrun by (rewrite Hhelp; now intros [? ?]).
  destruct (first_failure stoll stod m) as [[name text] |].
  { rewrite Hlocals in Hrun. discriminate. }
  destruct Hlocals as (o & Hlocals & Hnohelp & _ & Hdir & Hprefix & Hrounds).
  rewrite Hlocals in Hrun.
  destruct (handleOptions log C env fuel o) as [t' r] eqn:Hpipeline.
  injection Hrun as -> ->.
  destruct (handleOptions_completed log C env fuel o t Hnohelp Hpipeline)
    as (prefix & graph & ticks & t' & Hquiet & -> & Hcompleted & _).
  pose proof (completed_count _ _ _ _ _ _ Hcompleted) as Hcount.
  pose proof (completed_files _ _ _ _ _ _ Hcompleted) as Hfiles.
  cbn [initialState st_multiBatch st_counter] in Hcount, Hfiles.
  exists (multiBatch o). split; [exact Hrounds|]. split; [exact Hcount|].
  unfold output_files in *.
  rewrite omap_app, (quiet_omap written prefix) by easy.
  cbn [app]. rewrite Hfiles, Hdir, Hprefix. reflexivity.
Qed.

(** With the input named and nothing else the run writes the one file
    [_1]. *)
Lemma default_rounds_and_file_names_witness :
  (output_files
     (handleOptionMap Cases.stoll Cases.stod Demo.log (Demo.collaborators float)
        Demo.environment 10 Cases.input_only).1).*1
  = ["_1"%string].
Proof.
  destruct (default_rounds_and_file_names float _ Cases.stoll Cases.stod Demo.log
              (Demo.collaborators float) Demo.environment 10%nat Cases.input_only
              (handleOptionMap Cases.stoll Cases.stod Demo.log
                 (Demo.collaborators float) Demo.environment 10
                 Cases.input_only).1)
    as (rounds & Hrounds & _ & Hpaths).
  - vm_compute. reflexivity.
  - vm_compute. reflexivity.
  - vm_compute in Hrounds. subst rounds. rewrite Hpaths. vm_compute. reflexivity.
Defined.

(** X19.  Only the keys of [read_keys] matter: what the option map
    holds under any other key, output-format, allow-duplicate-vertices,
    preserve-degree-distribution and preserve-communities included, has
    no effect on a run.  The seven options that are converted and never
    read afterwards (vertex-insertions, vertex-deletions,
    vertex-growth-rate, min-degree, max-degree, max-diameter,
    preserve-k-core) have no effect either as long as their text
    converts; and allow-duplicate-edges counts by its presence, whatever
    its text. *)
Theorem unread_option_values :
  forall (D : Type) (HD : Double D) (stoll : string -> option Z)
         (stod : string -> option D) (log : D -> D) (C : Collaborators D)
         (env : Environment) (fuel : nat) (m : OptionMap),
    (forall key value,
        key ∉ read_keys ->
        handleOptionMap stoll stod log C env fuel (set_param m key value)
        = handleOptionMap stoll stod log C env fuel m)
    /\ (forall key kind text,
          key ∈ unread_conversions ->
          (key, kind) ∈ converted_options ->
          failure stoll stod m (key, kind) = None ->
          converts stoll stod kind text = true ->
          handleOptionMap stoll stod log C env fuel (set_param m key text)
          = handleOptionMap stoll stod log C env fuel m)
    /\ (forall value value',
          handleOptionMap stoll stod log C env fuel
            (set_param m "allow-duplicate-edges" value)
          = handleOptionMap stoll stod log C env fuel
              (set_param m "allow-duplicate-edges" value')).
Proof.
  intros D HD stoll stod log C env fuel m. unfold handleOptionMap.
  split; [| split].
  - intros key value Hout.
    rewrite param_given_other
      by (intros <-; apply Hout; apply list_elem_of_In; cbn; tauto).
    now rewrite readLocals_unread_key.
  - intros key kind text Hunread Hkind Habsent Hconverts.
    rewrite param_given_other.
    + now rewrite (readLocals_unread_conversion stoll stod m key text kind).
    + intros <-. apply list_elem_of_In in Hunread. cbn in Hunread.
      repeat (destruct Hunread as [Hunread | Hunread]; [discriminate|]).
      exact Hunread.
  - intros value value'.
    rewrite !param_given_other by discriminate.
    now rewrite (readLocals_flag_value stoll stod m value value').
Qed.

(** ** When a run succeeds *)

Section Success.
Context {D : Type} `{Double D}.
Variable log : D -> D.
Variable C : Collaborators D.
Variable env : Environment.

Lemma rounds_return (fuel : nat) (o : Options D) (st : RunState C) :
  st_batchSize st <> 0 ->
  0 <= st_multiBatch st < Z.of_nat fuel ->
  0 <= st_counter st ->
  st_counter st + st_multiBatch st <= INT_MAX ->
  updateNature o ∈ (""%string :: named_natures) ->
  (forall k, st_counter st < k <= st_counter st + st_multiBatch st ->
             output_creatable env (outputFileName (outputDir o) (outputPrefix o) k)
             = true) ->
  (rounds log C env fuel o st).2 = Returned tt.
Proof.
  revert st. induction fuel as [| fuel IH];
    intros st Hgiven Hrounds Hcounter Hmax Hnature Hcreatable; [lia|].
  cbn [rounds].
  destruct (Z.eqb_spec (st_multiBatch st) 0) as [Hzero | Hzero]; [reflexivity|].
  destruct (Z.eqb_spec (st_multiBatch st) INT64_MIN) as [Hmin | Hmin];
    [unfold INT64_MIN in Hmin; lia|].
  assert (Heffective : effective_batchSize C o (enter_round st) = Some (st_batchSize st)).
  { unfold effective_batchSize. cbn [enter_round st_batchSize].
    destruct (Z.eqb_spec (st_batchSize st) 0); [contradiction | reflexivity]. }
  pose proof (round_is_round_result log C env o (enter_round st)) as Hresult.
  remember (round log C env o (enter_round st)) as m eqn:Hm.
  destruct Hresult
    as [ Hb | b what Hb Hthrown | b graph rng weights actual real Hb _ _ _ Hoverflow
       | b graph rng weights actual real Hb _ _ _ _ Hfile
       | b graph rng weights actual real report Hb _ _ _ _ _ _ ].
  - congruence.
  - apply handleUpdateNature_thrown in Hthrown as (_ & _ & Hunknown). contradiction.
  - cbn [enter_round st_counter] in Hoverflow. lia.
  - cbn [enter_round st_counter] in Hfile. rewrite Hcreatable in Hfile by lia.
    discriminate.
  - rewrite bind_step. cbn [snd]. rewrite Heffective in Hb. injection Hb as <-.
    apply IH; cbn [st_batchSize st_multiBatch st_counter enter_round];
      try assumption; try lia.
    intros k Hk. apply Hcreatable. lia.
Qed.

Lemma round_Returned_known (o : Options D) (st st' : RunState C)
    (t : list (event D)) :
  round log C env o st = (t, Returned st') ->
  updateNature o ∈ (""%string :: named_natures)
  /\ output_creatable env
       (outputFileName (outputDir o) (outputPrefix o) (st_counter st + 1)) = true.
Proof.
  intros Hround.
  pose proof (round_is_round_result log C env o st) as Hresult.
  rewrite Hround in Hresult.
  remember (t, Returned st') as m eqn:Hm.
  destruct Hresult
    as [ | | | | b graph rng weights actual real report _ Hnature _ _ _ Hfile _ ];
    try discriminate.
  split; [| exact Hfile].
  destruct (decide (updateNature o ∈ (""%string :: named_natures)))
    as [Hin | Hout]; [exact Hin|].
  rewrite (handleUpdateNature_unknown _ _ _ _ _ _ _ _ _ _ Hout) in Hnature.
  discriminate.
Qed.

Lemma completed_known (o : Options D) (st : RunState C) (t : list (event D)) :
  completed log C env o st t ->
  (st_multiBatch st <> 0 -> updateNature o ∈ (""%string :: named_natures))
  /\ forall k, st_counter st < k <= st_counter st + st_multiBatch st ->
       output_creatable env (outputFileName (outputDir o) (outputPrefix o) k) = true.
Proof.
  induction 1 as [st Hzero | st st' t t' Hzero Hmin Hround Hrest [_ IH]].
  - split; [contradiction | lia].
  - pose proof (round_Returned_known _ _ _ _ Hround) as [Hnature Hfile].
    apply round_Returned_files in Hround as (_ & Hcounter & Hcount).
    cbn [enter_round st_counter st_multiBatch] in *.
    split; [now intros _|]. intros k Hk.
    destruct (Z.eq_dec k (st_counter st + 1)) as [-> | Hlater]; [exact Hfile|].
    apply IH. lia.
Qed.

End Success.

(** X20.  When a run succeeds.  Take a run that is no request for
    help, whose input file opens, under a known format and known
    transforms, with a batch size other than zero and a round count
    between 0 and [INT_MAX], given fuel for its rounds.  It returns
    exactly when the round count is 0, or the update nature is one the
    dispatch knows and every file of a round, from the first to the
    last, can be created. *)
Theorem run_returns_iff :
  forall (D : Type) (HD : Double D) (log : D -> D) (C : Collaborators D)
         (env : Environment) (fuel : nat) (o : Options D),
    help o = false ->
    is_Some (input_file env (inputGraph o)) ->
    inputFormat o ∈ known_formats ->
    Forall (fun name => name ∈ applied_transforms ++ ignored_transforms)
           (transforms o) ->
    batchSize o <> 0 ->
    0 <= multiBatch o <= INT_MAX ->
    multiBatch o < Z.of_nat fuel ->
    (handleOptions log C env fuel o).2 = Returned tt
    <-> multiBatch o = 0
        \/ (updateNature o ∈ (""%string :: named_natures)
            /\ forall k, 1 <= k <= multiBatch o ->
                 output_creatable env
                   (outputFileName (outputDir o) (outputPrefix o) k) = true).
Proof.
  intros D HD log C env fuel o Hhelp Hfile Hformat Hknown Hgiven Hrounds Hfuel.
  split.
  - intros Hreturned.
    destruct (handleOptions log C env fuel o) as [t r] eqn:Hrun.
    cbn [snd] in Hreturned. subst r.
    destruct (Z.eq_dec (multiBatch o) 0) as [Hzero | Hsome]; [now left | right].
    destruct (handleOptions_completed log C env fuel o t Hhelp Hrun)
      as (prefix & graph & ticks & t' & Hquiet & -> & Hcompleted & _).
    apply completed_known in Hcompleted as [Hnature Hcreatable].
    cbn [initialState st_multiBatch st_counter] in Hnature, Hcreatable.
    split; [now apply Hnature|]. intros k Hk. apply Hcreatable. lia.
  - intros Hsuccess.
    rewrite handleOptions_reads by assumption.
    rewrite (applyTransforms_known C env _ _ _ Hknown).
    unfold emit. rewrite !bind_step. cbn [snd].
    destruct Hsuccess as [Hzero | [Hnature Hcreatable]].
    + destruct fuel as [| fuel]; [lia|]. cbn [rounds initialState st_multiBatch].
      now rewrite Hzero.
    + apply rounds_return; cbn [initialState st_batchSize st_multiBatch st_counter];
        try assumption; try lia.
      intros k Hk. apply Hcreatable. lia.
Qed.

(** Two rounds of the demonstration. *)
Lemma run_returns_iff_witness :
  (handleOptions Demo.log (Demo.collaborators float) Demo.environment 10
     (Cases.options "matrix-market" ["transpose"]%string)).2
  = Returned tt.
Proof.
  apply (run_returns_iff float _ Demo.log (Demo.collaborators float)
           Demo.environment 10%nat
           (Cases.options "matrix-market" ["transpose"]%string)).
  - reflexivity.
  - now eexists.
  - apply list_elem_of_In. cbn. tauto.
  - repeat constructor.
  - discriminate.
  - unfold INT_MAX. cbn. lia.
  - cbn. lia.
  - right. split; [apply list_elem_of_In; cbn; tauto | reflexivity].
Defined.

(** ** The graphs of a run *)

Section Snapshots.
Context {D : Type} `{Double D}.
Variable log : D -> D.
Variable C : Collaborators D.
Variable env : Environment.

Lemma handleUpdateNature_applies (distribution nature : string) (graph : Graph C)
    (rng : Rng C) (batchSize : Z) (deletions insertions : D) (weights : list D)
    (duplicates : bool) (t : list (event D)) (graph' : Graph C) (rng' : Rng C)
    (weights' : list D) :
  handleUpdateNature C distribution nature graph rng batchSize deletions insertions
    weights duplicates = (t, Returned (graph', rng', weights')) ->
  exists removed added, graph' = applyBatchUpdateU C graph removed added.
Proof.
  unfold handleUpdateNature.
  destruct (String.eqb nature "").
  { destruct (customUpdate C _ _ _ _ _ _ _) as [[[w ins] del] r].
    cbn. intros [= _ <- _ _]. now eexists _, _. }
  destruct (String.eqb nature "uniform").
  { destruct (uniformUpdate C _ _ _ _ _ _) as [[ins del] r].
    cbn. intros [= _ <- _ _]. now eexists _, _. }
  destruct (String.eqb nature "preferential").
  { destruct (preferentialUpdate C _ _ _ _ _ _) as [[ins del] r].
    cbn. intros [= _ <- _ _]. now eexists _, _. }
  destruct (String.eqb nature "planted").
  { cbn. intros [= _ <- _ _]. now eexists _, _. }
  destruct (String.eqb nature "match").
  { cbn. intros [= _ <- _ _]. now eexists _, _. }
  discriminate.
Qed.

(** What a round that returns did to the graph, and what it left in the
    trace of it. *)
Lemma round_Returned_snapshot (o : Options D) (st st' : RunState C)
    (t : list (event D)) :
  round log C env o st = (t, Returned st') ->
  (exists removed added,
     st_graph st' = applyBatchUpdateU C (st_graph st) removed added)
  /\ (output_files t).*2 = [writeEdgeList C (st_graph st')]
  /\ omap applied_size t = [graph_size C (st_graph st')]
  /\ (batch_sizes t).*1 = [graph_size C (st_graph st)].
Proof.
  intros Hround. apply round_Returned in Hround
    as (b & g & rng & w & a & r & report & _ & Hnature & _ & _ & _ & Hscored & -> & ->).
  cbn [st_graph]. split; [now apply handleUpdateNature_applies in Hnature|].
  assert (Hreport : omap applied_size report = []) by now destruct Hscored.
  apply scored_quiet in Hscored as (_ & Hfiles & Hsizes).
  unfold output_files, batch_sizes in *.
  rewrite !omap_app, Hfiles, Hsizes, Hreport. repeat split.
Qed.

Lemma completed_snapshots (o : Options D) (st : RunState C) (t : list (event D)) :
  completed log C env o st t ->
  exists graphs,
    chain C (st_graph st) graphs
    /\ length graphs = Z.to_nat (st_multiBatch st)
    /\ (output_files t).*2 = writeEdgeList C <$> graphs
    /\ omap applied_size t = graph_size C <$> graphs
    /\ (batch_sizes t).*1
       = graph_size C <$> take (length graphs) (st_graph st :: graphs).
Proof.
  induction 1 as [st Hzero | st st' t t' Hzero Hmin Hround Hrest IH].
  - exists []. rewrite Hzero. repeat split. constructor.
  - destruct IH as (graphs & Hchain & Hlength & Hfiles & Happlied & Hsizes).
    pose proof (completed_count _ _ _ _ _ _ Hrest) as Hcount.
    pose proof (round_Returned_files _ _ _ _ _ _ _ Hround) as (_ & _ & Hrounds).
    apply round_Returned_snapshot in Hround
      as ((removed & added & Hgraph) & Hfile & Hsize & Hbefore).
    cbn [enter_round st_graph st_multiBatch] in *.
    exists (st_graph st' :: graphs). split; [| split; [| split; [| split]]].
    + rewrite Hgraph in *. now constructor.
    + cbn [length]. lia.
    + unfold output_files in *. rewrite omap_app, !fmap_app, Hfile, Hfiles. reflexivity.
    + rewrite omap_app, Hsize, Happlied. reflexivity.
    + unfold batch_sizes in *. rewrite omap_app, !fmap_app, Hbefore, Hsizes.
      reflexivity.
Qed.

End Snapshots.

Section Entry.
Context {D : Type} `{Double D}.
Variable log : D -> D.
Variable C : Collaborators D.
Variable env : Environment.

Lemma handleInputFormat_Returned (inputFormat : string) (graph graph' : Graph C)
    (inputGraph : string) (t : list (event D)) :
  handleInputFormat C env inputFormat graph inputGraph = (t, Returned graph') ->
  t = []
  /\ graph' = (if String.eqb inputFormat "matrix-market"
               then readMtxW C (input_file env) graph inputGraph
               else graph).
Proof.
  unfold handleInputFormat.
  destruct (String.eqb inputFormat "matrix-market"); [now intros [= <- <-]|].
  destruct (String.eqb inputFormat "edgelist"); [now intros [= <- <-]|].
  destruct (String.eqb inputFormat "snap-temporal"); [now intros [= <- <-]|].
  discriminate.
Qed.

Lemma handleInputTransform_Returned (name : string) (graph graph' : Graph C)
    (t : list (event D)) :
  handleInputTransform C name graph = (t, Returned graph') ->
  t = [] /\ graph' = transformed C [name] graph.
Proof.
  destruct (decide (name ∈ applied_transforms ++ ignored_transforms)) as [Hin | Hout].
  - rewrite (handleInputTransform_known C name graph Hin). now intros [= <- <-].
  - now rewrite (handleInputTransform_unknown C name graph Hout).
Qed.

Lemma applyTransforms_Returned (names : list string) (graph graph' : Graph C)
    (ticks ticks' : nat) (t : list (event D)) :
  applyTransforms C env names graph ticks = (t, Returned (graph', ticks')) ->
  quiet t /\ graph' = transformed C names graph.
Proof.
  revert graph ticks t.
  induction names as [| name names IH]; intros graph ticks t; cbn [applyTransforms].
  - intros [= <- <- _]. split; [constructor | reflexivity].
  - intros Hrun.
    apply bind_Returned in Hrun as (t1 & g1 & t2 & Hname & Hrest & ->).
    apply handleInputTransform_Returned in Hname as [-> ->].
    apply bind_Returned in Hrest as (t3 & [] & t4 & [= <-] & Hrest & ->).
    apply IH in Hrest as [Hquiet ->].
    split; [| reflexivity].
    cbn. constructor; [now eexists | exact Hquiet].
Qed.

(** A run that returns entered the loop with [entry_graph], having printed
    console lines only, and left it after the rounds of [completed]. *)
Lemma handleOptions_entry (fuel : nat) (o : Options D) (t : list (event D)) :
  help o = false ->
  handleOptions log C env fuel o = (t, Returned tt) ->
  exists prefix ticks t',
    quiet prefix /\ t = prefix ++ t'
    /\ completed log C env o (initialState C env o (entry_graph C env o) ticks) t'.
Proof.
  intros Hhelp Hrun. unfold handleOptions in Hrun. rewrite Hhelp in Hrun.
  apply bind_Returned in Hrun as (t1 & [] & t2 & Hfile & Hrun & ->).
  assert (t1 = []) as ->.
  { unfold checkInputFile in Hfile.
    destruct (input_file env (inputGraph o)); [now injection Hfile | discriminate]. }
  apply bind_Returned in Hrun as (t3 & graph & t4 & Hformat & Hrun & ->).
  apply handleInputFormat_Returned in Hformat as [-> ->].
  apply bind_Returned in Hrun as (t5 & [] & t6 & [= <-] & Hrun & ->).
  apply bind_Returned in Hrun as (t7 & [graph ticks] & t8 & Htransforms & Hrun & ->).
  apply applyTransforms_Returned in Htransforms as [Hquiet ->].
  apply rounds_completed in Hrun.
  exists (Console (ReadGraphTime (clock env 0)) :: t7), ticks, t8.
  split; [constructor; [now eexists | exact Hquiet]|].
  split; [reflexivity | exact Hrun].
Qed.

End Entry.

(** X21.  A run that returns went through a chain of graphs, one per
    round, that starts from [entry_graph], the graph read and
    transformed: each round applies one batch to the graph the round
    before it left (the first one to [entry_graph]), reports the edge
    count of the result and writes it.  So the file of round [k] holds
    the edge list of the graph after [k] batches, and the batch size of
    the next round is computed against the edge count of that graph. *)
Theorem files_are_snapshots :
  forall (D : Type) (HD : Double D) (log : D -> D) (C : Collaborators D)
         (env : Environment) (fuel : nat) (o : Options D) (t : list (event D)),
    help o = false ->
    handleOptions log C env fuel o = (t, Returned tt) ->
    exists graphs : list (Graph C),
      chain C (entry_graph C env o) graphs
      /\ length graphs = Z.to_nat (multiBatch o)
      /\ (output_files t).*2 = writeEdgeList C <$> graphs
      /\ omap applied_size t = graph_size C <$> graphs
      /\ (batch_sizes t).*1
         = graph_size C <$> take (length graphs) (entry_graph C env o :: graphs).
Proof.
  intros D HD log C env fuel o t Hhelp Hrun.
  destruct (handleOptions_entry log C env fuel o t Hhelp Hrun)
    as (prefix & ticks & t' & Hquiet & -> & Hcompleted).
  apply completed_snapshots in Hcompleted
    as (graphs & Hchain & Hlength & Hfiles & Happlied & Hsizes).
  cbn [initialState st_graph st_multiBatch] in *.
  exists graphs. unfold output_files, batch_sizes in *.
  rewrite !omap_app, !(quiet_omap _ prefix) by easy. cbn [app].
  repeat split; assumption.
Qed.

(** Two rounds of the demonstration on the transposed graph. *)
Lemma files_are_snapshots_witness :
  let o := Cases.options "matrix-market" ["transpose"]%string in
  let run := handleOptions Demo.log (Demo.collaborators float) Demo.environment 10 o in
  entry_graph (Demo.collaborators float) Demo.environment o
  = map Demo.flip_edge Demo.initial
  /\ exists graphs : list Demo.graph,
       chain (Demo.collaborators float) (map Demo.flip_edge Demo.initial) graphs
       /\ length graphs = Z.to_nat (multiBatch o)
       /\ (output_files run.1).*2
          = writeEdgeList (Demo.collaborators float) <$> graphs.
Proof.
  cbv zeta. split; [reflexivity|].
  destruct (files_are_snapshots float _ Demo.log (Demo.collaborators float)
              Demo.environment 10%nat
              (Cases.options "matrix-market" ["transpose"]%string)
              (handleOptions Demo.log (Demo.collaborators float) Demo.environment 10
                 (Cases.options "matrix-market" ["transpose"]%string)).1)
    as (graphs & Hchain & Hlength & Hfiles & _).
  - reflexivity.
  - vm_compute. reflexivity.
  - exists graphs. repeat split; assumption.
Defined.
